(** * The wiki dump converter (convert.py): model and properties

    The development embeds the converter's functions as Rocq definitions,
    leaves first (strings and regular expressions, the cleaner, the
    parsed document, the invoker, the checkpoint, the scheduler, the
    signal handler), and then states and proves the properties of the
    specification about them, and further properties of the code.

    Text is a list of characters; a character is an [ascii], read as a
    code point below 256.  Counters are Python integers, modelled by [Z]. *)

From Stdlib Require Import String Ascii.
From Stdlib Require Import List ZArith Lia Bool Arith.
From Equations Require Import Equations.
Import ListNotations.

Set Warnings "-register-all".

(* ===================================================================== *)
(** * Python strings *)
(* ===================================================================== *)

Definition text := list ascii.

(** A string literal as a text. *)
Definition T (s : string) : text := list_ascii_of_string s.

Module PyStr.

(** The double quote, the single quote and the line feed. *)
Definition dquote : ascii := "034"%char.
Definition squote : ascii := "039"%char.
Definition newline : ascii := "010"%char.

Definition text_eqb (a b : text) : bool :=
  if list_eq_dec ascii_dec a b then true else false.

(** [str.isspace] on one character, for code points below 256: the
    ASCII white space 9..13 and 32, the separators 28..31, NEL (133) and
    the no-break space (160).  [\s] of a [str] pattern is the same set. *)
Definition is_space (c : ascii) : bool :=
  let n := nat_of_ascii c in
  ((9 <=? n) && (n <=? 13)) || ((28 <=? n) && (n <=? 31))
  || (n =? 32) || (n =? 133) || (n =? 160).

(** [c in s] for a one-character [c]. *)
Definition mem (c : ascii) (s : text) : bool := existsb (Ascii.eqb c) s.

(** [s.replace(a, b)] for one-character [a] and [b]. *)
Definition replace (a b : ascii) (s : text) : text :=
  map (fun c => if Ascii.eqb c a then b else c) s.

Fixpoint drop_while (p : ascii -> bool) (s : text) : text :=
  match s with
  | [] => []
  | c :: s' => if p c then drop_while p s' else s
  end.

Definition lstrip_by (p : ascii -> bool) (s : text) : text := drop_while p s.
Definition rstrip_by (p : ascii -> bool) (s : text) : text :=
  rev (drop_while p (rev s)).

(** [s.strip()]: white space removed at both ends. *)
Definition strip (s : text) : text := rstrip_by is_space (lstrip_by is_space s).

(** [s.strip(c)] for a one-character [c]. *)
Definition strip_char (c : ascii) (s : text) : text :=
  rstrip_by (Ascii.eqb c) (lstrip_by (Ascii.eqb c) s).

(** [s.split(c, 1)] as the pair (before the first [c], after it); when
    [c] does not occur the first component is all of [s]. *)
Fixpoint split_once (c : ascii) (s : text) : text * text :=
  match s with
  | [] => ([], [])
  | x :: s' =>
      if Ascii.eqb x c then ([], s')
      else let (a, b) := split_once c s' in (x :: a, b)
  end.

(** [s.split(c)[0]]. *)
Definition split_head (c : ascii) (s : text) : text := fst (split_once c s).

(** Python truth value of a string. *)
Definition truthy (s : text) : bool :=
  match s with [] => false | _ => true end.

End PyStr.

(* ===================================================================== *)
(** * Regular expressions ([re.sub])

    The ten patterns of [clean_wiki_markup] are sequences of literal
    characters, quantified character classes, one capture group and the
    end anchor.  [item] is that fragment of the pattern language; the
    matcher is the backtracking matcher of [re]: a greedy quantifier
    tries the longest run first, a lazy one the shortest, and the first
    success in that order is the match. *)
(* ===================================================================== *)

Module Re.
Import PyStr.

Inductive item : Type :=
| Chr (c : ascii)                  (* a literal character *)
| Star (p : ascii -> bool)         (* [class*]  *)
| Plus (p : ascii -> bool)         (* [class+]  *)
| PlusLazy (p : ascii -> bool)     (* [class+?] *)
| Open                             (* [(] of group 1 *)
| Close                            (* [)] of group 1 *)
| Eos.                             (* [$] *)

Definition pattern := list item.

(** A run of literal characters. *)
Definition lit (s : string) : pattern := map Chr (T s).

(** Character classes. *)
Definition any_but (c : ascii) : ascii -> bool := fun x => negb (Ascii.eqb x c).
Definition dot : ascii -> bool := any_but newline.   (* no DOTALL flag *)
Definition space : ascii -> bool := is_space.

(** [$] without MULTILINE: at the end of the text, or before a line feed
    that ends the text. *)
Definition at_eos (s : text) : bool :=
  match s with
  | [] => true
  | [c] => Ascii.eqb c newline
  | _ => false
  end.

(** A match is reported as (end position, start of group 1, end of
    group 1), positions counted from the start of the match. *)
Definition span := (nat * nat * nat)%type.

Fixpoint greedy (p : ascii -> bool) (k : text -> nat -> option span)
         (s : text) (pos : nat) : option span :=
  match s with
  | c :: s' =>
      if p c then
        match greedy p k s' (S pos) with
        | Some r => Some r
        | None => k s pos
        end
      else k s pos
  | [] => k s pos
  end.

Fixpoint lazy (p : ascii -> bool) (k : text -> nat -> option span)
         (s : text) (pos : nat) : option span :=
  match k s pos with
  | Some r => Some r
  | None =>
      match s with
      | c :: s' => if p c then lazy p k s' (S pos) else None
      | [] => None
      end
  end.

Fixpoint match_items (its : pattern) (s : text) (pos gs ge : nat) : option span :=
  match its with
  | [] => Some (pos, gs, ge)
  | Chr c :: r =>
      match s with
      | c' :: s' => if Ascii.eqb c c' then match_items r s' (S pos) gs ge else None
      | [] => None
      end
  | Open :: r => match_items r s pos pos ge
  | Close :: r => match_items r s pos gs pos
  | Eos :: r => if at_eos s then match_items r s pos gs ge else None
  | Star p :: r => greedy p (fun s' pos' => match_items r s' pos' gs ge) s pos
  | Plus p :: r =>
      match s with
      | c :: s' =>
          if p c then greedy p (fun s' pos' => match_items r s' pos' gs ge) s' (S pos)
          else None
      | [] => None
      end
  | PlusLazy p :: r =>
      match s with
      | c :: s' =>
          if p c then lazy p (fun s' pos' => match_items r s' pos' gs ge) s' (S pos)
          else None
      | [] => None
      end
  end.

(** [pattern.match] at the start of [s]: the length of the match and the
    text of group 1. *)
Definition match_here (p : pattern) (s : text) : option (nat * text) :=
  match match_items p s 0 0 0 with
  | Some (e, gs, ge) => Some (e, firstn (ge - gs) (skipn gs s))
  | None => None
  end.

(** The replacement argument of [re.sub]: a template with literal text
    and back-references to group 1, or a function of the match (which
    here reads group 1 only). *)
Inductive ritem : Type :=
| RLit (t : text)
| RGroup1.

Inductive replacement : Type :=
| Template (t : list ritem)
| Function (f : text -> text).

Definition expand (r : replacement) (g : text) : text :=
  match r with
  | Template t =>
      flat_map (fun i => match i with RLit l => l | RGroup1 => g end) t
  | Function f => f g
  end.

(** [re.sub(p, r, s)]: scan from the left; where the pattern matches,
    emit the replacement and resume after the match; elsewhere copy the
    character.  [skip] counts the characters of a match still to pass.
    None of the ten patterns matches the empty text; for an empty match
    the replacement is emitted and the scan moves on by one character. *)
Fixpoint sub_from (p : pattern) (r : replacement) (skip : nat) (s : text) : text :=
  match skip with
  | S k =>
      match s with
      | [] => []
      | _ :: s' => sub_from p r k s'
      end
  | 0 =>
      match match_here p s with
      | Some (S k, g) =>
          expand r g ++
          match s with
          | [] => []
          | _ :: s' => sub_from p r k s'
          end
      | Some (0, g) =>
          expand r g ++
          match s with
          | [] => []
          | c :: s' => c :: sub_from p r 0 s'
          end
      | None =>
          match s with
          | [] => []
          | c :: s' => c :: sub_from p r 0 s'
          end
      end
  end.

Definition sub (p : pattern) (r : replacement) (s : text) : text :=
  sub_from p r 0 s.

End Re.

(* ===================================================================== *)
(** * Markup cleaner: [process_wikilink], [clean_wiki_markup] *)
(* ===================================================================== *)

Module Cleaner.
Import PyStr Re.

Definition process_wikilink (link : text) : text :=
  if mem "|" link then
    let (target, label) := split_once "|" link in
    T "[" ++ label ++ T "](/" ++ replace " " "_" target ++ T ")"
  else
    T "[" ++ link ++ T "](/" ++ replace " " "_" link ++ T ")".

Definition p_table : pattern :=
  lit "{| class=" ++ [Chr dquote] ++ lit "wikitable sortable mw-collapsible"
  ++ [Chr dquote] ++ lit " ; "
  ++ [Open] ++ lit "text-align:" ++ [Plus (any_but dquote); Close; Chr dquote].
Definition r_table : replacement :=
  Template [RLit (T "{| class=" ++ [dquote] ++ T "wikitable sortable mw-collapsible"
                  ++ [dquote] ++ T " style=" ++ [dquote]);
            RGroup1; RLit [dquote]].

Definition p_row : pattern := lit "|-" ++ [Star space; Eos].
Definition r_row : replacement := Template [RLit (T "|-")].

Definition p_valign : pattern :=
  lit "| style=" ++ [Chr dquote] ++ lit "vertical-align: top; |".
Definition r_valign : replacement :=
  Template [RLit (T "| style=" ++ [dquote] ++ T "vertical-align: top;"
                  ++ [dquote] ++ T " |")].

Definition p_sheets : pattern :=
  lit "data-sheets-value=" ++ [Chr dquote] ++ lit "{" ++ [Chr dquote] ++ lit "1"
  ++ [Chr dquote] ++ lit ":2," ++ [Chr dquote] ++ lit "2" ++ [Chr dquote]
  ++ lit ":" ++ [Chr dquote]
  ++ [Open; Plus (any_but dquote); Close]
  ++ [Chr dquote] ++ lit "}" ++ [Chr dquote].
Definition r_sheets : replacement :=
  Template [RLit (T "data-sheets-value=" ++ [dquote]); RGroup1; RLit [dquote]].

Definition p_short_description : pattern :=
  lit "{{short description|" ++ [Open; Plus (any_but "}"); Close] ++ lit "}}".
Definition r_short_description : replacement :=
  Template [RLit (T "<!-- Short description: "); RGroup1; RLit (T " -->")].

Definition p_use : pattern := lit "{{Use " ++ [Plus (any_but "}")] ++ lit "}}".
Definition r_use : replacement := Template [].

Definition p_ref_dq : pattern :=
  lit "<ref name=" ++ [Chr dquote; Open; Plus (any_but dquote); Close; Chr dquote]
  ++ lit ">" ++ [Star space] ++ lit "</ref>".
Definition p_ref_sq : pattern :=
  lit "<ref name=" ++ [Chr squote; Open; Plus (any_but squote); Close; Chr squote]
  ++ lit ">" ++ [Star space] ++ lit "</ref>".
Definition r_ref : replacement :=
  Template [RLit (T "<!--ref "); RGroup1; RLit (T "-->")].

Definition p_template : pattern :=
  lit "{{" ++ [Open; Plus (any_but "}"); Close] ++ lit "}}".
Definition r_template : replacement :=
  Template [RLit (T "<!-- "); RGroup1; RLit (T " -->")].

Definition p_wikilink : pattern :=
  lit "[[" ++ [Open; PlusLazy dot; Close] ++ lit "]]".
Definition r_wikilink : replacement := Function process_wikilink.

Definition patterns : list (pattern * replacement) :=
  [ (p_table, r_table);
    (p_row, r_row);
    (p_valign, r_valign);
    (p_sheets, r_sheets);
    (p_short_description, r_short_description);
    (p_use, r_use);
    (p_ref_dq, r_ref);
    (p_ref_sq, r_ref);
    (p_template, r_template);
    (p_wikilink, r_wikilink) ].

Definition clean_wiki_markup (t : text) : text :=
  fold_left (fun t pr => sub (fst pr) (snd pr) t) patterns t.

End Cleaner.

(* ===================================================================== *)
(** * The parsed document: elements and parser events *)
(* ===================================================================== *)

Module Xml.
Import PyStr.

(** An [ElementTree] element: tag, [.text] ([None] when the element has
    no character data) and children. *)
Inductive element : Type :=
| Element (tag : text) (etext : option text) (children : list element).

Definition tag (e : element) : text := let 'Element t _ _ := e in t.
Definition etext (e : element) : option text := let 'Element _ x _ := e in x.
Definition children (e : element) : list element := let 'Element _ _ c := e in c.

(** [str(namespace)] inside a format string. *)
Definition py_str (ns : option text) : text :=
  match ns with
  | Some s => s
  | None => T "None"
  end.

(** The qualified tag ["{namespace}name"]. *)
Definition qualify (ns : option text) (name : string) : text :=
  T "{" ++ py_str ns ++ T "}" ++ T name.

Definition with_tag (tg : text) (els : list element) : list element :=
  filter (fun e => text_eqb (tag e) tg) els.

(** [element.find('ns:a', namespaces)]: the first child with that tag. *)
Definition find (ns : option text) (a : string) (e : element) : option element :=
  hd_error (with_tag (qualify ns a) (children e)).

(** [element.find('ns:a/ns:b', namespaces)]: the first [b] child of an
    [a] child, in document order. *)
Definition find_path (ns : option text) (a b : string) (e : element) : option element :=
  hd_error (flat_map (fun x => with_tag (qualify ns b) (children x))
                     (with_tag (qualify ns a) (children e))).

(** The events of [ET.iterparse(f, events=('start', 'end'))]. *)
Inductive event_kind : Type := EvStart | EvEnd.
Definition event := (event_kind * element)%type.

Definition is_start (k : event_kind) : bool :=
  match k with EvStart => true | EvEnd => false end.
Definition is_end (k : event_kind) : bool :=
  match k with EvStart => false | EvEnd => true end.

(** The parser's output for a document: the events it yields and, when
    [malformed], the [ParseError] it raises after them instead of
    stopping. *)
Record source : Type := { events : list event; malformed : bool }.

End Xml.

(* ===================================================================== *)
(** * Exceptions, the environment *)
(* ===================================================================== *)

Inductive exn : Type :=
| FileNotFoundError
| OSError
| TimeoutExpired
| ValueError (msg : text)
| KeyError (key : text)
| TypeError.

Inductive outcome (A : Type) : Type :=
| Ret (a : A)
| Raise (e : exn).
Arguments Ret {A} a.
Arguments Raise {A} e.

(** What [json.load] yields.  Numbers are the integers; a float is not
    modelled. *)
Inductive json : Type :=
| JNull
| JBool (b : bool)
| JInt (z : Z)
| JStr (s : text)
| JList (l : list json)
| JDict (d : list (text * json)).

(** What [subprocess.run(..., timeout=30)] does with the renderer. *)
Inductive run_result : Type :=
| CompletedProcess (returncode : Z) (stdout stderr : text)
| RunTimeout                         (* raises TimeoutExpired *)
| RunFailed.                         (* raises OSError: the renderer cannot be started *)

(** The collaborators the program talks to.  [signal_at = Some n] means
    that the cancellation flag [should_exit] is raised just before its
    [n]-th read (reads are counted from 0) and stays raised; [None] that
    it never is.  [run_pandoc fmt content] is the renderer on a file with
    that content ([None]: no such file). *)
Record environment : Type := {
  signal_at : option nat;
  strftime : nat -> text;
  json_loads : text -> option json;          (* [None]: JSONDecodeError *)
  run_pandoc : text -> option text -> run_result;
  makedirs_ok : text -> bool;
  write_ok : text -> text -> bool
}.

Definition should_exit (E : environment) (t : nat) : bool :=
  match signal_at E with
  | Some n => n <=? t
  | None => false
  end.

(* ===================================================================== *)
(** * Conversion invoker and artifact writer *)
(* ===================================================================== *)

Module Invoker.
Import PyStr.

(** The temporary directory: the files in it, by name. *)
Definition tmpfs := list (nat * text).

Definition names (fs : tmpfs) : list nat := map fst fs.
Definition exists_file (n : nat) (fs : tmpfs) : bool := existsb (Nat.eqb n) (names fs).
Definition read_file (n : nat) (fs : tmpfs) : option text :=
  option_map snd (find (fun e => Nat.eqb (fst e) n) fs).
Definition remove_file (n : nat) (fs : tmpfs) : tmpfs :=
  filter (fun e => negb (Nat.eqb (fst e) n)) fs.

(** A name no file has. *)
Definition fresh (fs : tmpfs) : nat := S (fold_right Nat.max 0 (names fs)).

(** Computations on the temporary directory that may raise. *)
Definition M (A : Type) : Type := tmpfs -> outcome A * tmpfs.

Definition ret {A} (a : A) : M A := fun fs => (Ret a, fs).
Definition raise {A} (e : exn) : M A := fun fs => (Raise e, fs).
Definition bind {A B} (m : M A) (f : A -> M B) : M B :=
  fun fs =>
    match m fs with
    | (Ret a, fs') => f a fs'
    | (Raise e, fs') => (Raise e, fs')
    end.

Notation "x <- m ;; k" := (bind m (fun x => k))
  (at level 61, m at next level, right associativity).

(** [try: body except ...: handler]; the handler declines ([None]) the
    exceptions its clauses do not name. *)
Definition try_except {A} (body : M A) (handler : exn -> option (M A)) : M A :=
  fun fs =>
    match body fs with
    | (Ret a, fs') => (Ret a, fs')
    | (Raise e, fs') =>
        match handler e with
        | Some h => h fs'
        | None => (Raise e, fs')
        end
    end.

(** [try: body finally: fin]: [fin] runs on every way out of [body]; the
    result or exception of [body] stands unless [fin] itself raises. *)
Definition try_finally {A} (body : M A) (fin : M unit) : M A :=
  fun fs =>
    let (o, fs1) := body fs in
    match fin fs1 with
    | (Ret _, fs2) => (o, fs2)
    | (Raise e, fs2) => (Raise e, fs2)
    end.

(** [with tempfile.NamedTemporaryFile(mode='w', delete=False) as temp:
    temp.write(text); temp_name = temp.name] *)
Definition named_temporary_file (content : text) : M nat :=
  fun fs => let n := fresh fs in (Ret n, (n, content) :: fs).

Definition unlink (n : nat) : M unit :=
  fun fs =>
    if exists_file n fs then (Ret tt, remove_file n fs)
    else (Raise FileNotFoundError, fs).

Section WithEnvironment.
Variable E : environment.

Definition subprocess_run (format : text) (temp_name : nat) : M (Z * text * text) :=
  fun fs =>
    match run_pandoc E format (read_file temp_name fs) with
    | CompletedProcess rc out err => (Ret (rc, out, err), fs)
    | RunTimeout => (Raise TimeoutExpired, fs)
    | RunFailed => (Raise OSError, fs)
    end.

(** [convert_to_markdown]: [None] or the renderer's output. *)
Definition convert_to_markdown (t : text) (format : text) : M (option text) :=
  temp_name <- named_temporary_file t ;;
  try_finally
    (try_except
       (result <- subprocess_run format temp_name ;;
        let '(returncode, stdout, _) := result in
        if negb (returncode =? 0)%Z then ret None
        else ret (Some stdout))
       (fun e => match e with
                 | TimeoutExpired => Some (ret None)
                 | _ => None
                 end))
    (try_except (unlink temp_name)
       (fun e => match e with
                 | FileNotFoundError => Some (ret tt)
                 | _ => None
                 end)).

(** [os.path.dirname] and [os.path.join] (POSIX). *)
Definition all_slashes (s : text) : bool := forallb (Ascii.eqb "/") s.

Fixpoint rfind_slash_cut (s : text) : text :=
  match s with
  | [] => []
  | c :: s' =>
      if mem "/" s' then c :: rfind_slash_cut s'
      else if Ascii.eqb c "/" then [c] else []
  end.

Definition dirname (p : text) : text :=
  let head := rfind_slash_cut p in
  if truthy head && negb (all_slashes head) then rstrip_by (Ascii.eqb "/") head
  else head.

Definition path_join (a b : text) : text :=
  match b with
  | "/"%char :: _ => b
  | _ =>
      if negb (truthy a) || Ascii.eqb (last a " "%char) "/" then a ++ b
      else a ++ T "/" ++ b
  end.

(** [save_markdown]: [True] unless creating the directory or writing
    the file raises. *)
Definition save_markdown (title content output_dir : text) : bool :=
  let url := replace " " "_" title in
  let dir_path := path_join output_dir (dirname url) in
  if makedirs_ok E dir_path then
    let file_path := path_join output_dir (url ++ T ".md") in
    write_ok E file_path
      (T "---" ++ [newline] ++ T "title: " ++ title ++ [newline]
       ++ T "permalink: /" ++ url ++ T "/" ++ [newline] ++ T "---"
       ++ [newline; newline] ++ content)
  else false.

(** Python truth value of what [convert_to_markdown] returns. *)
Definition truthy_opt (o : option text) : bool :=
  match o with
  | Some s => truthy s
  | None => false
  end.

Definition empty_content : exn := ValueError (T "Conversion returned empty content").
Definition save_failed : exn := ValueError (T "Failed to save markdown file").

(** Lines 102-116 of [process_single_page]: the body of its [try]. *)
Definition process_single_page_body (title t output_dir format : text) : M bool :=
  let cleaned := Cleaner.clean_wiki_markup t in
  converted <- convert_to_markdown cleaned format ;;
  if negb (truthy_opt converted) then raise empty_content
  else
    let content := match converted with Some s => s | None => [] end in
    if negb (save_markdown title content output_dir) then raise save_failed
    else ret true.

(** [process_single_page]: any exception of the body gives [False]. *)
Definition process_single_page (title t output_dir format : text)
  : tmpfs -> bool * tmpfs :=
  fun fs =>
    match process_single_page_body title t output_dir format fs with
    | (Ret b, fs') => (b, fs')
    | (Raise _, fs') => (false, fs')
    end.

End WithEnvironment.

End Invoker.

(* ===================================================================== *)
(** * Checkpoint manager: [save_state], [load_state] *)
(* ===================================================================== *)

Module Checkpoint.
Import PyStr.

Inductive status_value : Type := in_progress | terminated.

(** The dictionary [save_state] writes. *)
Record state : Type := {
  position : Z;
  success : Z;
  failed : Z;
  last_updated : text;
  status : status_value
}.

(** [save_state] at the [t]-th read of the cancellation flag. *)
Definition save_state (E : environment) (processed success failed : Z) (t : nat) : state :=
  {| position := processed;
     success := success;
     failed := failed;
     last_updated := strftime E t;
     status := if should_exit E t then terminated else in_progress |}.

(** The dictionary as [json.load] gives it back. *)
Definition to_json (c : state) : json :=
  JDict [ (T "position", JInt (position c));
          (T "success", JInt (success c));
          (T "failed", JInt (failed c));
          (T "last_updated", JStr (last_updated c));
          (T "status", JStr (match status c with
                             | in_progress => T "in_progress"
                             | terminated => T "terminated"
                             end)) ].

(** [load_state] on the state file ([None]: no such file). *)
Definition load_state (E : environment) (state_file : option text) : option json :=
  match state_file with
  | None => None                           (* FileNotFoundError *)
  | Some content => json_loads E content   (* [None]: JSONDecodeError *)
  end.

(** Python truth value of a loaded value. *)
Definition truthy (v : json) : bool :=
  match v with
  | JNull => false
  | JBool b => b
  | JInt z => negb (z =? 0)%Z
  | JStr s => PyStr.truthy s
  | JList l => match l with [] => false | _ => true end
  | JDict d => match d with [] => false | _ => true end
  end.

Fixpoint lookup (key : text) (d : list (text * json)) : option json :=
  match d with
  | [] => None
  | (k, v) :: d' => if text_eqb k key then Some v else lookup key d'
  end.

(** [v[key]] for a string [key]. *)
Definition subscript (v : json) (key : string) : outcome json :=
  match v with
  | JDict d =>
      match lookup (T key) d with
      | Some x => Ret x
      | None => Raise (KeyError (T key))
      end
  | _ => Raise TypeError
  end.

End Checkpoint.

(* ===================================================================== *)
(** * Stream reader and batch scheduler: [process_page], [main] *)
(* ===================================================================== *)

Module Scheduler.
Import PyStr Xml.

Record args : Type := {
  filename : text;
  output : text;
  format : text;
  batch_size : Z;
  resume_from : Z;
  mem_limit : Z
}.

(** [parse_args] with only [--filename] given. *)
Definition default_args (filename : text) : args :=
  {| filename := filename;
     output := T "data";
     format := T "markdown";
     batch_size := 100;
     resume_from := 0;
     mem_limit := 100 |}.

Definition page_record := (text * text)%type.

Definition process_page (element : Xml.element) (namespace : option text)
  : option page_record :=
  let title_elem := find namespace "title" element in
  let text_elem := find_path namespace "revision" "text" element in
  match title_elem, text_elem with
  | Some te, Some xe =>
      match etext te, etext xe with
      | Some title, Some t => Some (strip title, strip t)
      | _, _ => None
      end
  | _, _ => None
  end.

(** [event == 'end' and element.tag == f'{{{namespace}}}page'] *)
Definition is_page_end (namespace : option text) (ev : event) : bool :=
  is_end (fst ev) && text_eqb (tag (snd ev)) (qualify namespace "page").

(** [namespace is None] *)
Definition is_none (ns : option text) : bool :=
  match ns with None => true | Some _ => false end.

(** [element.tag.split('}')[0].strip('{')] *)
Definition detect_namespace (tg : text) : text :=
  strip_char "{" (split_head "}" tg).

(** What the run does, in order: a page element met by the [for] loop
    (line 243) or by the inner [while] loop (line 259), with what
    [process_page] made of it; a batch handed to the pool, with its
    results; a checkpoint written. *)
Inductive action : Type :=
| Page (r : option page_record)
| NextPage (r : option page_record)
| Dispatched (batch : list page_record) (results : list bool)
| Saved (c : Checkpoint.state).

Inductive abort : Type :=
| MissingInput                    (* [sys.exit(1)], line 213 *)
| ParseError                      (* [except ET.ParseError], line 291 *)
| Uncaught (e : exn)              (* an exception outside the [try] *)
| NonIntegerCounter.              (* a loaded counter that is no integer: not modelled *)

Inductive termination : Type :=
| Completed                       (* [main] returns *)
| Cancelled                       (* [sys.exit(0)], line 231 *)
| Aborted (why : abort).

Definition exit_code (t : termination) : Z :=
  match t with
  | Completed => 0
  | Cancelled => 0
  | Aborted _ => 1
  end.

(** The variables of [main]'s loop, the number of reads of the
    cancellation flag so far, and the temporary directory. *)
Record loop_state : Type := {
  processed : Z;
  success : Z;
  failed : Z;
  namespace : option text;
  clock : nat;
  tmp : Invoker.tmpfs
}.

(** What the inner [while] leaves: the batch, the page elements it met,
    the events not yet pulled, and whether it ran into the end of the
    event stream. *)
Record filled : Type := {
  fb_batch : list page_record;
  fb_pages : list action;
  fb_rest : list event;
  fb_exhausted : bool
}.

Section Run.
Variable E : environment.
Variable a : args.

(** The inner loop, lines 256-266. *)
Fixpoint fill_batch (ns : option text) (batch : list page_record)
         (evs : list event) : filled :=
  if (Z.of_nat (length batch) <? batch_size a)%Z then
    match evs with
    | [] => {| fb_batch := batch; fb_pages := []; fb_rest := []; fb_exhausted := true |}
    | next :: rest =>
        if is_page_end ns next then
          let next_data := process_page (snd next) ns in
          let f := fill_batch ns
                     (match next_data with
                      | Some d => batch ++ [d]
                      | None => batch
                      end) rest in
          {| fb_batch := fb_batch f;
             fb_pages := NextPage next_data :: fb_pages f;
             fb_rest := fb_rest f;
             fb_exhausted := fb_exhausted f |}
        else fill_batch ns batch rest
    end
  else {| fb_batch := batch; fb_pages := []; fb_rest := evs; fb_exhausted := false |}.

(** [pool.starmap(process_single_page, ...)]: the results in the order
    of the batch. *)
Fixpoint pool_starmap (batch : list page_record) (fs : Invoker.tmpfs)
  : list bool * Invoker.tmpfs :=
  match batch with
  | [] => ([], fs)
  | p :: batch' =>
      let (r, fs1) := Invoker.process_single_page E (fst p) (snd p) (output a) (format a) fs in
      let (rs, fs2) := pool_starmap batch' fs1 in
      (r :: rs, fs2)
  end.

(** [sum(results)] *)
Definition sum (results : list bool) : Z :=
  Z.of_nat (length (filter (fun b => b) results)).

Definition tick (st : loop_state) : loop_state :=
  {| processed := processed st; success := success st; failed := failed st;
     namespace := namespace st; clock := S (clock st); tmp := tmp st |}.

Definition prepend (l : list action) (r : list action * termination)
  : list action * termination := (l ++ fst r, snd r).

(** The [for event, element in context] loop, lines 228-287.  The
    cancellation flag is read at the top of each iteration and once
    more inside each [save_state]. *)
Equations? main_loop (malformed : bool) (evs : list event) (st : loop_state)
  : list action * termination by wf (length evs) lt :=
main_loop malformed [] st :=
  ([], if malformed then Aborted ParseError else Completed);
main_loop malformed (ev :: rest) st :=
  if should_exit E (clock st) then
    ([Saved (Checkpoint.save_state E (processed st) (success st) (failed st)
               (S (clock st)))],
     Cancelled)
  else if is_start (fst ev) && is_none (namespace st) then
    main_loop malformed rest
      {| processed := processed st; success := success st; failed := failed st;
         namespace := Some (detect_namespace (tag (snd ev)));
         clock := S (clock st); tmp := tmp st |}
  else if is_page_end (namespace st) ev then
    match process_page (snd ev) (namespace st) with
    | None =>
        prepend [Page None]
          (main_loop malformed rest
             {| processed := processed st + 1; success := success st;
                failed := failed st + 1;
                namespace := namespace st; clock := S (clock st); tmp := tmp st |})
    | Some page_data =>
        let f := fill_batch (namespace st) [page_data] rest in
        if fb_exhausted f && malformed then
          (Page (Some page_data) :: fb_pages f, Aborted ParseError)
        else
          let batch := fb_batch f in
          let results := fst (pool_starmap batch (tmp st)) in
          let success' := (success st + sum results)%Z in
          let failed' := (failed st + (Z.of_nat (length results) - sum results))%Z in
          let processed' := (processed st + Z.of_nat (length batch))%Z in
          prepend
            (Page (Some page_data) :: fb_pages f
             ++ [Dispatched batch results;
                 Saved (Checkpoint.save_state E processed' success' failed'
                          (S (clock st)))])
            (main_loop malformed (fb_rest f)
               {| processed := processed'; success := success'; failed := failed';
                  namespace := namespace st; clock := S (S (clock st));
                  tmp := snd (pool_starmap batch (tmp st)) |})
    end
  else main_loop malformed rest (tick st).
Proof.
  all: try (simpl; lia).
  subst f. simpl.
  assert (G : forall es b, length (fb_rest (fill_batch (namespace st) b es)) <= length es).
  { induction es as [|e es IH]; intros b; simpl.
    - destruct (Z.of_nat (length b) <? batch_size a)%Z; simpl; lia.
    - destruct (Z.of_nat (length b) <? batch_size a)%Z; simpl; [|lia].
      destruct (is_page_end (namespace st) e); simpl.
      + specialize (IH (match process_page (snd e) (namespace st) with
                        | Some d => b ++ [d] | None => b end)). lia.
      + specialize (IH b). lia. }
  specialize (G rest [page_data]). lia.
Qed.

(** Lines 216-220: the counters the run starts from. *)
Inductive startup : Type :=
| Init (processed success failed : Z)
| Fatal (why : abort).

Definition counter (o : outcome json) (k : Z -> startup) : startup :=
  match o with
  | Ret (JInt z) => k z
  | Ret _ => Fatal NonIntegerCounter
  | Raise e => Fatal (Uncaught e)
  end.

Definition initial_state (state : option json) : startup :=
  match state with
  | Some v =>
      if Checkpoint.truthy v then
        counter (Checkpoint.subscript v "position") (fun p =>
        counter (Checkpoint.subscript v "success") (fun s =>
        counter (Checkpoint.subscript v "failed") (fun f =>
        Init p s f)))
      else Init (resume_from a) 0 0
  | None => Init (resume_from a) 0 0
  end.

(** [Path(...).touch(exist_ok=True)] on the state file, line 192. *)
Definition touch (file : option text) : option text :=
  match file with
  | Some c => Some c
  | None => Some []
  end.

(** [main]: [input] is what the parser makes of the input file
    ([None]: no such file), [state_file] the content of the state
    file before the run. *)
Definition main (input : option source) (state_file : option text)
  : list action * termination :=
  match input with
  | None => ([], Aborted MissingInput)
  | Some src =>
      match initial_state (Checkpoint.load_state E (touch state_file)) with
      | Fatal why => ([], Aborted why)
      | Init p s f =>
          main_loop (malformed src) (events src)
            {| processed := p; success := s; failed := f;
               namespace := None; clock := 0; tmp := [] |}
      end
  end.

End Run.

End Scheduler.

(* ===================================================================== *)
(** * Signal handler: [signal_handler] *)
(* ===================================================================== *)

Module Signals.

(** The values a handler is called with. *)
Inductive value : Type :=
| Int (z : Z)          (* a signal number *)
| Frame                (* the current stack frame *)
| NoFrame.             (* [None] for the frame *)

(** A call of a function defined with positional parameters: the
    arguments are bound to the parameters in order; a call with more or
    fewer arguments than parameters raises [TypeError] before the body
    runs. *)
Fixpoint bind_arguments (parameters : list string) (arguments : list value)
  : outcome (list (string * value)) :=
  match parameters, arguments with
  | [], [] => Ret []
  | p :: ps, v :: vs =>
      match bind_arguments ps vs with
      | Ret l => Ret ((p, v) :: l)
      | Raise e => Raise e
      end
  | _, _ => Raise TypeError
  end.

(** [signal_handler], lines 19-22: one parameter, [signum]; the body
    sets the global [should_exit].  The result is the outcome of the
    call and the value of the global after it. *)
Definition signal_handler (arguments : list value) (should_exit : bool)
  : outcome unit * bool :=
  match bind_arguments ["signum"%string] arguments with
  | Ret _ => (Ret tt, true)
  | Raise e => (Raise e, should_exit)
  end.

(** Lines 25-26 register [signal_handler] for SIGINT and SIGTERM.  When
    one of them arrives, the interpreter calls the registered handler
    with two arguments: the signal number and the current stack frame. *)
Definition deliver (signum : Z) (frame : value) (should_exit : bool)
  : outcome unit * bool :=
  signal_handler [Int signum; frame] should_exit.

(** The global after the given signals, from its initial value [False],
    line 16. *)
Definition flag_after (signals : list (Z * value)) : bool :=
  fold_left (fun flag s => snd (deliver (fst s) (snd s) flag)) signals false.

End Signals.

(* ===================================================================== *)
(** * Concrete documents and environments used in examples *)
(* ===================================================================== *)

Module Fixtures.
Import PyStr Xml Scheduler.

Definition ns : text := T "http://www.mediawiki.org/xml/export-0.10/".

Definition leaf (name : string) (t : option text) : element :=
  Element (qualify (Some ns) name) t [].

(** [<page><title>..</title><revision><text>..</text></revision></page>] *)
Definition page (title body : option text) : element :=
  Element (qualify (Some ns) "page") None
    [leaf "title" title; Element (qualify (Some ns) "revision") None [leaf "text" body]].

Definition root : element := Element (qualify (Some ns) "mediawiki") None [].

(** The events of one page, and of a dump with the given pages. *)
Definition page_events (p : element) : list event :=
  [ (EvStart, p); (EvStart, leaf "title" None); (EvEnd, leaf "title" (etext p));
    (EvEnd, p) ].

Definition dump (pages : list element) : list event :=
  (EvStart, root) :: flat_map page_events pages ++ [(EvEnd, root)].

Definition valid_page (title : string) : element :=
  page (Some (T title)) (Some (T "Some ''wiki'' text.")).

(** A page whose revision text is white space only, and one whose
    [<text/>] element is empty. *)
Definition blank_page : element := page (Some (T "Blank")) (Some (T "  ")).
Definition empty_page : element := page (Some (T "Empty")) None.

(** An environment where nothing fails: no signal, the renderer echoes
    its input, every write succeeds, and the state file holds no JSON. *)
Definition calm : environment :=
  {| signal_at := None;
     strftime := fun _ => T "2024-01-01 00:00:00";
     json_loads := fun _ => None;
     run_pandoc := fun _ c => CompletedProcess 0 (T "# " ++ match c with Some x => x | None => [] end) [];
     makedirs_ok := fun _ => true;
     write_ok := fun _ _ => true |}.

(** The same with another parser or with a signal. *)
Definition with_json (f : text -> option json) : environment :=
  {| signal_at := None; strftime := strftime calm; json_loads := f;
     run_pandoc := run_pandoc calm; makedirs_ok := makedirs_ok calm;
     write_ok := write_ok calm |}.

Definition with_signal (n : nat) : environment :=
  {| signal_at := Some n; strftime := strftime calm; json_loads := json_loads calm;
     run_pandoc := run_pandoc calm; makedirs_ok := makedirs_ok calm;
     write_ok := write_ok calm |}.

Definition args_with (batch resume : Z) : args :=
  {| filename := T "dump.xml"; output := T "data"; format := T "markdown";
     batch_size := batch; resume_from := resume; mem_limit := 100 |}.

Definition well_formed (evs : list event) : source :=
  {| events := evs; malformed := false |}.

(** The checkpoint of a cancelled run: position 40, 38 successes,
    2 failures, status [terminated]. *)
Definition cancelled_checkpoint : Checkpoint.state :=
  {| Checkpoint.position := 40; Checkpoint.success := 38; Checkpoint.failed := 2;
     Checkpoint.last_updated := T "2024-01-01 00:00:00";
     Checkpoint.status := Checkpoint.terminated |}.

End Fixtures.

(* ===================================================================== *)
(** * Notions the properties are stated with *)
(* ===================================================================== *)

Module Spec.
Import PyStr Xml Scheduler.

(** A field as [process_page] looks at it: the element is found and has
    character data. *)
Definition field_text (o : option element) : option text :=
  match o with
  | Some e => etext e
  | None => None
  end.

Definition title_text (ns : option text) (el : element) : option text :=
  field_text (find ns "title" el).
Definition revision_text (ns : option text) (el : element) : option text :=
  field_text (find_path ns "revision" "text" el).

(** The condition in the words of the specification: the field is
    present and non-empty after trimming. *)
Definition nonempty_after_trim (o : option text) : Prop :=
  exists t, o = Some t /\ strip t <> [].

Definition spec_valid (ns : option text) (el : element) : Prop :=
  nonempty_after_trim (title_text ns el) /\ nonempty_after_trim (revision_text ns el).

(** The renderer failed, in the three ways the specification names. *)
Definition renderer_failed (r : run_result) : Prop :=
  match r with
  | CompletedProcess rc out _ => rc <> 0%Z \/ out = []
  | RunTimeout => True
  | RunFailed => False
  end.

(** ** Texts *)

(** No character of [t] is one of [bad]. *)
Definition none_of (bad : text) (t : text) : Prop := Forall (fun c => ~ In c bad) t.

(** Every [|] of [x] has a [g] somewhere after it. *)
Fixpoint guarded (g : ascii) (x : text) : bool :=
  match x with
  | [] => true
  | c :: x' => (negb (Ascii.eqb c "|") || mem g x') && guarded g x'
  end.

(** Text around a link: free of the characters the rules start from.  Text
    of a link: on one line, without a closing bracket. *)
Definition around_link (t : text) : Prop := none_of (T "{<[|" ++ [dquote]) t.
Definition link_text (t : text) : Prop :=
  t <> [] /\ none_of (T "{<]" ++ [dquote; newline]) t.

(** The text starts with a [b]; the text has an [a] immediately followed
    by a [b]. *)
Definition starts_with (b : ascii) (x : text) : bool :=
  match x with
  | d :: _ => Ascii.eqb d b
  | [] => false
  end.

Fixpoint has_pair (a b : ascii) (x : text) : bool :=
  match x with
  | [] => false
  | c :: x' => (Ascii.eqb c a && starts_with b x') || has_pair a b x'
  end.

(** Every conversion and every write succeeds. *)
Definition nothing_fails (E : environment) : Prop :=
  (forall format content,
      exists out err, run_pandoc E format content = CompletedProcess 0 out err
                      /\ out <> [])
  /\ (forall d, makedirs_ok E d = true)
  /\ (forall path content, write_ok E path content = true).

(** The page elements met in a log, those among them that the inner
    loop met and [process_page] made no record of, and the checkpoints
    written. *)
Definition is_page_action (x : action) : bool :=
  match x with
  | Page _ | NextPage _ => true
  | _ => false
  end.

Definition is_dropped (x : action) : bool :=
  match x with
  | NextPage None => true
  | _ => false
  end.

Definition pages_met (log : list action) : nat := length (filter is_page_action log).
Definition dropped (log : list action) : nat := length (filter is_dropped log).

(** The records among the page elements the inner loop met. *)
Definition records_met (pages : list action) : nat :=
  length (filter (fun x => match x with NextPage (Some _) => true | _ => false end)
                 pages).

Fixpoint saves (log : list action) : list Checkpoint.state :=
  match log with
  | [] => []
  | Saved c :: l => c :: saves l
  | _ :: l => saves l
  end.

(** [accounted p s f k log]: replaying [log] from the counters
    [p], [s], [f], with [k] records in the batch being filled, every
    batch dispatched holds the records met since the last one and has a
    result for each, and every checkpoint holds the counters reached. *)
Fixpoint accounted (p s f : Z) (k : nat) (log : list action) : Prop :=
  match log with
  | [] => True
  | Page None :: l => k = 0%nat /\ accounted (p + 1) s (f + 1) 0%nat l
  | Page (Some _) :: l => accounted p s f (S k) l
  | NextPage (Some _) :: l => accounted p s f (S k) l
  | NextPage None :: l => accounted p s f k l
  | Dispatched b rs :: l =>
      length b = k /\ length rs = length b
      /\ accounted (p + Z.of_nat (length b)) (s + sum rs)
           (f + (Z.of_nat (length rs) - sum rs)) 0%nat l
  | Saved c :: l =>
      k = 0%nat /\ Checkpoint.position c = p /\ Checkpoint.success c = s
      /\ Checkpoint.failed c = f /\ accounted p s f 0%nat l
  end%Z.

(** The page elements of a document: the [end] events with the tag
    [{namespace}page], for the namespace read off the first event. *)
Definition page_elements (evs : list event) : nat :=
  match evs with
  | [] => 0
  | first :: rest =>
      length (filter (is_page_end (Some (detect_namespace (tag (snd first))))) rest)
  end.

(** [iterparse] yields the [start] event of the root element first. *)
Definition starts_with_root (evs : list event) : Prop :=
  match evs with
  | [] => True
  | first :: _ => is_start (fst first) = true
  end.

End Spec.

(* ===================================================================== *)
(** * Texts of short descriptions and empty named references *)
(* ===================================================================== *)

Module Pieces.
Import PyStr Re Cleaner Spec.

(** The constructs of a text that holds nothing but short descriptions
    and empty named references, and comments as the rules for these two
    write them. *)
Inductive quote : Type := Double | Single.

Definition quote_char (q : quote) : ascii :=
  match q with Double => dquote | Single => squote end.

Inductive piece : Type :=
| Plain (t : text)
| ShortDescription (d : text)
| EmptyRef (q : quote) (name ws : text)
| Comment (body : text).

Definition render_piece (p : piece) : text :=
  match p with
  | Plain t => t
  | ShortDescription d => T "{{short description|" ++ d ++ T "}}"
  | EmptyRef q name ws =>
      T "<ref name=" ++ [quote_char q] ++ name ++ [quote_char q] ++ T ">"
      ++ ws ++ T "</ref>"
  | Comment body => T "<!--" ++ body ++ T "-->"
  end.

Definition render (ps : list piece) : text := flat_map render_piece ps.

(** Text without the characters that open or close markup. *)
Definition plain (t : text) : Prop := none_of (T "{}<[|" ++ [dquote; squote]) t.

Definition well_formed (p : piece) : Prop :=
  match p with
  | Plain t => plain t
  | ShortDescription d => d <> [] /\ plain d
  | EmptyRef q name ws =>
      name <> [] /\ plain name /\ Forall (fun c => is_space c = true) ws
  | Comment body => plain body
  end.

(** What the short description rule and the two reference rules make of a
    piece. *)
Definition describe (p : piece) : piece :=
  match p with
  | ShortDescription d => Comment (T " Short description: " ++ d ++ T " ")
  | _ => p
  end.

Definition strip_ref (which : quote) (p : piece) : piece :=
  match p with
  | EmptyRef q name ws =>
      match which, q with
      | Double, Double | Single, Single => Comment (T "ref " ++ name)
      | _, _ => p
      end
  | _ => p
  end.

Definition normalize (p : piece) : piece :=
  strip_ref Single (strip_ref Double (describe p)).

(** The piece is no short description. *)
Definition no_description (p : piece) : Prop :=
  match p with ShortDescription _ => False | _ => True end.


(** The two reference patterns as one, by the quote. *)
Definition p_ref (w : quote) : pattern :=
  lit "<ref name="
  ++ [Chr (quote_char w); Open; Plus (any_but (quote_char w)); Close; Chr (quote_char w)]
  ++ lit ">" ++ [Star space] ++ lit "</ref>".

End Pieces.

(* ===================================================================== *)
(** * Notions for the log of a run *)
(* ===================================================================== *)

Module LogSpec.
Import PyStr Xml Scheduler Spec.

(** The batches dispatched in a log, in order, and the records in them. *)
Fixpoint batches (log : list action) : list (list page_record) :=
  match log with
  | [] => []
  | Dispatched b _ :: l => b :: batches l
  | _ :: l => batches l
  end.

Definition dispatched (log : list action) : list page_record := concat (batches log).

(** The records [process_page] makes of the page elements among the
    events, in document order. *)
Fixpoint records (ns : option text) (evs : list event) : list page_record :=
  match evs with
  | [] => []
  | ev :: rest =>
      if is_page_end ns ev then
        match process_page (snd ev) ns with
        | Some d => d :: records ns rest
        | None => records ns rest
        end
      else records ns rest
  end.

(** A log where every batch is followed at once by a checkpoint, and a
    checkpoint that follows no batch ends the log of a cancelled run. *)
Fixpoint well_placed (t : termination) (log : list action) : Prop :=
  match log with
  | [] => True
  | Dispatched _ _ :: l =>
      match l with
      | Saved _ :: l' => well_placed t l'
      | _ => False
      end
  | Saved _ :: l => l = [] /\ t = Cancelled
  | _ :: l => well_placed t l
  end.

(** Statuses that never go back from [terminated]. *)
Fixpoint one_way (l : list Checkpoint.status_value) : Prop :=
  match l with
  | [] => True
  | s :: l' =>
      (s = Checkpoint.terminated -> Forall (fun s' => s' = Checkpoint.terminated) l')
      /\ one_way l'
  end.

(** After a checkpoint with status [terminated] no page element is met
    and no batch dispatched. *)
Fixpoint quiet_after_terminated (log : list action) : Prop :=
  match log with
  | [] => True
  | Saved c :: l =>
      (Checkpoint.status c = Checkpoint.terminated ->
       batches l = [] /\ pages_met l = 0%nat)
      /\ quiet_after_terminated l
  | _ :: l => quiet_after_terminated l
  end.

(** A checkpoint, and an action, with the counters moved by an offset. *)
Definition shift_state (dp ds df : Z) (c : Checkpoint.state) : Checkpoint.state :=
  {| Checkpoint.position := Checkpoint.position c + dp;
     Checkpoint.success := Checkpoint.success c + ds;
     Checkpoint.failed := Checkpoint.failed c + df;
     Checkpoint.last_updated := Checkpoint.last_updated c;
     Checkpoint.status := Checkpoint.status c |}%Z.

Definition shift (dp ds df : Z) (x : action) : action :=
  match x with
  | Saved c => Saved (shift_state dp ds df c)
  | _ => x
  end.

(** The loop state with the counters moved by an offset. *)
Definition offset (dp ds df : Z) (st : loop_state) : loop_state :=
  {| processed := processed st + dp; success := success st + ds;
     failed := failed st + df; namespace := namespace st;
     clock := clock st; tmp := tmp st |}%Z.

(** What a worker makes of a record, read off the collaborators: the
    renderer, run on the cleaned text, exits with status 0 and prints
    something, and the directory and the file are written. *)
Definition converts (E : environment) (a : args) (p : page_record) : bool :=
  match run_pandoc E (format a) (Some (Cleaner.clean_wiki_markup (snd p))) with
  | CompletedProcess rc out _ =>
      (rc =? 0)%Z && truthy out && Invoker.save_markdown E (fst p) out (output a)
  | _ => false
  end.

(** The results recorded with a batch are its records' own. *)
Definition own_results (E : environment) (a : args) (x : action) : Prop :=
  match x with
  | Dispatched b rs => rs = map (converts E a) b
  | _ => True
  end.

(** The tag carries no namespace. *)
Definition unqualified (ev : event) : Prop := starts_with "{" (tag (snd ev)) = false.

(** The only actions are checkpoints. *)
Definition is_save (x : action) : Prop := exists c, x = Saved c.

(** A loaded dictionary lacks a key, or holds an integer under it. *)
Definition missing (d : list (text * json)) (k : string) : Prop :=
  Checkpoint.lookup (T k) d = None.
Definition integer (d : list (text * json)) (k : string) : Prop :=
  exists z, Checkpoint.lookup (T k) d = Some (JInt z).

(** A text with no white space at either end. *)
Definition trimmed (t : text) : Prop :=
  match t with
  | [] => True
  | c :: _ => is_space c = false /\ is_space (last t c) = false
  end.

(** A parser that finds the checkpoint of a cancelled run in every state
    file that is not empty. *)
Definition finds_checkpoint : environment :=
  Fixtures.with_json
    (fun content =>
       match content with
       | [] => None
       | _ => Some (Checkpoint.to_json Fixtures.cancelled_checkpoint)
       end).

(** A parser that finds the given value in every state file. *)
Definition always_loads (v : json) : environment := Fixtures.with_json (fun _ => Some v).

(** Three pages with records in a dump, and the events of a document
    whose tags carry no namespace. *)
Definition three_pages : list event :=
  Fixtures.dump [Fixtures.valid_page "A"; Fixtures.valid_page "B"; Fixtures.valid_page "C"].

Definition bare_events : list event :=
  [ (EvStart, Element (T "mediawiki") None []);
    (EvStart, Element (T "page") None []);
    (EvEnd, Element (T "page") None [Element (T "title") (Some (T "A")) []]);
    (EvEnd, Element (T "mediawiki") None []) ].

End LogSpec.

(* ===================================================================== *)
(** * Texts the rules of the cleaner are stated on *)
(* ===================================================================== *)

Module RuleSpec.
Import PyStr Spec.

(** Text as a table has it: braces and pipes, but no template, no angle
    or square bracket and no double quote. *)
Definition table_text (t : text) : Prop :=
  none_of (T "<[" ++ [dquote]) t /\ has_pair "{" "{" t = false.

(** What stands between the braces of a template: not empty and free of
    braces, brackets and double quotes. *)
Definition inside_braces (b : text) : Prop :=
  b <> [] /\ none_of (T "{}<[" ++ [dquote]) b.

(** [b] is [prefix] followed by something. *)
Definition begins (prefix : string) (b : text) : Prop :=
  exists rest, rest <> [] /\ b = T prefix ++ rest.

(** The first line of a link that is broken over lines. *)
Definition link_line (t : text) : Prop :=
  none_of (T "{<[]|" ++ [dquote; newline]) t.

(** The value of an attribute: not empty and free of markup. *)
Definition attribute_value (v : text) : Prop := v <> [] /\ Pieces.plain v.

(** The three malformed constructs of a spreadsheet export that the first,
    third and fourth rule look for, and what the rules write instead. *)
Definition broken_table_start (v : text) : text :=
  T "{| class=" ++ [dquote] ++ T "wikitable sortable mw-collapsible" ++ [dquote]
  ++ T " ; text-align:" ++ v ++ [dquote].
Definition fixed_table_start (v : text) : text :=
  T "{| class=" ++ [dquote] ++ T "wikitable sortable mw-collapsible" ++ [dquote]
  ++ T " style=" ++ [dquote] ++ T "text-align:" ++ v ++ [dquote].

Definition broken_cell_style : text :=
  T "| style=" ++ [dquote] ++ T "vertical-align: top; |".
Definition fixed_cell_style : text :=
  T "| style=" ++ [dquote] ++ T "vertical-align: top;" ++ [dquote] ++ T " |".

Definition broken_sheets_value (v : text) : text :=
  T "data-sheets-value=" ++ [dquote] ++ T "{" ++ [dquote] ++ T "1" ++ [dquote]
  ++ T ":2," ++ [dquote] ++ T "2" ++ [dquote] ++ T ":" ++ [dquote] ++ v ++ [dquote]
  ++ T "}" ++ [dquote].
Definition fixed_sheets_value (v : text) : text :=
  T "data-sheets-value=" ++ [dquote] ++ v ++ [dquote].

End RuleSpec.

(* ===================================================================== *)
(** * Properties of the stream reader *)
(* ===================================================================== *)

Module ReaderFacts.
Import PyStr Xml Scheduler Spec.

Lemma process_page_fields ns el :
  process_page el ns =
  match title_text ns el, revision_text ns el with
  | Some title, Some t => Some (strip title, strip t)
  | _, _ => None
  end.
Proof.
  unfold process_page, title_text, revision_text, field_text.
  destruct (find ns "title" el) as [[? [t1|] ?]|];
    destruct (find_path ns "revision" "text" el) as [[? [t2|] ?]|];
    reflexivity.
Qed.

End ReaderFacts.

Module ReaderClaims.
Import PyStr Xml Scheduler Spec ReaderFacts.

(** C3, as stated, fails: a page whose revision text is white space only
    has both fields present, so [process_page] makes a record of it (with
    an empty text), although the text is empty after trimming. *)
Lemma C3_blank_page_yields_record :
  process_page Fixtures.blank_page (Some Fixtures.ns) = Some (T "Blank", [])
  /\ ~ spec_valid (Some Fixtures.ns) Fixtures.blank_page.
Proof.
  split.
  - vm_compute. reflexivity.
  - intros [_ [t [Ht Hne]]].
    vm_compute in Ht. inversion Ht; subst t.
    apply Hne. vm_compute. reflexivity.
Qed.

(** C3, amended: [process_page] yields a record exactly when the title
    element and the revision text element are both found and both carry
    character data; the record holds the two trimmed texts.  In
    particular a page whose two fields are non-empty after trimming
    yields a record.  A page element without a record that the [for] loop
    of [main] meets is logged as such, and the run goes on with [failed]
    and [processed] each one higher. *)
Theorem C3_record_iff_fields_present (ns : option text) (el : element) :
  (forall r,
      process_page el ns = Some r <->
      exists title t,
        title_text ns el = Some title /\ revision_text ns el = Some t
        /\ r = (strip title, strip t))
  /\ (spec_valid ns el -> exists r, process_page el ns = Some r)
  /\ (forall E a malformed rest st,
         namespace st = ns ->
         should_exit E (clock st) = false ->
         is_page_end ns (EvEnd, el) = true ->
         process_page el ns = None ->
         main_loop E a malformed ((EvEnd, el) :: rest) st =
         prepend [Page None]
           (main_loop E a malformed rest
              {| processed := processed st + 1; success := success st;
                 failed := failed st + 1; namespace := namespace st;
                 clock := S (clock st); tmp := tmp st |})).
Proof.
  split; [|split].
  - intros r. rewrite process_page_fields.
    destruct (title_text ns el) as [title|]; destruct (revision_text ns el) as [t|];
      split; intros H;
      try discriminate;
      try (destruct H as (x & y & Hx & Hy & _); discriminate).
    + inversion H; subst. exists title, t. auto.
    + destruct H as (x & y & Hx & Hy & Hr). inversion Hx; inversion Hy; subst. reflexivity.
  - unfold spec_valid, nonempty_after_trim.
    intros [[title [Ht _]] [t [Hx _]]].
    rewrite process_page_fields, Ht, Hx. eauto.
  - intros E a malformed rest st Hns Hflag Hpage Hnone.
    rewrite main_loop_equation_2.
    rewrite Hflag, Hns. simpl fst; simpl snd. simpl is_start. simpl andb.
    rewrite Hpage, Hnone. reflexivity.
Qed.

(** The amended statement at a page with an empty [<text/>] element. *)
Lemma C3_record_iff_fields_present_witness :
  process_page Fixtures.empty_page (Some Fixtures.ns) = None
  /\ main_loop Fixtures.calm (Fixtures.args_with 2 0) false
       [(EvEnd, Fixtures.empty_page)]
       {| processed := 0; success := 0; failed := 0;
          namespace := Some Fixtures.ns; clock := 1; tmp := [] |}
     = ([Page None], Completed)
  /\ exists r, process_page (Fixtures.valid_page "A") (Some Fixtures.ns) = Some r.
Proof.
  pose proof (C3_record_iff_fields_present (Some Fixtures.ns) Fixtures.empty_page)
    as (_ & _ & Hloop).
  pose proof (C3_record_iff_fields_present (Some Fixtures.ns) (Fixtures.valid_page "A"))
    as (_ & Hvalid & _).
  split; [reflexivity|split].
  - rewrite (Hloop Fixtures.calm (Fixtures.args_with 2 0) false []
               {| processed := 0; success := 0; failed := 0;
                  namespace := Some Fixtures.ns; clock := 1; tmp := [] |}
               eq_refl eq_refl eq_refl eq_refl).
    reflexivity.
  - apply Hvalid. split.
    + exists (T "A"). split; [reflexivity|]. vm_compute. discriminate.
    + exists (T "Some ''wiki'' text."). split; [reflexivity|]. vm_compute. discriminate.
Defined.

End ReaderClaims.

(* ===================================================================== *)
(** * Properties of the checkpoint manager *)
(* ===================================================================== *)

Module CheckpointClaims.
Import Scheduler.

Lemma truthy_of_lookup key d v :
  Checkpoint.lookup key d = Some v -> Checkpoint.truthy (JDict d) = true.
Proof. destruct d; [discriminate | reflexivity]. Qed.





End CheckpointClaims.

(* ===================================================================== *)
(** * Properties of the conversion invoker *)
(* ===================================================================== *)

Module InvokerClaims.
Import PyStr Invoker Spec.

Lemma max_names_bound (fs : tmpfs) (n : nat) :
  In n (names fs) -> n <= fold_right Nat.max 0 (names fs).
Proof.
  unfold names. induction fs as [|[m c] fs IH]; simpl; [tauto|].
  intros [->|H]; [lia | specialize (IH H); lia].
Qed.

Lemma fresh_is_new (fs : tmpfs) : ~ In (fresh fs) (names fs).
Proof. intros H. apply max_names_bound in H. unfold fresh in H. lia. Qed.

Lemma remove_absent (n : nat) (fs : tmpfs) :
  ~ In n (names fs) -> remove_file n fs = fs.
Proof.
  unfold remove_file, names. induction fs as [|[m c] fs IH]; simpl; [reflexivity|].
  intros H. destruct (Nat.eqb_spec m n) as [->|Hne]; simpl.
  - exfalso. apply H. left. reflexivity.
  - f_equal. apply IH. intros Hin. apply H. right. exact Hin.
Qed.

(** What [unlink] in the [finally] clause does to the directory right
    after the temporary file was made. *)
Lemma unlink_fresh (content : text) (fs : tmpfs) :
  unlink (fresh fs) ((fresh fs, content) :: fs) = (Ret tt, fs).
Proof.
  unfold unlink, exists_file, remove_file. simpl.
  rewrite Nat.eqb_refl. simpl.
  fold (remove_file (fresh fs) fs). rewrite remove_absent by apply fresh_is_new.
  reflexivity.
Qed.

(** [convert_to_markdown], case by case on what the renderer does. *)
Lemma convert_to_markdown_cases (E : environment) (t format : text) (fs : tmpfs) :
  convert_to_markdown E t format fs =
  (match run_pandoc E format (Some t) with
   | CompletedProcess rc out _ => if (rc =? 0)%Z then Ret (Some out) else Ret None
   | RunTimeout => Ret None
   | RunFailed => Raise OSError
   end, fs).
Proof.
  unfold convert_to_markdown, bind, named_temporary_file, try_finally, try_except,
    subprocess_run, read_file.
  simpl. rewrite Nat.eqb_refl. simpl.
  destruct (run_pandoc E format (Some t)) as [rc out err| |]; simpl.
  - destruct (rc =? 0)%Z; simpl; rewrite unlink_fresh; reflexivity.
  - rewrite unlink_fresh; reflexivity.
  - rewrite unlink_fresh; reflexivity.
Qed.


End InvokerClaims.

(* ===================================================================== *)
(** * Properties of the batch scheduler *)
(* ===================================================================== *)

Module SchedulerFacts.
Import PyStr Xml Scheduler Spec.
Open Scope Z_scope.

(** ** The worker pool *)

Lemma pool_starmap_length E a batch fs :
  length (fst (pool_starmap E a batch fs)) = length batch.
Proof.
  revert fs. induction batch as [|p batch IH]; intros fs; simpl; [reflexivity|].
  destruct (Invoker.process_single_page E (fst p) (snd p) (output a) (format a) fs)
    as [r fs1].
  specialize (IH fs1). destruct (pool_starmap E a batch fs1) as [rs fs2].
  simpl in *. f_equal. exact IH.
Qed.

Lemma sum_bounds (rs : list bool) : 0 <= sum rs <= Z.of_nat (length rs).
Proof.
  unfold sum. induction rs as [|[|] rs IH]; simpl length; lia.
Qed.

(** ** The inner loop *)

Lemma fill_batch_accounted a ns evs :
  forall batch p s f k l,
    accounted p s f (k + records_met (fb_pages (fill_batch a ns batch evs))) l ->
    accounted p s f k (fb_pages (fill_batch a ns batch evs) ++ l).
Proof.
  induction evs as [|ev evs IH]; intros batch p s f k l; simpl.
  - destruct (Z.of_nat (length batch) <? batch_size a); simpl;
      rewrite Nat.add_0_r; auto.
  - destruct (Z.of_nat (length batch) <? batch_size a); simpl;
      [|rewrite Nat.add_0_r; auto].
    destruct (is_page_end ns ev); [|apply IH].
    simpl. destruct (process_page (snd ev) ns) as [d|]; simpl.
    + unfold records_met. simpl. fold (records_met (fb_pages (fill_batch a ns (batch ++ [d]) evs))).
      intros H. apply IH. replace (S k + _)%nat with
        (k + S (records_met (fb_pages (fill_batch a ns (batch ++ [d]) evs))))%nat by lia.
      exact H.
    + unfold records_met. simpl. apply IH.
Qed.

Lemma fill_batch_length a ns evs :
  forall batch,
    length (fb_batch (fill_batch a ns batch evs))
    = (length batch + records_met (fb_pages (fill_batch a ns batch evs)))%nat.
Proof.
  induction evs as [|ev evs IH]; intros batch; simpl.
  - destruct (Z.of_nat (length batch) <? batch_size a); simpl; unfold records_met; simpl; lia.
  - destruct (Z.of_nat (length batch) <? batch_size a); simpl;
      [|unfold records_met; simpl; lia].
    destruct (is_page_end ns ev); [|apply IH].
    simpl. destruct (process_page (snd ev) ns) as [d|]; simpl.
    + rewrite IH. rewrite length_app. unfold records_met. simpl. lia.
    + rewrite IH. unfold records_met. simpl. lia.
Qed.

(** ** The log of a run replays to its checkpoints *)

Lemma main_loop_accounted E a malformed evs st :
  accounted (processed st) (success st) (failed st) 0
    (fst (main_loop E a malformed evs st)).
Proof.
  apply (main_loop_elim E a
           (fun m evs st r =>
              accounted (processed st) (success st) (failed st) 0 (fst r))).
  - intros. simpl. exact I.
  - clear. intros m ev rest st IHns IHbatch IHnone IHskip.
    destruct (should_exit E (clock st)).
    { simpl. auto. }
    destruct (is_start (fst ev) && is_none (namespace st)); [exact IHns|].
    destruct (is_page_end (namespace st) ev); [|exact IHskip].
    destruct (process_page (snd ev) (namespace st)) as [d|].
    + specialize (IHbatch d). cbv zeta in *.
      set (f := fill_batch a (namespace st) [d] rest) in *.
      pose proof (fill_batch_length a (namespace st) rest [d]) as Hlen.
      fold f in Hlen. change (length [d]) with 1%nat in Hlen.
      destruct (fb_exhausted f && m).
      * unfold fst. change (accounted (processed st) (success st) (failed st) 1
                              (fb_pages f)).
        rewrite <- (app_nil_r (fb_pages f)).
        apply fill_batch_accounted. exact I.
      * unfold prepend. unfold fst at 1.
        change (accounted (processed st) (success st) (failed st) 1
                  ((fb_pages f ++
                    [Dispatched (fb_batch f) (fst (pool_starmap E a (fb_batch f) (tmp st)));
                     Saved (Checkpoint.save_state E
                              (processed st + Z.of_nat (length (fb_batch f)))
                              (success st + sum (fst (pool_starmap E a (fb_batch f) (tmp st))))
                              (failed st +
                               (Z.of_nat (length (fst (pool_starmap E a (fb_batch f) (tmp st))))
                                - sum (fst (pool_starmap E a (fb_batch f) (tmp st)))))
                              (S (clock st)))]) ++
                   fst (main_loop E a m (fb_rest f)
                          {| processed := processed st + Z.of_nat (length (fb_batch f));
                             success := success st + sum (fst (pool_starmap E a (fb_batch f) (tmp st)));
                             failed := failed st +
                               (Z.of_nat (length (fst (pool_starmap E a (fb_batch f) (tmp st))))
                                - sum (fst (pool_starmap E a (fb_batch f) (tmp st))));
                             namespace := namespace st; clock := S (S (clock st));
                             tmp := snd (pool_starmap E a (fb_batch f) (tmp st)) |}))).
        rewrite <- app_assoc.
        apply fill_batch_accounted. cbn [app accounted].
        split; [exact Hlen|]. split; [apply pool_starmap_length|].
        split; [reflexivity|]. split; [reflexivity|]. split; [reflexivity|].
        split; [reflexivity|]. exact IHbatch.
    + unfold prepend. unfold fst at 1. cbn [app accounted].
      split; [reflexivity | exact IHnone].
Qed.

(** ** What a log that replays says about its checkpoints *)

Lemma dropped_le_pages_met (log : list action) : (dropped log <= pages_met log)%nat.
Proof.
  unfold dropped, pages_met.
  induction log as [|[[r|]|[r|]|b rs|c] log IH]; simpl; lia.
Qed.

Lemma pages_met_app (l1 l2 : list action) :
  pages_met (l1 ++ l2) = (pages_met l1 + pages_met l2)%nat.
Proof. unfold pages_met. rewrite filter_app, length_app. reflexivity. Qed.

Lemma accounted_at_save (pre : list action) :
  forall p s f k c post,
    accounted p s f k (pre ++ Saved c :: post) ->
    (Checkpoint.success c + Checkpoint.failed c) - (s + f) = Checkpoint.position c - p
    /\ Z.of_nat k + Z.of_nat (pages_met pre)
       = (Checkpoint.position c - p) + Z.of_nat (dropped pre).
Proof.
  unfold pages_met, dropped.
  induction pre as [|x pre IH]; intros p s f k c post H.
  - cbn [app accounted] in H. destruct H as (-> & Hp & Hs & Hf & _).
    cbn. lia.
  - destruct x as [[r|]|[r|]|b rs|c']; cbn [app accounted] in H.
    + apply IH in H. cbn [filter is_page_action is_dropped length]. lia.
    + destruct H as (-> & H). apply IH in H.
      cbn [filter is_page_action is_dropped length]. lia.
    + apply IH in H. cbn [filter is_page_action is_dropped length]. lia.
    + apply IH in H. cbn [filter is_page_action is_dropped length]. lia.
    + destruct H as (Hb & Hrs & H). apply IH in H.
      cbn [filter is_page_action is_dropped length]. lia.
    + destruct H as (-> & _ & _ & _ & H). apply IH in H.
      cbn [filter is_page_action is_dropped length]. lia.
Qed.

Lemma accounted_after_save (pre : list action) :
  forall p s f k c post,
    accounted p s f k (pre ++ Saved c :: post) ->
    accounted (Checkpoint.position c) (Checkpoint.success c) (Checkpoint.failed c)
      0 post.
Proof.
  induction pre as [|x pre IH]; intros p s f k c post H.
  - cbn [app accounted] in H. destruct H as (_ & -> & -> & -> & H). exact H.
  - destruct x as [[r|]|[r|]|b rs|c']; cbn [app accounted] in H.
    + eapply IH; exact H.
    + destruct H as (_ & H). eapply IH; exact H.
    + eapply IH; exact H.
    + eapply IH; exact H.
    + destruct H as (_ & _ & H). eapply IH; exact H.
    + destruct H as (_ & _ & _ & _ & H). eapply IH; exact H.
Qed.

(** ** The page elements met are page elements of the document *)

Lemma fill_batch_pages_bound a ns evs :
  forall batch,
    (pages_met (fb_pages (fill_batch a ns batch evs))
     + length (filter (is_page_end ns) (fb_rest (fill_batch a ns batch evs)))
     <= length (filter (is_page_end ns) evs))%nat.
Proof.
  unfold pages_met.
  induction evs as [|ev evs IH]; intros batch; cbn [fill_batch].
  - destruct (Z.of_nat (length batch) <? batch_size a); cbn; lia.
  - destruct (Z.of_nat (length batch) <? batch_size a); [|cbn; lia].
    cbn [filter]. destruct (is_page_end ns ev).
    + cbn [fb_pages fb_rest filter is_page_action length].
      specialize (IH (match process_page (snd ev) ns with
                      | Some d => batch ++ [d]
                      | None => batch
                      end)). lia.
    + apply IH.
Qed.

Lemma main_loop_pages_bound E a malformed evs st :
  is_none (namespace st) = false ->
  (pages_met (fst (main_loop E a malformed evs st))
   <= length (filter (is_page_end (namespace st)) evs))%nat.
Proof.
  apply (main_loop_elim E a
           (fun m evs st r =>
              is_none (namespace st) = false ->
              (pages_met (fst r)
               <= length (filter (is_page_end (namespace st)) evs))%nat)).
  - intros. cbn. lia.
  - clear. intros m ev rest st IHns IHbatch IHnone IHskip Hns.
    destruct (should_exit E (clock st)); [cbn; lia|].
    rewrite Hns, andb_false_r.
    cbn [filter]. destruct (is_page_end (namespace st) ev).
    + destruct (process_page (snd ev) (namespace st)) as [d|].
      * specialize (IHbatch d Hns). cbv zeta in *.
        set (f := fill_batch a (namespace st) [d] rest) in *.
        pose proof (fill_batch_pages_bound a (namespace st) rest [d]) as Hf.
        fold f in Hf.
        destruct (fb_exhausted f && m).
        -- unfold fst. change (Page (Some d) :: fb_pages f)
             with ([Page (Some d)] ++ fb_pages f).
           rewrite pages_met_app. cbn [length]. change (pages_met [Page (Some d)]) with 1%nat.
           lia.
        -- unfold prepend. unfold fst at 1.
           change (Page (Some d) :: ?l) with ([Page (Some d)] ++ l).
           rewrite !pages_met_app in *.
           change (pages_met [Page (Some d)]) with 1%nat.
           match goal with
           | |- context [pages_met [Dispatched ?b ?r; Saved ?c]] =>
               change (pages_met [Dispatched b r; Saved c]) with 0%nat
           end.
           cbn [length]. cbn [namespace] in IHbatch. lia.
      * specialize (IHnone Hns). unfold prepend. unfold fst at 1.
        rewrite pages_met_app. change (pages_met [Page None]) with 1%nat.
        cbn [length]. cbn [namespace] in IHnone. lia.
    + specialize (IHskip Hns). change (namespace (tick st)) with (namespace st) in IHskip.
      exact IHskip.
Qed.

(** ** Runs without a signal, over events that are no page elements *)

Lemma should_exit_never E t : signal_at E = None -> should_exit E t = false.
Proof. unfold should_exit. intros ->. reflexivity. Qed.

Lemma page_end_not_start ns ev : is_page_end ns ev = true -> is_start (fst ev) = false.
Proof. unfold is_page_end. destruct (fst ev); [discriminate | reflexivity]. Qed.

Lemma main_loop_skip E a m ns :
  signal_at E = None ->
  forall n,
    Forall (fun ev => is_page_end (Some ns) ev = false) n ->
    forall l st,
      namespace st = Some ns ->
      exists k,
        main_loop E a m (n ++ l) st =
        main_loop E a m l
          {| processed := processed st; success := success st; failed := failed st;
             namespace := Some ns; clock := k; tmp := tmp st |}.
Proof.
  intros Hsig n Hn. induction Hn as [|ev n Hev Hn IH]; intros l st Hns.
  - exists (clock st). destruct st; cbn in *. subst. reflexivity.
  - cbn [app]. rewrite main_loop_equation_2.
    rewrite (should_exit_never E _ Hsig), Hns. cbn [is_none]. rewrite andb_false_r.
    rewrite Hev. destruct (IH l (tick st) Hns) as [k Hk]. exists k. exact Hk.
Qed.

Lemma fill_batch_skip a ns n :
  Forall (fun ev => is_page_end ns ev = false) n ->
  forall batch l,
    (Z.of_nat (length batch) <? batch_size a) = true ->
    fill_batch a ns batch (n ++ l) = fill_batch a ns batch l.
Proof.
  intros Hn. induction Hn as [|ev n Hev Hn IH]; intros batch l Hlt; [reflexivity|].
  cbn [app fill_batch]. rewrite Hlt, Hev. apply IH. exact Hlt.
Qed.

Lemma filter_cons_split {A} (f : A -> bool) (l : list A) :
  forall x xs,
    filter f l = x :: xs ->
    exists l1 l2,
      l = l1 ++ x :: l2 /\ Forall (fun y => f y = false) l1
      /\ f x = true /\ filter f l2 = xs.
Proof.
  induction l as [|y l IH]; intros x xs H; [discriminate|].
  cbn [filter] in H. destruct (f y) eqn:Hy.
  - injection H as -> <-. exists [], l. auto.
  - destruct (IH x xs H) as (l1 & l2 & -> & Hl1 & Hx & Hl2).
    exists (y :: l1), l2. auto.
Qed.

Lemma filter_nil_forall {A} (f : A -> bool) (l : list A) :
  filter f l = [] -> Forall (fun y => f y = false) l.
Proof.
  induction l as [|y l IH]; intros H; [constructor|].
  cbn [filter] in H. destruct (f y) eqn:Hy; [discriminate|]. auto.
Qed.

(** ** Workers when the renderer and the file system do not fail *)

Lemma process_single_page_succeeds E title t output_dir format fs :
  nothing_fails E ->
  Invoker.process_single_page E title t output_dir format fs = (true, fs).
Proof.
  intros (Hrun & Hdir & Hwrite).
  unfold Invoker.process_single_page, Invoker.process_single_page_body, Invoker.bind.
  rewrite InvokerClaims.convert_to_markdown_cases.
  destruct (Hrun format (Some (Cleaner.clean_wiki_markup t))) as (out & err & -> & Hout).
  cbn [Z.eqb]. destruct out as [|ch out]; [congruence|].
  cbn [Invoker.truthy_opt PyStr.truthy negb].
  unfold Invoker.save_markdown. rewrite Hdir, Hwrite. reflexivity.
Qed.

Lemma pool_starmap_succeeds E a batch fs :
  nothing_fails E ->
  pool_starmap E a batch fs = (map (fun _ => true) batch, fs).
Proof.
  intros H. induction batch as [|p batch IH]; [reflexivity|].
  cbn [pool_starmap map]. rewrite process_single_page_succeeds by exact H.
  rewrite IH. reflexivity.
Qed.

(** ** One iteration that starts a batch *)

Lemma fill_batch_full a ns batch evs :
  (Z.of_nat (length batch) <? batch_size a) = false ->
  fill_batch a ns batch evs
  = {| fb_batch := batch; fb_pages := []; fb_rest := evs; fb_exhausted := false |}.
Proof. intros H. destruct evs; cbn [fill_batch]; rewrite H; reflexivity. Qed.

Lemma fill_batch_end a ns batch :
  (Z.of_nat (length batch) <? batch_size a) = true ->
  fill_batch a ns batch []
  = {| fb_batch := batch; fb_pages := []; fb_rest := []; fb_exhausted := true |}.
Proof. intros H. cbn [fill_batch]. rewrite H. reflexivity. Qed.

Lemma fill_batch_record a ns batch ev evs d :
  (Z.of_nat (length batch) <? batch_size a) = true ->
  is_page_end ns ev = true ->
  process_page (snd ev) ns = Some d ->
  fill_batch a ns batch (ev :: evs)
  = let f := fill_batch a ns (batch ++ [d]) evs in
    {| fb_batch := fb_batch f; fb_pages := NextPage (Some d) :: fb_pages f;
       fb_rest := fb_rest f; fb_exhausted := fb_exhausted f |}.
Proof. intros H Hp Hd. cbn [fill_batch]. rewrite H, Hp, Hd. reflexivity. Qed.

Lemma main_loop_batch E a m ev rest st d :
  should_exit E (clock st) = false ->
  is_page_end (namespace st) ev = true ->
  process_page (snd ev) (namespace st) = Some d ->
  forall batch pages rest' ex,
    fill_batch a (namespace st) [d] rest
    = {| fb_batch := batch; fb_pages := pages; fb_rest := rest'; fb_exhausted := ex |} ->
    (ex && m) = false ->
    main_loop E a m (ev :: rest) st
    = prepend
        (Page (Some d) :: pages
         ++ [Dispatched batch (fst (pool_starmap E a batch (tmp st)));
             Saved (Checkpoint.save_state E
                      (processed st + Z.of_nat (length batch))
                      (success st + sum (fst (pool_starmap E a batch (tmp st))))
                      (failed st
                       + (Z.of_nat (length (fst (pool_starmap E a batch (tmp st))))
                          - sum (fst (pool_starmap E a batch (tmp st)))))
                      (S (clock st)))])
        (main_loop E a m rest'
           {| processed := processed st + Z.of_nat (length batch);
              success := success st + sum (fst (pool_starmap E a batch (tmp st)));
              failed := failed st
                        + (Z.of_nat (length (fst (pool_starmap E a batch (tmp st))))
                           - sum (fst (pool_starmap E a batch (tmp st))));
              namespace := namespace st; clock := S (S (clock st));
              tmp := snd (pool_starmap E a batch (tmp st)) |}).
Proof.
  intros Hflag Hpage Hd batch pages rest' ex Hf Hex.
  rewrite main_loop_equation_2.
  rewrite Hflag, (page_end_not_start _ _ Hpage), Hpage, Hd.
  cbn [andb]. cbv zeta. rewrite Hf. cbn [fb_batch fb_pages fb_rest fb_exhausted].
  rewrite Hex. reflexivity.
Qed.

End SchedulerFacts.

Module SchedulerClaims.
Import PyStr Xml Scheduler Spec SchedulerFacts.
Open Scope Z_scope.

(** C1, as stated, fails: started with [--resume-from 5] and no
    checkpoint on a document with one page element, the run writes one
    checkpoint, whose position is 6. *)
Lemma C1_position_exceeds_page_elements :
  map Checkpoint.position
    (saves (fst (main Fixtures.calm (Fixtures.args_with 100 5)
                   (Some (Fixtures.well_formed (Fixtures.dump [Fixtures.valid_page "A"])))
                   None)))
  = [6]
  /\ page_elements (Fixtures.dump [Fixtures.valid_page "A"]) = 1%nat.
Proof. split; vm_compute; reflexivity. Qed.

(** C1, amended: let the run start from the counters [p0], [s0], [f0]
    (the loaded checkpoint's, or [--resume-from], 0 and 0).  At every
    checkpoint written, [success + failed] has grown by as much as
    [position] has; that growth is not negative and not more than the
    number of page elements met so far in this run, and it is that number
    when no page element met while filling a batch lacked a record.
    [position] is not below that of any earlier checkpoint, and not above
    [p0] plus the number of page elements of the document. *)
Theorem C1_counters_in_step_with_pages_met
        (E : environment) (a : args) (src : source) (state_file : option text)
        (p0 s0 f0 : Z) (pre : list action) (c : Checkpoint.state) (post : list action) :
  initial_state a (Checkpoint.load_state E (touch state_file)) = Init p0 s0 f0 ->
  fst (main E a (Some src) state_file) = pre ++ Saved c :: post ->
  (Checkpoint.success c + Checkpoint.failed c) - (s0 + f0) = Checkpoint.position c - p0
  /\ 0 <= Checkpoint.position c - p0 <= Z.of_nat (pages_met pre)
  /\ (dropped pre = 0%nat -> Checkpoint.position c - p0 = Z.of_nat (pages_met pre))
  /\ (forall c', In (Saved c') pre -> Checkpoint.position c' <= Checkpoint.position c)
  /\ (starts_with_root (events src) ->
      Checkpoint.position c <= p0 + Z.of_nat (page_elements (events src))).
Proof.
  intros Hinit Hlog. unfold main in Hlog. rewrite Hinit in Hlog.
  set (st0 := {| processed := p0; success := s0; failed := f0;
                 namespace := None; clock := 0; tmp := [] |}) in Hlog.
  pose proof (main_loop_accounted E a (malformed src) (events src) st0) as Hacc.
  rewrite Hlog in Hacc. cbn [st0 processed success failed] in Hacc.
  pose proof (accounted_at_save _ _ _ _ _ _ _ Hacc) as [Hsum Hbal].
  pose proof (dropped_le_pages_met pre) as Hdrop.
  split; [exact Hsum|]. split; [lia|]. split; [lia|]. split.
  - intros c' Hin. apply in_split in Hin. destruct Hin as (l1 & l2 & ->).
    rewrite <- app_assoc in Hacc. cbn [app] in Hacc.
    apply accounted_after_save in Hacc.
    apply accounted_at_save in Hacc. destruct Hacc as [_ Hbal'].
    pose proof (dropped_le_pages_met l2). lia.
  - intros Hroot.
    destruct (events src) as [|first rest] eqn:Hev.
    + rewrite main_loop_equation_1 in Hlog. cbn in Hlog.
      destruct pre; discriminate.
    + cbn [starts_with_root] in Hroot. cbn [page_elements].
      rewrite main_loop_equation_2 in Hlog.
      destruct (should_exit E (clock st0)).
      * cbn [fst] in Hlog.
        destruct pre as [|x pre].
        -- injection Hlog as <-. cbn. lia.
        -- injection Hlog as _ Hnil. destruct pre; discriminate.
      * rewrite Hroot in Hlog. cbn [st0 namespace is_none andb] in Hlog.
        match type of Hlog with
        | fst (main_loop _ _ _ _ ?st) = _ =>
            pose proof (main_loop_pages_bound E a (malformed src) rest st eq_refl) as Hb
        end.
        rewrite Hlog in Hb. rewrite pages_met_app in Hb.
        cbn [namespace] in Hb. lia.
Qed.

(** C1 at the first checkpoint of a run over three valid pages with
    batch size 2. *)
Lemma C1_counters_in_step_with_pages_met_witness :
  let log := fst (main Fixtures.calm (Fixtures.args_with 2 0)
                    (Some (Fixtures.well_formed
                             (Fixtures.dump [Fixtures.valid_page "A";
                                             Fixtures.valid_page "B";
                                             Fixtures.valid_page "C"])))
                    None) in
  0 <= 2 - 0 <= Z.of_nat (pages_met (firstn 3 log)).
Proof.
  intros log.
  refine (proj1 (proj2 (C1_counters_in_step_with_pages_met
                   Fixtures.calm (Fixtures.args_with 2 0)
                   (Fixtures.well_formed
                      (Fixtures.dump [Fixtures.valid_page "A";
                                      Fixtures.valid_page "B";
                                      Fixtures.valid_page "C"]))
                   None 0 0 0 (firstn 3 log)
                   {| Checkpoint.position := 2; Checkpoint.success := 2;
                      Checkpoint.failed := 0;
                      Checkpoint.last_updated := T "2024-01-01 00:00:00";
                      Checkpoint.status := Checkpoint.in_progress |}
                   (skipn 4 log) _ _))).
  - reflexivity.
  - vm_compute. reflexivity.
Defined.

(** C2 fails on the code.  With batch size 2 and the pages valid,
    invalid, valid, the inner loop meets the invalid page while filling
    the batch, and then neither [failed] nor [processed] counts it: the
    one checkpoint has position 2 and no failure, where the claim has 3
    and 1.  The [for] loop, meeting the same page first, does count it. *)
Theorem C2_validation_failure_while_filling_is_not_counted :
  let a := (T "A", T "Some ''wiki'' text.") in
  let c := (T "C", T "Some ''wiki'' text.") in
  fst (main Fixtures.calm (Fixtures.args_with 2 0)
         (Some (Fixtures.well_formed
                  (Fixtures.dump [Fixtures.valid_page "A"; Fixtures.empty_page;
                                  Fixtures.valid_page "C"])))
         None)
  = [ Page (Some a); NextPage None; NextPage (Some c);
      Dispatched [a; c] [true; true];
      Saved {| Checkpoint.position := 2; Checkpoint.success := 2;
               Checkpoint.failed := 0;
               Checkpoint.last_updated := T "2024-01-01 00:00:00";
               Checkpoint.status := Checkpoint.in_progress |} ]
  /\ fst (main Fixtures.calm (Fixtures.args_with 2 0)
            (Some (Fixtures.well_formed
                     (Fixtures.dump [Fixtures.empty_page; Fixtures.valid_page "A";
                                     Fixtures.valid_page "C"])))
            None)
     = [ Page None; Page (Some a); NextPage (Some c);
         Dispatched [a; c] [true; true];
         Saved {| Checkpoint.position := 3; Checkpoint.success := 2;
                  Checkpoint.failed := 1;
                  Checkpoint.last_updated := T "2024-01-01 00:00:00";
                  Checkpoint.status := Checkpoint.in_progress |} ].
Proof. split; vm_compute; reflexivity. Qed.





End SchedulerClaims.

(* ===================================================================== *)
(** * Properties of the regular expression matcher *)
(* ===================================================================== *)

Module ReFacts.
Import PyStr Re Spec.

(** ** Literal runs *)

Lemma match_items_lit (l : text) (r : pattern) (t : text) (pos gs ge : nat) :
  match_items (map Chr l ++ r) (l ++ t) pos gs ge
  = match_items r t (pos + length l) gs ge.
Proof.
  revert pos. induction l as [|c l IH]; intros pos; cbn [map app match_items length].
  - rewrite Nat.add_0_r. reflexivity.
  - rewrite Ascii.eqb_refl, IH. f_equal. lia.
Qed.

Lemma match_here_first_char (a : ascii) (p : pattern) (c : ascii) (t : text) :
  c <> a -> match_here (Chr a :: p) (c :: t) = None.
Proof.
  intros H. unfold match_here. cbn [match_items].
  destruct (Ascii.eqb_spec a c) as [->|_]; [congruence | reflexivity].
Qed.

Lemma match_here_nil (a : ascii) (p : pattern) : match_here (Chr a :: p) [] = None.
Proof. reflexivity. Qed.

(** ** Quantifiers *)

(** A greedy run over [l], all in the class, stopped by a character
    outside it (or by the end), after which the rest of the pattern
    matches. *)
Lemma greedy_run (p : ascii -> bool) (k : text -> nat -> option span) (l : text) :
  Forall (fun c => p c = true) l ->
  forall t pos r,
    match t with c :: _ => p c = false | [] => True end ->
    k t (pos + length l) = Some r ->
    greedy p k (l ++ t) pos = Some r.
Proof.
  intros Hl. induction Hl as [|c l Hc Hl IH]; intros t pos r Ht Hk.
  - cbn [app length] in *. rewrite Nat.add_0_r in Hk.
    destruct t as [|c t]; cbn [greedy]; [exact Hk|]. rewrite Ht. exact Hk.
  - cbn [app greedy]. rewrite Hc.
    rewrite (IH t (S pos) r Ht); [reflexivity|].
    cbn [length] in Hk. replace (S pos + length l) with (pos + S (length l)) by lia.
    exact Hk.
Qed.

(** Where a greedy or lazy quantifier succeeds, it has passed over
    characters of its class and the rest of the pattern matches what is
    left. *)
Lemma greedy_inv (p : ascii -> bool) (k : text -> nat -> option span) (s : text) :
  forall pos r,
    greedy p k s pos = Some r ->
    exists l t, s = l ++ t /\ Forall (fun c => p c = true) l
                /\ k t (pos + length l) = Some r.
Proof.
  induction s as [|c s IH]; intros pos r H; cbn [greedy] in H.
  - exists [], []. cbn. rewrite Nat.add_0_r. auto.
  - destruct (p c) eqn:Hc.
    + destruct (greedy p k s (S pos)) as [r'|] eqn:Hg.
      * injection H as <-. destruct (IH _ _ Hg) as (l & t & -> & Hl & Hk).
        exists (c :: l), t. cbn [app length]. repeat split; auto.
        replace (pos + S (length l)) with (S pos + length l) by lia. exact Hk.
      * exists [], (c :: s). cbn. rewrite Nat.add_0_r. auto.
    + exists [], (c :: s). cbn. rewrite Nat.add_0_r. auto.
Qed.

Lemma lazy_inv (p : ascii -> bool) (k : text -> nat -> option span) (s : text) :
  forall pos r,
    lazy p k s pos = Some r ->
    exists l t, s = l ++ t /\ Forall (fun c => p c = true) l
                /\ k t (pos + length l) = Some r.
Proof.
  induction s as [|c s IH]; intros pos r H; cbn [lazy] in H.
  - destruct (k [] pos) eqn:Hk; [|discriminate]. injection H as <-.
    exists [], []. cbn. rewrite Nat.add_0_r. auto.
  - destruct (k (c :: s) pos) eqn:Hk.
    + injection H as <-. exists [], (c :: s). cbn. rewrite Nat.add_0_r. auto.
    + destruct (p c) eqn:Hc; [|discriminate].
      destruct (IH _ _ H) as (l & t & -> & Hl & Hk').
      exists (c :: l), t. cbn [app length]. repeat split; auto.
      replace (pos + S (length l)) with (S pos + length l) by lia. exact Hk'.
Qed.

(** A lazy run over [l], at no point of which the rest of the pattern
    matches, and after which it does. *)
Lemma lazy_run (p : ascii -> bool) (k : text -> nat -> option span) (l : text) :
  Forall (fun c => p c = true) l ->
  forall t pos r,
    (forall l1 l2 pos', l = l1 ++ l2 -> l2 <> [] -> k (l2 ++ t) pos' = None) ->
    k t (pos + length l) = Some r ->
    lazy p k (l ++ t) pos = Some r.
Proof.
  intros Hl. induction Hl as [|c l Hc Hl IH]; intros t pos r Hno Hk.
  - cbn [app length] in *. rewrite Nat.add_0_r in Hk.
    destruct t; cbn [lazy]; rewrite Hk; reflexivity.
  - cbn [app lazy].
    pose proof (Hno [] (c :: l) pos eq_refl) as Hn. cbn [app] in Hn.
    rewrite Hn by discriminate.
    rewrite Hc. apply IH.
    + intros l1 l2 pos' -> Hne. apply (Hno (c :: l1) l2 pos' eq_refl Hne).
    + cbn [length] in Hk. replace (S pos + length l) with (pos + S (length l)) by lia.
      exact Hk.
Qed.

(** ** What a match needs of the text *)

(** A match passes over a prefix of the text: every literal of the pattern
    occurs in the text. *)
Lemma match_items_needs_char (a : ascii) (its : pattern) :
  In (Chr a) its ->
  forall s pos gs ge r, match_items its s pos gs ge = Some r -> In a s.
Proof.
  induction its as [|i its IH]; intros Hin s pos gs ge r H; [destruct Hin|].
  destruct i as [c|p|p|p| | | ]; cbn [match_items] in H.
  - destruct s as [|c' s]; [discriminate|].
    destruct (Ascii.eqb_spec c c') as [->|Hne]; [|discriminate].
    destruct Hin as [Heq|Hin].
    + injection Heq as ->. left. reflexivity.
    + right. eapply IH; eassumption.
  - destruct Hin as [Heq|Hin]; [discriminate|].
    apply greedy_inv in H. destruct H as (l & t & -> & _ & Hk).
    apply in_or_app. right. eapply IH; eassumption.
  - destruct Hin as [Heq|Hin]; [discriminate|].
    destruct s as [|c s]; [discriminate|]. destruct (p c); [|discriminate].
    apply greedy_inv in H. destruct H as (l & t & -> & _ & Hk).
    right. apply in_or_app. right. eapply IH; eassumption.
  - destruct Hin as [Heq|Hin]; [discriminate|].
    destruct s as [|c s]; [discriminate|]. destruct (p c); [|discriminate].
    apply lazy_inv in H. destruct H as (l & t & -> & _ & Hk).
    right. apply in_or_app. right. eapply IH; eassumption.
  - destruct Hin as [Heq|Hin]; [discriminate|]. eapply IH; eassumption.
  - destruct Hin as [Heq|Hin]; [discriminate|]. eapply IH; eassumption.
  - destruct Hin as [Heq|Hin]; [discriminate|].
    destruct (at_eos s); [|discriminate]. eapply IH; eassumption.
Qed.

Lemma match_here_needs_char (a : ascii) (p : pattern) (s : text) :
  In (Chr a) p -> ~ In a s -> match_here p s = None.
Proof.
  intros Hin Hs. unfold match_here.
  destruct (match_items p s 0 0 0) as [[[e gs] ge]|] eqn:H; [|reflexivity].
  exfalso. apply Hs. eapply match_items_needs_char; eassumption.
Qed.

(** ** [re.sub] *)

Lemma sub_from_skip (p : pattern) (r : replacement) (m t : text) :
  sub_from p r (length m) (m ++ t) = sub_from p r 0 t.
Proof. induction m as [|c m IH]; [reflexivity | exact IH]. Qed.

Lemma sub_from_copy (p : pattern) (r : replacement) (c : ascii) (t : text) :
  match_here p (c :: t) = None ->
  sub_from p r 0 (c :: t) = c :: sub_from p r 0 t.
Proof. intros H. cbn [sub_from]. rewrite H. reflexivity. Qed.

Lemma sub_from_match (p : pattern) (r : replacement) (c : ascii) (m t g : text) :
  match_here p (c :: m ++ t) = Some (S (length m), g) ->
  sub_from p r 0 (c :: m ++ t) = expand r g ++ sub_from p r 0 t.
Proof.
  intros H. cbn [sub_from]. rewrite H. rewrite sub_from_skip. reflexivity.
Qed.

Lemma sub_from_copy_run (a : ascii) (p : pattern) (r : replacement) (s t : text) :
  Forall (fun c => c <> a) s ->
  sub_from (Chr a :: p) r 0 (s ++ t) = s ++ sub_from (Chr a :: p) r 0 t.
Proof.
  intros H. induction H as [|c s Hc Hs IH]; [reflexivity|].
  cbn [app]. rewrite sub_from_copy by (apply match_here_first_char; exact Hc).
  rewrite IH. reflexivity.
Qed.

(** Where no suffix of the text matches, [re.sub] changes nothing. *)
Lemma sub_id (p : pattern) (r : replacement) (x : text) :
  (forall l u, x = l ++ u -> match_here p u = None) ->
  sub p r x = x.
Proof.
  unfold sub. induction x as [|c x IH]; intros H.
  - cbn [sub_from]. rewrite (H [] [] eq_refl). reflexivity.
  - rewrite sub_from_copy by (apply (H [] (c :: x) eq_refl)).
    rewrite IH; [reflexivity|].
    intros l u ->. apply (H (c :: l) u eq_refl).
Qed.

Lemma sub_id_needs_char (a : ascii) (p : pattern) (r : replacement) (x : text) :
  In (Chr a) p -> ~ In a x -> sub p r x = x.
Proof.
  intros Hin Hx. apply sub_id. intros l u ->.
  apply (match_here_needs_char a); [exact Hin|].
  intros Hu. apply Hx. apply in_or_app. right. exact Hu.
Qed.

(** ** Two literals in a row *)

Lemma has_pair_suffix (a b : ascii) (l u : text) :
  has_pair a b (l ++ u) = false -> has_pair a b u = false.
Proof.
  induction l as [|c l IH]; [auto|]. cbn [app has_pair].
  intros H. apply orb_false_elim in H. apply IH. apply H.
Qed.

Lemma has_pair_here (a b : ascii) (l t : text) :
  has_pair a b (l ++ a :: b :: t) = true.
Proof.
  induction l as [|c l IH]; cbn [app has_pair starts_with].
  - rewrite !Ascii.eqb_refl. reflexivity.
  - rewrite IH. apply orb_true_r.
Qed.

Lemma match_items_lit_inv (l : text) (r : pattern) :
  forall s pos gs ge sp,
    match_items (map Chr l ++ r) s pos gs ge = Some sp ->
    exists t, s = l ++ t /\ match_items r t (pos + length l) gs ge = Some sp.
Proof.
  induction l as [|c l IH]; intros s pos gs ge sp H; cbn [map app] in H.
  - exists s. cbn. rewrite Nat.add_0_r. auto.
  - cbn [match_items] in H. destruct s as [|c' s]; [discriminate|].
    destruct (Ascii.eqb_spec c c') as [->|_]; [|discriminate].
    destruct (IH _ _ _ _ _ H) as (t & -> & Ht). exists t. split; [reflexivity|].
    cbn [length]. replace (pos + S (length l)) with (S pos + length l) by lia. exact Ht.
Qed.

Lemma match_here_needs_pair (l : text) (a b : ascii) (r : pattern) (s : text) :
  has_pair a b s = false ->
  match_here (map Chr l ++ Chr a :: Chr b :: r) s = None.
Proof.
  intros Hs. unfold match_here.
  destruct (match_items _ s 0 0 0) as [[[e gs] ge]|] eqn:H; [|reflexivity].
  exfalso.
  change (Chr a :: Chr b :: r) with (map Chr [a; b] ++ r) in H.
  rewrite app_assoc, <- map_app in H.
  apply match_items_lit_inv in H. destruct H as (t & -> & _).
  rewrite <- app_assoc in Hs. cbn [app] in Hs. rewrite has_pair_here in Hs. discriminate.
Qed.

Lemma sub_id_needs_pair (l : text) (a b : ascii) (p' : pattern) (r : replacement)
      (x : text) :
  has_pair a b x = false ->
  sub (map Chr l ++ Chr a :: Chr b :: p') r x = x.
Proof.
  intros Hx. apply sub_id. intros l' u ->.
  apply match_here_needs_pair. eapply has_pair_suffix. exact Hx.
Qed.

(** A pair [a], [b] in [s ++ t] lies in [t] when [s] has no [a], and also
    when [s] has no [b] and [t] does not start with one. *)
Lemma no_pair_app_first (a b : ascii) (s t : text) :
  ~ In a s -> has_pair a b t = false -> has_pair a b (s ++ t) = false.
Proof.
  intros Hs Ht. induction s as [|c s IH]; [exact Ht|].
  cbn [app has_pair]. rewrite IH by (intros H; apply Hs; right; exact H).
  destruct (Ascii.eqb_spec c a) as [->|_]; [exfalso; apply Hs; left; reflexivity|].
  reflexivity.
Qed.

Lemma no_pair_app_second (a b : ascii) (s t : text) :
  ~ In b s -> starts_with b t = false -> has_pair a b t = false ->
  has_pair a b (s ++ t) = false.
Proof.
  intros Hs Hb Ht. induction s as [|c s IH]; [exact Ht|].
  cbn [app has_pair]. rewrite IH by (intros H; apply Hs; right; exact H).
  rewrite orb_false_r. apply andb_false_iff. right.
  destruct s as [|d s]; cbn [app starts_with]; [exact Hb|].
  destruct (Ascii.eqb_spec d b) as [->|_]; [|reflexivity].
  exfalso. apply Hs. right. left. reflexivity.
Qed.

End ReFacts.

(* ===================================================================== *)
(** * Properties of the markup cleaner *)
(* ===================================================================== *)

Module CleanerFacts.
Import PyStr Re Cleaner Spec ReFacts.

Lemma none_of_not_in (bad t : text) (a : ascii) :
  none_of bad t -> In a bad -> ~ In a t.
Proof.
  intros H Ha Hin. unfold none_of in H. rewrite Forall_forall in H.
  exact (H a Hin Ha).
Qed.

Lemma none_of_neq (bad t : text) (a : ascii) :
  none_of bad t -> In a bad -> Forall (fun c => c <> a) t.
Proof.
  intros H Ha. unfold none_of in H. eapply Forall_impl; [|exact H].
  intros c Hc ->. exact (Hc Ha).
Qed.

Lemma mem_false_iff (a : ascii) (t : text) : mem a t = false <-> ~ In a t.
Proof.
  unfold mem. induction t as [|c t IH]; cbn [existsb In]; [tauto|].
  rewrite orb_false_iff, IH. destruct (Ascii.eqb_spec a c); split; intuition congruence.
Qed.

Lemma mem_true_iff (a : ascii) (t : text) : mem a t = true <-> In a t.
Proof.
  destruct (mem a t) eqn:H.
  - split; [|auto]. intros _. unfold mem in H. apply existsb_exists in H.
    destruct H as (c & Hc & Heq). apply Ascii.eqb_eq in Heq. subst. exact Hc.
  - apply mem_false_iff in H. split; [discriminate | contradiction].
Qed.

(** ** [process_wikilink] *)

Lemma split_once_at (c : ascii) (a b : text) :
  ~ In c a -> split_once c (a ++ c :: b) = (a, b).
Proof.
  induction a as [|x a IH]; intros H; cbn [app split_once].
  - rewrite Ascii.eqb_refl. reflexivity.
  - destruct (Ascii.eqb_spec x c) as [->|_]; [exfalso; apply H; left; reflexivity|].
    rewrite IH; [reflexivity|]. intros Hin. apply H. right. exact Hin.
Qed.

Lemma process_wikilink_piped (target label : text) :
  ~ In "|"%char target ->
  process_wikilink (target ++ T "|" ++ label)
  = T "[" ++ label ++ T "](/" ++ replace " " "_" target ++ T ")".
Proof.
  intros H. unfold process_wikilink.
  replace (mem "|" (target ++ T "|" ++ label)) with true.
  - change (T "|" ++ label) with ("|"%char :: label).
    rewrite split_once_at by exact H. reflexivity.
  - symmetry. apply mem_true_iff. apply in_or_app. right. left. reflexivity.
Qed.

Lemma process_wikilink_plain (link : text) :
  ~ In "|"%char link ->
  process_wikilink link = T "[" ++ link ++ T "](/" ++ replace " " "_" link ++ T ")".
Proof.
  intros H. unfold process_wikilink.
  apply mem_false_iff in H. rewrite H. reflexivity.
Qed.

(** ** The row rule *)

Lemma match_here_row_inv (s : text) (m : nat * text) :
  match_here p_row s = Some m ->
  exists ws, s = T "|-" ++ ws /\ Forall (fun c => is_space c = true) ws.
Proof.
  unfold match_here.
  destruct (match_items p_row s 0 0 0) as [sp|] eqn:H; [|discriminate]. intros _.
  change p_row with (map Chr (T "|-") ++ [Star space; Eos]) in H.
  apply match_items_lit_inv in H. destruct H as (t & -> & H).
  cbn [match_items] in H. apply greedy_inv in H.
  destruct H as (l & t' & -> & Hl & H).
  exists (l ++ t'). split; [reflexivity|].
  apply Forall_app. split; [exact Hl|].
  destruct t' as [|c [|c' t']]; cbn [at_eos] in H.
  - constructor.
  - destruct (Ascii.eqb_spec c newline) as [->|_]; [|discriminate].
    constructor; [reflexivity | constructor].
  - discriminate.
Qed.

Lemma guarded_suffix (g : ascii) (l u : text) :
  guarded g (l ++ u) = true -> guarded g u = true.
Proof.
  induction l as [|c l IH]; [auto|]. cbn [app guarded].
  intros H. apply andb_true_iff in H. apply IH. apply H.
Qed.

Lemma sub_row_id (g : ascii) (x : text) :
  is_space g = false -> g <> "-"%char ->
  guarded g x = true ->
  sub p_row r_row x = x.
Proof.
  intros Hsp Hdash Hx. apply sub_id. intros l u ->.
  apply guarded_suffix in Hx.
  destruct (match_here p_row u) as [m|] eqn:Hm; [|reflexivity].
  exfalso. apply match_here_row_inv in Hm. destruct Hm as (ws & -> & Hws).
  cbn [T list_ascii_of_string app guarded] in Hx.
  apply andb_true_iff in Hx. destruct Hx as [Hx _].
  cbn [Ascii.eqb negb orb] in Hx.
  change (Ascii.eqb "|" "|") with true in Hx. cbn [negb orb] in Hx.
  apply mem_true_iff in Hx. destruct Hx as [Hx|Hx]; [congruence|].
  rewrite Forall_forall in Hws. specialize (Hws g Hx). congruence.
Qed.

Lemma guarded_no_pipe (g : ascii) (s t : text) :
  Forall (fun c => c <> "|"%char) s ->
  guarded g t = true -> guarded g (s ++ t) = true.
Proof.
  intros Hs Ht. induction Hs as [|c s Hc Hs IH]; [exact Ht|].
  cbn [app guarded]. rewrite IH.
  destruct (Ascii.eqb_spec c "|"); [contradiction | reflexivity].
Qed.

Lemma guarded_before (g : ascii) (s t : text) :
  In g t -> guarded g t = true -> guarded g (s ++ t) = true.
Proof.
  intros Hg Ht. induction s as [|c s IH]; [exact Ht|].
  cbn [app guarded]. rewrite IH.
  replace (mem g (s ++ t)) with true; [rewrite orb_true_r; reflexivity|].
  symmetry. apply mem_true_iff. apply in_or_app. right. exact Hg.
Qed.

Lemma firstn_exact {A} (l t : list A) : firstn (length l) (l ++ t) = l.
Proof. induction l as [|x l IH]; cbn; [destruct t; reflexivity | rewrite IH; reflexivity]. Qed.

(** ** The link rule at a link *)

Lemma match_here_wikilink (link post : text) :
  link_text link ->
  match_here p_wikilink (T "[[" ++ link ++ T "]]" ++ post)
  = Some (length link + 4, link).
Proof.
  intros [Hne Hlink].
  destruct link as [|c l]; [congruence|].
  assert (Hdot : Forall (fun x => dot x = true) (c :: l)).
  { eapply Forall_impl; [|exact Hlink]. intros x Hx. unfold dot, any_but.
    destruct (Ascii.eqb_spec x newline) as [->|_]; [|reflexivity].
    exfalso. apply Hx. cbn. tauto. }
  assert (Hbr : Forall (fun x => x <> "]"%char) (c :: l)).
  { apply (none_of_neq _ _ _ Hlink). cbn. tauto. }
  inversion Hdot as [|? ? Hc Hl]; subst.
  unfold match_here.
  change p_wikilink
    with (map Chr (T "[[") ++ [Open; PlusLazy dot; Close; Chr "]"; Chr "]"]).
  rewrite match_items_lit. cbn [match_items app length Nat.add T list_ascii_of_string].
  rewrite Hc.
  rewrite (lazy_run dot _ l Hl (T "]]" ++ post) 3 (length l + 5, 2, 3 + length l)).
  - f_equal. f_equal; [lia|].
    replace (3 + length l - 2) with (length (c :: l)) by (cbn [length]; lia).
    cbn [skipn T list_ascii_of_string app].
    apply (firstn_exact (c :: l) ("]"%char :: "]"%char :: post)).
  - intros l1 l2 pos' -> Hl2. destruct l2 as [|y l2]; [congruence|].
    cbn [app match_items].
    assert (Hy : y <> "]"%char).
    { inversion Hbr as [|? ? _ Hbr']; subst. rewrite Forall_app in Hbr'.
      destruct Hbr' as [_ Hbr']. inversion Hbr'; assumption. }
    destruct (Ascii.eqb_spec "]" y) as [<-|_]; [congruence | reflexivity].
  - cbn [T list_ascii_of_string app match_items].
    change (Ascii.eqb "]" "]") with true. cbn iota. f_equal. f_equal. f_equal. lia.
Qed.

Ltac in_pattern :=
  unfold p_table, p_row, p_valign, p_sheets, p_short_description, p_use, p_ref_dq,
    p_ref_sq, p_template, p_wikilink, lit;
  cbn [T list_ascii_of_string map app In];
  repeat (first [left; reflexivity | right]).

(** ** The cleaner on a text with one link *)

Lemma clean_one_link (pre link post : text) :
  around_link pre -> link_text link -> around_link post ->
  clean_wiki_markup (pre ++ T "[[" ++ link ++ T "]]" ++ post)
  = pre ++ process_wikilink link ++ post.
Proof.
  intros Hpre Hlink Hpost.
  set (x := pre ++ T "[[" ++ link ++ T "]]" ++ post).
  assert (Hnot : forall a, In a (T "{<" ++ [dquote]) -> ~ In a x).
  { intros a Ha Hin. unfold x in Hin.
    apply in_app_or in Hin. destruct Hin as [Hin|Hin].
    { revert Hin. apply (none_of_not_in _ _ _ Hpre). cbn in *. tauto. }
    apply in_app_or in Hin. destruct Hin as [Hin|Hin].
    { cbn in Ha, Hin. destruct Ha as [<-|[<-|[<-|[]]]];
        destruct Hin as [H|[H|[]]]; discriminate H. }
    apply in_app_or in Hin. destruct Hin as [Hin|Hin].
    { revert Hin. apply (none_of_not_in _ _ _ (proj2 Hlink)). cbn in *. tauto. }
    apply in_app_or in Hin. destruct Hin as [Hin|Hin].
    { cbn in Ha, Hin. destruct Ha as [<-|[<-|[<-|[]]]];
        destruct Hin as [H|[H|[]]]; discriminate H. }
    revert Hin. apply (none_of_not_in _ _ _ Hpost). cbn in *. tauto. }
  assert (Hrow : sub p_row r_row x = x).
  { apply (sub_row_id "]"); [reflexivity | discriminate |].
    unfold x. rewrite !app_assoc. rewrite <- (app_assoc _ (T "]]") post).
    apply guarded_before; [left; reflexivity|].
    cbn [T list_ascii_of_string app guarded]. cbn [Ascii.eqb]. 
    change (guarded "]" ("]"%char :: "]"%char :: post))
      with ((true && (true && guarded "]" post))%bool).
    cbn [andb]. rewrite <- (app_nil_r post).
    apply guarded_no_pipe; [|reflexivity].
    apply (none_of_neq _ _ _ Hpost). cbn. tauto. }
  assert (Hbrace : ~ In "{"%char x) by (apply Hnot; cbn; tauto).
  assert (Hangle : ~ In "<"%char x) by (apply Hnot; cbn; tauto).
  assert (Hquote : ~ In dquote x) by (apply Hnot; cbn; tauto).
  unfold clean_wiki_markup, patterns. cbn [fold_left fst snd]. fold x.
  rewrite (sub_id_needs_char "{" p_table r_table x) by (in_pattern || exact Hbrace).
  rewrite Hrow.
  rewrite (sub_id_needs_char dquote p_valign r_valign x) by (in_pattern || exact Hquote).
  rewrite (sub_id_needs_char "{" p_sheets r_sheets x) by (in_pattern || exact Hbrace).
  rewrite (sub_id_needs_char "{" p_short_description r_short_description x)
    by (in_pattern || exact Hbrace).
  rewrite (sub_id_needs_char "{" p_use r_use x) by (in_pattern || exact Hbrace).
  rewrite (sub_id_needs_char "<" p_ref_dq r_ref x) by (in_pattern || exact Hangle).
  rewrite (sub_id_needs_char "<" p_ref_sq r_ref x) by (in_pattern || exact Hangle).
  rewrite (sub_id_needs_char "{" p_template r_template x) by (in_pattern || exact Hbrace).
  unfold sub, x.
  change p_wikilink with (Chr "["%char :: List.tl p_wikilink).
  rewrite sub_from_copy_run by (apply (none_of_neq _ _ _ Hpre); cbn; tauto).
  change (Chr "["%char :: List.tl p_wikilink) with p_wikilink.
  f_equal.
  replace (T "[[" ++ link ++ T "]]" ++ post)
    with ("["%char :: ("["%char :: link ++ T "]]") ++ post)
    by (cbn [T list_ascii_of_string app]; rewrite <- app_assoc; reflexivity).
  rewrite (sub_from_match p_wikilink r_wikilink "[" ("["%char :: link ++ T "]]") post link).
  - cbn [expand r_wikilink]. f_equal.
    apply (sub_id_needs_char "[" p_wikilink r_wikilink post); [in_pattern|].
    apply (none_of_not_in _ _ _ Hpost). cbn. tauto.
  - replace ("["%char :: ("["%char :: link ++ T "]]") ++ post)
      with (T "[[" ++ link ++ T "]]" ++ post)
      by (cbn [T list_ascii_of_string app]; rewrite <- app_assoc; reflexivity).
    rewrite (match_here_wikilink link post Hlink). f_equal. f_equal.
    cbn [length]. rewrite length_app. cbn [T list_ascii_of_string length]. lia.
Qed.
End CleanerFacts.

Module PieceFacts.
Import PyStr Re Cleaner Spec Pieces ReFacts CleanerFacts.

Ltac not_literal := cbn; intuition discriminate.

Lemma plain_literal_comment : plain (T " Short description: ") /\ plain (T " ") /\ plain (T "ref ").
Proof. repeat split; repeat constructor; not_literal. Qed.

Lemma plain_app (s t : text) : plain s -> plain t -> plain (s ++ t).
Proof. unfold plain, none_of. intros. apply Forall_app. auto. Qed.

Lemma well_formed_describe p : well_formed p -> well_formed (describe p).
Proof.
  destruct p as [t|d|q n ws|b]; cbn [well_formed describe]; auto.
  intros [_ Hd]. destruct plain_literal_comment as (H1 & H2 & _).
  apply plain_app; [exact H1 | apply plain_app; [exact Hd | exact H2]].
Qed.

Lemma well_formed_strip_ref w p : well_formed p -> well_formed (strip_ref w p).
Proof.
  destruct p as [t|d|q n ws|b]; cbn [well_formed strip_ref]; auto.
  intros (Hne & Hn & Hws). destruct plain_literal_comment as (_ & _ & H3).
  destruct w, q; cbn [well_formed]; auto using plain_app.
Qed.

Lemma well_formed_normalize p : well_formed p -> well_formed (normalize p).
Proof. intros H. unfold normalize. auto using well_formed_describe, well_formed_strip_ref. Qed.

Lemma normalize_normalize p : normalize (normalize p) = normalize p.
Proof. destruct p as [t|d|[|] n ws|b]; reflexivity. Qed.

(** ** Characters of a rendered piece *)

Lemma space_not_markup (c : ascii) :
  is_space c = true -> ~ In c (T "{}<[|" ++ [dquote; squote]).
Proof. intros H Hin. cbn in Hin. intuition (subst; discriminate). Qed.

Lemma spaces_plain (ws : text) : Forall (fun c => is_space c = true) ws -> plain ws.
Proof. intros H. eapply Forall_impl; [|exact H]. apply space_not_markup. Qed.

Lemma not_in_app (a : ascii) (s t : text) : ~ In a s -> ~ In a t -> ~ In a (s ++ t).
Proof. intros Hs Ht H. apply in_app_or in H. tauto. Qed.

Lemma plain_not_in (a : ascii) (t : text) :
  In a (T "{}<[|" ++ [dquote; squote]) -> plain t -> ~ In a t.
Proof. intros Ha Ht. exact (none_of_not_in _ _ _ Ht Ha). Qed.

Lemma piece_no_brace p :
  well_formed p -> no_description p -> ~ In "{"%char (render_piece p).
Proof.
  destruct p as [t|d|q n ws|b]; cbn [well_formed no_description render_piece];
    intros Hwf Hno.
  - apply plain_not_in; [not_literal | exact Hwf].
  - contradiction.
  - destruct Hwf as (_ & Hn & Hws). apply spaces_plain in Hws.
    repeat apply not_in_app; try (apply plain_not_in; [not_literal | assumption]);
      destruct q; not_literal.
  - repeat apply not_in_app; try (apply plain_not_in; [not_literal | assumption]);
      not_literal.
Qed.

Lemma piece_no_bracket p : well_formed p -> ~ In "["%char (render_piece p).
Proof.
  destruct p as [t|d|q n ws|b]; cbn [well_formed render_piece]; intros Hwf.
  - apply plain_not_in; [not_literal | exact Hwf].
  - destruct Hwf as [_ Hd].
    repeat apply not_in_app; try (apply plain_not_in; [not_literal | assumption]);
      not_literal.
  - destruct Hwf as (_ & Hn & Hws). apply spaces_plain in Hws.
    repeat apply not_in_app; try (apply plain_not_in; [not_literal | assumption]);
      destruct q; not_literal.
  - repeat apply not_in_app; try (apply plain_not_in; [not_literal | assumption]);
      not_literal.
Qed.

Lemma render_not_in (a : ascii) (ps : list piece) :
  Forall (fun p => ~ In a (render_piece p)) ps -> ~ In a (render ps).
Proof.
  intros H. unfold render. induction H as [|p ps Hp Hps IH]; cbn [flat_map]; [tauto|].
  apply not_in_app; assumption.
Qed.

Ltac crunch :=
  cbn [T list_ascii_of_string app has_pair starts_with guarded mem existsb
       Ascii.eqb Bool.eqb andb orb negb quote_char dquote squote].

Lemma piece_not_in (a : ascii) p :
  In a (T "{|") -> well_formed p -> no_description p -> ~ In a (render_piece p).
Proof.
  intros Ha.
  assert (Ha' : In a (T "{}<[|" ++ [dquote; squote])) by (cbn in *; tauto).
  destruct p as [t|d|q n ws|b]; cbn [well_formed no_description render_piece];
    intros Hwf Hno.
  - apply plain_not_in; assumption.
  - contradiction.
  - destruct Hwf as (_ & Hn & Hws). apply spaces_plain in Hws.
    repeat apply not_in_app; try (apply plain_not_in; assumption);
      destruct q; cbn in Ha |- *; intuition (subst; discriminate).
  - repeat apply not_in_app; try (apply plain_not_in; assumption);
      cbn in Ha |- *; intuition (subst; discriminate).
Qed.

Lemma piece_no_dquote p :
  well_formed p ->
  match p with EmptyRef Double _ _ => False | _ => True end ->
  ~ In dquote (render_piece p).
Proof.
  destruct p as [t|d|q n ws|b]; cbn [well_formed render_piece]; intros Hwf Hno.
  - apply plain_not_in; [not_literal | exact Hwf].
  - destruct Hwf as [_ Hd].
    repeat apply not_in_app; try (apply plain_not_in; [not_literal | assumption]);
      not_literal.
  - destruct q; [contradiction|].
    destruct Hwf as (_ & Hn & Hws). apply spaces_plain in Hws.
    repeat apply not_in_app; try (apply plain_not_in; [not_literal | assumption]);
      not_literal.
  - repeat apply not_in_app; try (apply plain_not_in; [not_literal | assumption]);
      not_literal.
Qed.

Lemma starts_with_app (b : ascii) (s t : text) :
  ~ In b s -> starts_with b t = false -> starts_with b (s ++ t) = false.
Proof.
  destruct s as [|c s]; [auto|]. intros H _. cbn [app starts_with].
  destruct (Ascii.eqb_spec c b) as [->|_]; [|reflexivity].
  exfalso. apply H. left. reflexivity.
Qed.

Lemma render_cons p ps : render (p :: ps) = render_piece p ++ render ps.
Proof. reflexivity. Qed.

Lemma description_or_not p : {d | p = ShortDescription d} + {no_description p}.
Proof. destruct p; cbn; eauto. Qed.

Lemma render_no_leading_pipe ps :
  Forall well_formed ps -> starts_with "|" (render ps) = false.
Proof.
  intros H. induction H as [|p ps Hp Hps IH]; [reflexivity|].
  rewrite render_cons. destruct (description_or_not p) as [[d ->]|Hno].
  - reflexivity.
  - apply starts_with_app; [|exact IH]. apply piece_not_in; [not_literal | assumption ..].
Qed.

Lemma render_no_brace_pipe ps :
  Forall well_formed ps -> has_pair "{" "|" (render ps) = false.
Proof.
  intros H. induction H as [|p ps Hp Hps IH]; [reflexivity|].
  rewrite render_cons. destruct (description_or_not p) as [[d ->]|Hno].
  - destruct Hp as [_ Hd]. cbn [render_piece]. rewrite <- !app_assoc. crunch.
    apply no_pair_app_first; [apply plain_not_in; [not_literal | exact Hd]|].
    crunch. exact IH.
  - apply no_pair_app_first; [|exact IH].
    apply piece_not_in; [not_literal | assumption ..].
Qed.

Lemma render_no_space_pipe ps :
  Forall well_formed ps -> has_pair " " "|" (render ps) = false.
Proof.
  intros H. pose proof (render_no_leading_pipe ps H) as Hlead. revert Hlead.
  induction H as [|p ps Hp Hps IH]; intros Hlead; [reflexivity|].
  pose proof (render_no_leading_pipe ps Hps) as Hlead'.
  rewrite render_cons. destruct (description_or_not p) as [[d ->]|Hno].
  - destruct Hp as [_ Hd]. cbn [render_piece]. rewrite <- !app_assoc. crunch.
    apply no_pair_app_second; [apply plain_not_in; [not_literal | exact Hd]| reflexivity |].
    crunch. apply IH. exact Hlead'.
  - apply no_pair_app_second; [|exact Hlead'|apply IH; exact Hlead'].
    apply piece_not_in; [not_literal | assumption ..].
Qed.

Lemma render_no_dquote_brace ps :
  Forall well_formed ps -> has_pair dquote "{" (render ps) = false.
Proof.
  intros H. induction H as [|p ps Hp Hps IH]; [reflexivity|].
  rewrite render_cons.
  assert (Hcase : (exists n ws, p = EmptyRef Double n ws)
                  \/ match p with EmptyRef Double _ _ => False | _ => True end).
  { destruct p as [t|d|[|] n ws|b]; cbn; eauto. }
  destruct Hcase as [(n & ws & ->)|Hno].
  - destruct Hp as (Hne & Hn & Hws). apply spaces_plain in Hws.
    cbn [render_piece]. rewrite <- !app_assoc.
    crunch.
    rewrite starts_with_app;
      [ | apply plain_not_in; [not_literal | exact Hn] | reflexivity ].
    cbn [orb].
    apply no_pair_app_first; [apply plain_not_in; [not_literal | exact Hn]|].
    crunch.
    apply no_pair_app_first; [apply plain_not_in; [not_literal | exact Hws]|].
    crunch. exact IH.
  - apply no_pair_app_first; [|exact IH]. apply piece_no_dquote; assumption.
Qed.

Lemma render_guarded ps : Forall well_formed ps -> guarded "}" (render ps) = true.
Proof.
  intros H. induction H as [|p ps Hp Hps IH]; [reflexivity|].
  rewrite render_cons. destruct (description_or_not p) as [[d ->]|Hno].
  - destruct Hp as [_ Hd]. cbn [render_piece]. rewrite <- !app_assoc. crunch.
    replace (existsb (Ascii.eqb "}") (d ++ "}"%char :: "}"%char :: render ps)) with true.
    + cbn [andb]. apply guarded_no_pipe.
      * apply (none_of_neq _ _ _ Hd). not_literal.
      * crunch. exact IH.
    + symmetry. apply (proj2 (mem_true_iff "}" _)). apply in_or_app. right. left. reflexivity.
  - apply guarded_no_pipe; [|exact IH].
    assert (Hn : ~ In "|"%char (render_piece p))
      by (apply piece_not_in; [not_literal | assumption ..]).
    apply Forall_forall. intros c Hc ->. exact (Hn Hc).
Qed.

Lemma match_here_lit_mismatch (l : text) (b : ascii) (p : pattern) (c : ascii) (t : text) :
  c <> b -> match_here (map Chr l ++ Chr b :: p) (l ++ c :: t) = None.
Proof.
  intros H. unfold match_here. rewrite match_items_lit. cbn [match_items].
  destruct (Ascii.eqb_spec b c) as [->|_]; [congruence | reflexivity].
Qed.

Lemma sub_from_match_app (p : pattern) (r : replacement) (m t g : text) :
  m <> [] ->
  match_here p (m ++ t) = Some (length m, g) ->
  sub_from p r 0 (m ++ t) = expand r g ++ sub_from p r 0 t.
Proof.
  intros Hm H. destruct m as [|c m]; [congruence|].
  apply sub_from_match. exact H.
Qed.

(** Copying an opening angle bracket that does not open a reference, and
    the text after it up to the next one. *)
Lemma sub_from_copy_angle (p : pattern) (r : replacement) (c : ascii) (s t : text) :
  c <> "r"%char -> c <> "<"%char -> Forall (fun x => x <> "<"%char) s ->
  sub_from (Chr "<" :: Chr "r" :: p) r 0 ("<"%char :: c :: s ++ t)
  = "<"%char :: c :: s ++ sub_from (Chr "<" :: Chr "r" :: p) r 0 t.
Proof.
  intros Hr Hc Hs.
  rewrite sub_from_copy
    by (apply (match_here_lit_mismatch ["<"%char] "r" p c (s ++ t)); exact Hr).
  f_equal.
  change (c :: s ++ t) with ((c :: s) ++ t).
  rewrite sub_from_copy_run by (constructor; assumption). reflexivity.
Qed.

(** ** The short description rule *)

Lemma plain_neq (a : ascii) (t : text) :
  In a (T "{}<[|" ++ [dquote; squote]) -> plain t -> Forall (fun c => c <> a) t.
Proof. intros Ha Ht. exact (none_of_neq _ _ _ Ht Ha). Qed.

Lemma plain_any_but (a : ascii) (t : text) :
  In a (T "{}<[|" ++ [dquote; squote]) -> plain t ->
  Forall (fun c => any_but a c = true) t.
Proof.
  intros Ha Ht. eapply Forall_impl; [|exact (plain_neq a t Ha Ht)].
  intros c Hc. unfold any_but. apply negb_true_iff. apply Ascii.eqb_neq. exact Hc.
Qed.

Lemma match_here_short_description (d t : text) :
  d <> [] -> plain d ->
  match_here p_short_description (render_piece (ShortDescription d) ++ t)
  = Some (length (render_piece (ShortDescription d)), d).
Proof.
  intros Hne Hd. destruct d as [|c d]; [congruence|].
  pose proof (plain_any_but "}" _ ltac:(not_literal) Hd) as Hclass.
  inversion Hclass as [|? ? Hc Hd']; subst.
  unfold match_here. cbn [render_piece]. rewrite <- !app_assoc.
  change p_short_description
    with (map Chr (T "{{short description|")
          ++ [Open; Plus (any_but "}"); Close; Chr "}"; Chr "}"]).
  rewrite match_items_lit.
  cbn [match_items app length Nat.add T list_ascii_of_string].
  rewrite Hc.
  rewrite (greedy_run (any_but "}") _ d Hd' ("}"%char :: "}"%char :: t) 21
             (length d + 23, 20, 21 + length d)).
  - f_equal. f_equal.
    + rewrite !length_app. cbn [length]. lia.
    + replace (21 + length d - 20) with (length (c :: d)) by (cbn [length]; lia).
      cbn [skipn]. apply (firstn_exact (c :: d) ("}"%char :: "}"%char :: t)).
  - reflexivity.
  - cbn [match_items]. change (Ascii.eqb "}" "}") with true. cbn iota.
    f_equal. f_equal. f_equal. lia.
Qed.

Lemma sub_description_piece p t :
  well_formed p ->
  sub_from p_short_description r_short_description 0 (render_piece p ++ t)
  = render_piece (describe p)
    ++ sub_from p_short_description r_short_description 0 t.
Proof.
  intros Hwf. destruct (description_or_not p) as [[d ->]|Hno].
  - destruct Hwf as [Hne Hd].
    rewrite (sub_from_match_app _ _ _ t d).
    + cbn [describe render_piece expand r_short_description flat_map].
      rewrite <- !app_assoc. reflexivity.
    + destruct d; [congruence | discriminate].
    + apply match_here_short_description; assumption.
  - replace (describe p) with p by (destruct p; [reflexivity|contradiction|reflexivity ..]).
    change p_short_description with (Chr "{"%char :: List.tl p_short_description).
    apply sub_from_copy_run.
    pose proof (piece_not_in "{" p ltac:(not_literal) Hwf Hno) as Hn.
    apply Forall_forall. intros c Hc ->. exact (Hn Hc).
Qed.

Lemma sub_nil_first (a : ascii) (p : pattern) (r : replacement) :
  sub_from (Chr a :: p) r 0 [] = [].
Proof. reflexivity. Qed.

Lemma sub_description ps :
  Forall well_formed ps ->
  sub p_short_description r_short_description (render ps) = render (map describe ps).
Proof.
  unfold sub. intros H. induction H as [|p ps Hp Hps IH]; [reflexivity|].
  cbn [map]. rewrite !render_cons, sub_description_piece, IH by exact Hp. reflexivity.
Qed.

Lemma p_ref_double : p_ref_dq = p_ref Double. Proof. reflexivity. Qed.
Lemma p_ref_single : p_ref_sq = p_ref Single. Proof. reflexivity. Qed.

Lemma quote_is_markup (w : quote) : In (quote_char w) (T "{}<[|" ++ [dquote; squote]).
Proof. destruct w; cbn; tauto. Qed.

Lemma quote_not_space (w : quote) : is_space (quote_char w) = false.
Proof. destruct w; reflexivity. Qed.

Lemma match_here_ref (w : quote) (n ws t : text) :
  n <> [] -> plain n -> Forall (fun c => is_space c = true) ws ->
  match_here (p_ref w) (render_piece (EmptyRef w n ws) ++ t)
  = Some (length (render_piece (EmptyRef w n ws)), n).
Proof.
  intros Hne Hn Hws. destruct n as [|c n]; [congruence|].
  pose proof (plain_any_but (quote_char w) _ (quote_is_markup w) Hn) as Hclass.
  inversion Hclass as [|? ? Hc Hn']; subst.
  unfold match_here. cbn [render_piece]. rewrite <- !app_assoc.
  change (p_ref w)
    with (map Chr (T "<ref name=")
          ++ [Chr (quote_char w); Open; Plus (any_but (quote_char w)); Close;
              Chr (quote_char w); Chr ">"; Star space]
          ++ map Chr (T "</ref>") ++ []).
  rewrite match_items_lit.
  cbn [match_items app length Nat.add T list_ascii_of_string].
  rewrite Ascii.eqb_refl, Hc.
  rewrite (greedy_run (any_but (quote_char w)) _ n Hn'
             (quote_char w :: ">"%char :: ws ++ T "</ref>" ++ t) 12
             (length n + length ws + 20, 11, 12 + length n)).
  - f_equal. f_equal.
    + rewrite !length_app. cbn [length T list_ascii_of_string]. rewrite !length_app.
      cbn [length]. lia.
    + replace (12 + length n - 11) with (length (c :: n)) by (cbn [length]; lia).
      cbn [skipn].
      apply (firstn_exact (c :: n) (quote_char w :: ">"%char :: ws ++ T "</ref>" ++ t)).
  - unfold any_but. rewrite Ascii.eqb_refl. reflexivity.
  - rewrite Ascii.eqb_refl. cbn [Ascii.eqb Bool.eqb andb].
    rewrite (greedy_run space _ ws Hws (T "</ref>" ++ t) (S (S (12 + length n)))
               (length n + length ws + 20, 11, 12 + length n)).
    + reflexivity.
    + reflexivity.
    + change (match_items (map Chr (T "</ref>") ++ []) (T "</ref>" ++ t)
                (S (S (12 + length n)) + length ws) 11 (12 + length n)
              = Some (length n + length ws + 20, 11, 12 + length n)).
      rewrite match_items_lit. cbn [match_items length T list_ascii_of_string].
      f_equal. f_equal. f_equal. lia.
Qed.

Lemma Forall_app_intro {A} (P : A -> Prop) (s t : list A) :
  Forall P s -> Forall P t -> Forall P (s ++ t).
Proof. intros. apply Forall_app. auto. Qed.

Lemma quote_char_inj (q w : quote) : quote_char q = quote_char w -> q = w.
Proof. destruct q, w; cbn; intros H; try reflexivity; discriminate. Qed.

Lemma sub_ref_piece (w : quote) p t :
  well_formed p ->
  sub_from (p_ref w) r_ref 0 (render_piece p ++ t)
  = render_piece (strip_ref w p) ++ sub_from (p_ref w) r_ref 0 t.
Proof.
  intros Hwf.
  assert (Hangle : In "<"%char (T "{}<[|" ++ [dquote; squote])) by not_literal.
  destruct p as [t0|d|q n ws|b]; cbn [well_formed strip_ref] in *.
  - change (p_ref w) with (Chr "<"%char :: List.tl (p_ref w)).
    apply sub_from_copy_run. cbn [render_piece]. apply plain_neq; assumption.
  - change (p_ref w) with (Chr "<"%char :: List.tl (p_ref w)).
    apply sub_from_copy_run. cbn [render_piece]. destruct Hwf as [_ Hd].
    repeat apply Forall_app_intro;
      try (apply plain_neq; assumption); repeat constructor; discriminate.
  - destruct Hwf as (Hne & Hn & Hws).
    assert (Hcase : q = w \/ quote_char q <> quote_char w).
    { destruct q, w; cbn; auto; right; discriminate. }
    destruct Hcase as [->|Hq].
    + replace (match w, w with
               | Double, Double | Single, Single => Comment (T "ref " ++ n)
               | _, _ => EmptyRef w n ws
               end) with (Comment (T "ref " ++ n)) by (destruct w; reflexivity).
      rewrite (sub_from_match_app _ _ _ t n).
      * cbn [render_piece expand r_ref flat_map]. rewrite <- !app_assoc. reflexivity.
      * cbn [render_piece]. discriminate.
      * apply match_here_ref; assumption.
    + replace (match w, q with
               | Double, Double | Single, Single => Comment (T "ref " ++ n)
               | _, _ => EmptyRef q n ws
               end) with (EmptyRef q n ws)
        by (destruct w, q; try reflexivity; exfalso; apply Hq; reflexivity).
      assert (Hshape : forall rest,
                 render_piece (EmptyRef q n ws) ++ rest
                 = "<"%char
                   :: (T "ref name=" ++ [quote_char q] ++ n ++ [quote_char q; ">"%char] ++ ws)
                   ++ "<"%char :: "/"%char :: T "ref>" ++ rest).
      { intros rest. cbn [render_piece T list_ascii_of_string app].
        repeat (rewrite <- app_assoc; cbn [app]). reflexivity. }
      rewrite !Hshape.
      rewrite sub_from_copy.
      2:{ apply (match_here_lit_mismatch (T "<ref name=") (quote_char w)
                   ([Open; Plus (any_but (quote_char w)); Close; Chr (quote_char w)]
                    ++ lit ">" ++ [Star space] ++ lit "</ref>")
                   (quote_char q)).
          exact Hq. }
      f_equal.
      change (p_ref w) with (Chr "<"%char :: Chr "r"%char :: List.tl (List.tl (p_ref w))).
      rewrite sub_from_copy_run.
      2:{ repeat apply Forall_app_intro;
            try (apply plain_neq; [assumption|]; first [assumption | apply spaces_plain; assumption]);
            repeat constructor; try discriminate; destruct q; discriminate. }
      f_equal.
  - assert (Hshape : forall rest,
               render_piece (Comment b) ++ rest
               = "<"%char :: "!"%char :: (T "--" ++ b ++ T "-->") ++ rest).
    { intros rest. cbn [render_piece T list_ascii_of_string app].
      repeat (rewrite <- app_assoc; cbn [app]). reflexivity. }
    rewrite !Hshape.
    change (p_ref w) with (Chr "<"%char :: Chr "r"%char :: List.tl (List.tl (p_ref w))).
    apply sub_from_copy_angle; try discriminate.
    repeat apply Forall_app_intro;
      try (apply plain_neq; assumption); repeat constructor; discriminate.
Qed.

Lemma sub_ref (w : quote) ps :
  Forall well_formed ps ->
  sub (p_ref w) r_ref (render ps) = render (map (strip_ref w) ps).
Proof.
  unfold sub. intros H. induction H as [|p ps Hp Hps IH]; [reflexivity|].
  cbn [map]. rewrite !render_cons, sub_ref_piece, IH by exact Hp. reflexivity.
Qed.

Lemma no_description_describe p : no_description (describe p).
Proof. destruct p; exact I. Qed.

Lemma no_description_strip_ref w p : no_description p -> no_description (strip_ref w p).
Proof. destruct p as [t|d|q n ws|b]; cbn; auto. destruct w, q; exact (fun _ => I). Qed.

Lemma Forall_map_intro {A B} (P : B -> Prop) (f : A -> B) (l : list A) :
  (forall x, In x l -> P (f x)) -> Forall P (map f l).
Proof. intros H. apply Forall_map. apply Forall_forall. exact H. Qed.

(** The cleaner on a text of pieces: the short descriptions and the empty
    references become comments, the rest stays. *)
Lemma clean_render ps :
  Forall well_formed ps ->
  clean_wiki_markup (render ps) = render (map normalize ps).
Proof.
  intros H.
  assert (H1 : Forall well_formed (map describe ps)).
  { apply Forall_map_intro. intros p Hp. apply well_formed_describe.
    rewrite Forall_forall in H. auto. }
  assert (H2 : Forall well_formed (map (strip_ref Double) (map describe ps))).
  { apply Forall_map_intro. intros p Hp. apply well_formed_strip_ref.
    rewrite Forall_forall in H1. auto. }
  assert (H3 : Forall well_formed
                 (map (strip_ref Single) (map (strip_ref Double) (map describe ps)))).
  { apply Forall_map_intro. intros p Hp. apply well_formed_strip_ref.
    rewrite Forall_forall in H2. auto. }
  assert (B1 : ~ In "{"%char (render (map describe ps))).
  { apply render_not_in. apply Forall_forall. intros p Hp.
    apply piece_no_brace; [rewrite Forall_forall in H1; auto|].
    apply in_map_iff in Hp. destruct Hp as (p0 & <- & _). apply no_description_describe. }
  assert (B3 : ~ In "{"%char
                 (render (map (strip_ref Single)
                            (map (strip_ref Double) (map describe ps))))).
  { apply render_not_in. apply Forall_forall. intros p Hp.
    apply piece_no_brace; [rewrite Forall_forall in H3; auto|].
    apply in_map_iff in Hp. destruct Hp as (p1 & <- & Hp).
    apply in_map_iff in Hp. destruct Hp as (p2 & <- & Hp).
    apply in_map_iff in Hp. destruct Hp as (p3 & <- & Hp).
    apply no_description_strip_ref, no_description_strip_ref, no_description_describe. }
  assert (K3 : ~ In "["%char
                 (render (map (strip_ref Single)
                            (map (strip_ref Double) (map describe ps))))).
  { apply render_not_in. apply Forall_forall. intros p Hp.
    apply piece_no_bracket. rewrite Forall_forall in H3. auto. }
  unfold clean_wiki_markup, patterns. cbn [fold_left fst snd].
  change p_table with (map Chr [] ++ Chr "{" :: Chr "|" :: List.tl (List.tl p_table)).
  rewrite sub_id_needs_pair by (apply render_no_brace_pipe; exact H).
  rewrite (sub_row_id "}") by (first [reflexivity | discriminate | apply render_guarded; exact H]).
  change p_valign
    with (map Chr (T "| style=" ++ [dquote] ++ T "vertical-align: top;")
          ++ Chr " " :: Chr "|" :: []).
  rewrite sub_id_needs_pair by (apply render_no_space_pipe; exact H).
  change p_sheets
    with (map Chr (T "data-sheets-value=") ++ Chr dquote :: Chr "{" :: skipn 20 p_sheets).
  rewrite sub_id_needs_pair by (apply render_no_dquote_brace; exact H).
  rewrite sub_description by exact H.
  rewrite (sub_id_needs_char "{" p_use) by (in_pattern || exact B1).
  rewrite p_ref_double, sub_ref by exact H1.
  rewrite p_ref_single, sub_ref by exact H2.
  rewrite (sub_id_needs_char "{" p_template) by (in_pattern || exact B3).
  rewrite (sub_id_needs_char "[" p_wikilink) by (in_pattern || exact K3).
  rewrite !map_map. reflexivity.
Qed.

End PieceFacts.

Module CleanerClaims.
Import PyStr Re Cleaner Spec Pieces ReFacts CleanerFacts PieceFacts.



(** C7: on a text made of plain text, short description templates,
    empty named references (in either quote style, with white space
    between the tags or none) and the comments these rules write, the
    cleaner turns every short description and every empty reference into
    its comment and leaves the rest; cleaning the result again changes
    nothing. *)
Theorem C7_clean_idempotent_on_descriptions_and_references (ps : list piece) :
  Forall well_formed ps ->
  clean_wiki_markup (render ps) = render (map normalize ps)
  /\ clean_wiki_markup (clean_wiki_markup (render ps)) = clean_wiki_markup (render ps).
Proof.
  intros H. split; [apply clean_render; exact H|].
  rewrite !clean_render; try exact H.
  - rewrite map_map. f_equal. apply map_ext. intros p. apply normalize_normalize.
  - apply Forall_map_intro. intros p Hp. apply well_formed_normalize.
    rewrite Forall_forall in H. auto.
Qed.

(** C7 at a text with one short description and one reference of each
    quote style. *)
Lemma C7_clean_idempotent_on_descriptions_and_references_witness :
  let x := render [ Plain (T "Bohr ");
                    ShortDescription (T "Danish physicist");
                    EmptyRef Double (T "nobel 1922") (T " ");
                    EmptyRef Single (T "bio") [];
                    Plain (T " was born in 1885.") ] in
  clean_wiki_markup (clean_wiki_markup x) = clean_wiki_markup x.
Proof.
  apply (C7_clean_idempotent_on_descriptions_and_references
           [ Plain (T "Bohr ");
             ShortDescription (T "Danish physicist");
             EmptyRef Double (T "nobel 1922") (T " ");
             EmptyRef Single (T "bio") [];
             Plain (T " was born in 1885.") ]).
  repeat constructor; try discriminate; cbn; intuition discriminate.
Defined.

End CleanerClaims.

(* ===================================================================== *)
(** * Invariants of the loop of [main] *)
(* ===================================================================== *)

Module RunFacts.
Import PyStr Xml Scheduler Spec LogSpec SchedulerFacts.
Open Scope Z_scope.

(** ** The loop, case by case *)

Section LoopCases.
Variable E : environment.
Variable a : args.
Variable P : bool -> list event -> loop_state -> list action * termination -> Prop.

Hypothesis at_end : forall m st,
  P m [] st ([], if m then Aborted ParseError else Completed).

Hypothesis at_cancel : forall m ev rest st,
  should_exit E (clock st) = true ->
  P m (ev :: rest) st
    ([Saved (Checkpoint.save_state E (processed st) (success st) (failed st)
               (S (clock st)))], Cancelled).

Hypothesis at_root : forall m ev rest st r,
  should_exit E (clock st) = false ->
  is_start (fst ev) = true ->
  namespace st = None ->
  P m rest
    {| processed := processed st; success := success st; failed := failed st;
       namespace := Some (detect_namespace (tag (snd ev)));
       clock := S (clock st); tmp := tmp st |} r ->
  P m (ev :: rest) st r.

Hypothesis at_invalid : forall m ev rest st r,
  should_exit E (clock st) = false ->
  is_start (fst ev) && is_none (namespace st) = false ->
  is_page_end (namespace st) ev = true ->
  process_page (snd ev) (namespace st) = None ->
  P m rest
    {| processed := processed st + 1; success := success st;
       failed := failed st + 1;
       namespace := namespace st; clock := S (clock st); tmp := tmp st |} r ->
  P m (ev :: rest) st (Page None :: fst r, snd r).

Hypothesis at_parse_error : forall ev rest st d,
  should_exit E (clock st) = false ->
  is_start (fst ev) && is_none (namespace st) = false ->
  is_page_end (namespace st) ev = true ->
  process_page (snd ev) (namespace st) = Some d ->
  fb_exhausted (fill_batch a (namespace st) [d] rest) = true ->
  P true (ev :: rest) st
    (Page (Some d) :: fb_pages (fill_batch a (namespace st) [d] rest),
     Aborted ParseError).

Hypothesis at_batch : forall m ev rest st d r,
  should_exit E (clock st) = false ->
  is_start (fst ev) && is_none (namespace st) = false ->
  is_page_end (namespace st) ev = true ->
  process_page (snd ev) (namespace st) = Some d ->
  fb_exhausted (fill_batch a (namespace st) [d] rest) && m = false ->
  forall batch results,
    batch = fb_batch (fill_batch a (namespace st) [d] rest) ->
    results = fst (pool_starmap E a batch (tmp st)) ->
    P m (fb_rest (fill_batch a (namespace st) [d] rest))
      {| processed := processed st + Z.of_nat (length batch);
         success := success st + sum results;
         failed := failed st + (Z.of_nat (length results) - sum results);
         namespace := namespace st; clock := S (S (clock st));
         tmp := snd (pool_starmap E a batch (tmp st)) |} r ->
    P m (ev :: rest) st
      (Page (Some d) :: fb_pages (fill_batch a (namespace st) [d] rest)
       ++ Dispatched batch results
          :: Saved (Checkpoint.save_state E
                      (processed st + Z.of_nat (length batch))
                      (success st + sum results)
                      (failed st + (Z.of_nat (length results) - sum results))
                      (S (clock st)))
          :: fst r,
       snd r).

Hypothesis at_other : forall m ev rest st r,
  should_exit E (clock st) = false ->
  is_start (fst ev) && is_none (namespace st) = false ->
  is_page_end (namespace st) ev = false ->
  P m rest (tick st) r ->
  P m (ev :: rest) st r.

Lemma main_loop_cases m evs st : P m evs st (main_loop E a m evs st).
Proof.
  apply (main_loop_elim E a P).
  - exact at_end.
  - clear m evs st. intros m ev rest st IHroot IHbatch IHinvalid IHother.
    destruct (should_exit E (clock st)) eqn:Hflag; [apply at_cancel; exact Hflag|].
    destruct (is_start (fst ev) && is_none (namespace st)) eqn:Hroot.
    { apply andb_prop in Hroot. destruct Hroot as [Hs Hn].
      apply at_root; try assumption.
      destruct (namespace st); [discriminate | reflexivity]. }
    destruct (is_page_end (namespace st) ev) eqn:Hpage;
      [|apply at_other; assumption].
    destruct (process_page (snd ev) (namespace st)) as [d|] eqn:Hd.
    + specialize (IHbatch d). cbv zeta in IHbatch. cbv zeta.
      destruct (fb_exhausted (fill_batch a (namespace st) [d] rest) && m) eqn:Hex.
      * apply andb_prop in Hex. destruct Hex as [Hex ->].
        apply at_parse_error; assumption.
      * unfold prepend. cbn [fst snd].
        rewrite <- app_comm_cons, <- app_assoc. cbn [app].
        eapply at_batch; try eassumption; try reflexivity.
    + unfold prepend. cbn [fst snd app]. apply at_invalid; assumption.
Qed.

End LoopCases.


(** ** Lists of actions *)

Lemma batches_app (l1 l2 : list action) :
  batches (l1 ++ l2) = batches l1 ++ batches l2.
Proof.
  induction l1 as [|[r|r|b rs|c] l1 IH]; cbn [app batches]; try exact IH.
  - reflexivity.
  - f_equal. exact IH.
Qed.

Lemma saves_app (l1 l2 : list action) : saves (l1 ++ l2) = saves l1 ++ saves l2.
Proof.
  induction l1 as [|[r|r|b rs|c] l1 IH]; cbn [app saves]; try exact IH.
  - reflexivity.
  - f_equal. exact IH.
Qed.

Lemma batches_pages (l : list action) :
  Forall (fun x => is_page_action x = true) l -> batches l = [].
Proof.
  induction 1 as [|[r|r|b rs|c] l Hx Hl IH]; cbn [batches]; try exact IH;
    try reflexivity; discriminate.
Qed.

Lemma saves_pages (l : list action) :
  Forall (fun x => is_page_action x = true) l -> saves l = [].
Proof.
  induction 1 as [|[r|r|b rs|c] l Hx Hl IH]; cbn [saves]; try exact IH;
    try reflexivity; discriminate.
Qed.

Lemma well_placed_pages (t : termination) (l1 l2 : list action) :
  Forall (fun x => is_page_action x = true) l1 ->
  well_placed t l2 -> well_placed t (l1 ++ l2).
Proof.
  intros H Hl2. induction H as [|[r|r|b rs|c] l Hx Hl IH]; cbn [app well_placed];
    try exact IH; try exact Hl2; discriminate.
Qed.

Lemma Forall_pages_app (Q : action -> Prop) (l1 l2 : list action) :
  (forall x, is_page_action x = true -> Q x) ->
  Forall (fun x => is_page_action x = true) l1 ->
  Forall Q l2 -> Forall Q (l1 ++ l2).
Proof.
  intros HQ H Hl2. induction H as [|x l Hx Hl IH]; cbn [app]; [exact Hl2|].
  constructor; [apply HQ; exact Hx | exact IH].
Qed.

(** ** The inner loop *)

Lemma fill_batch_only_pages a ns evs :
  forall batch,
    Forall (fun x => is_page_action x = true) (fb_pages (fill_batch a ns batch evs)).
Proof.
  induction evs as [|ev evs IH]; intros batch; cbn [fill_batch].
  - destruct (Z.of_nat (length batch) <? batch_size a); constructor.
  - destruct (Z.of_nat (length batch) <? batch_size a); [|constructor].
    destruct (is_page_end ns ev); [|apply IH].
    cbn [fb_pages]. constructor; [reflexivity | apply IH].
Qed.

Lemma fill_batch_records a ns evs :
  forall batch,
    fb_batch (fill_batch a ns batch evs)
    ++ records ns (fb_rest (fill_batch a ns batch evs))
    = batch ++ records ns evs.
Proof.
  induction evs as [|ev evs IH]; intros batch; cbn [fill_batch].
  - destruct (Z.of_nat (length batch) <? batch_size a); reflexivity.
  - destruct (Z.of_nat (length batch) <? batch_size a); [|reflexivity].
    cbn [records]. destruct (is_page_end ns ev); [|apply IH].
    cbn [fb_batch fb_rest]. rewrite IH.
    destruct (process_page (snd ev) ns) as [d|]; [|reflexivity].
    rewrite <- app_assoc. reflexivity.
Qed.

Lemma fill_batch_bounds a ns evs :
  forall batch,
    (length batch <= length (fb_batch (fill_batch a ns batch evs)))%nat
    /\ Z.of_nat (length (fb_batch (fill_batch a ns batch evs)))
       <= Z.max (Z.of_nat (length batch)) (batch_size a)
    /\ (fb_exhausted (fill_batch a ns batch evs) = false ->
        batch_size a <= Z.of_nat (length (fb_batch (fill_batch a ns batch evs))))
    /\ (fb_exhausted (fill_batch a ns batch evs) = true ->
        fb_rest (fill_batch a ns batch evs) = []).
Proof.
  induction evs as [|ev evs IH]; intros batch; cbn [fill_batch].
  - destruct (Z.ltb_spec (Z.of_nat (length batch)) (batch_size a));
      cbn [fb_batch fb_exhausted fb_rest]; repeat split; try lia; discriminate.
  - destruct (Z.ltb_spec (Z.of_nat (length batch)) (batch_size a)) as [Hlt|Hge];
      [|cbn [fb_batch fb_exhausted fb_rest]; repeat split; try lia; discriminate].
    destruct (is_page_end ns ev).
    + cbn [fb_batch fb_exhausted fb_rest].
      destruct (process_page (snd ev) ns) as [d|].
      * destruct (IH (batch ++ [d])) as (H1 & H2 & H3 & H4).
        rewrite length_app in H1, H2. cbn [length] in H1, H2.
        repeat split; try assumption; lia.
      * apply IH.
    + apply IH.
Qed.

(** ** Invariants of the loop *)

Lemma main_loop_dispatched E a m evs st :
  is_none (namespace st) = false ->
  exists tail,
    records (namespace st) evs = dispatched (fst (main_loop E a m evs st)) ++ tail
    /\ (snd (main_loop E a m evs st) = Completed -> tail = []).
Proof.
  apply (main_loop_cases E a
           (fun m evs st r =>
              is_none (namespace st) = false ->
              exists tail,
                records (namespace st) evs = dispatched (fst r) ++ tail
                /\ (snd r = Completed -> tail = []))); clear m evs st.
  - intros m st _. exists []. split; reflexivity.
  - intros m ev rest st _ _. exists (records (namespace st) (ev :: rest)).
    split; [reflexivity | discriminate].
  - intros m ev rest st r _ _ Hnone _ Hns. rewrite Hnone in Hns. discriminate.
  - intros m ev rest st r _ _ Hpage Hd IH Hns.
    destruct (IH Hns) as (tail & Hrec & Hdone). exists tail.
    cbn [records fst snd]. rewrite Hpage, Hd. split; [exact Hrec | exact Hdone].
  - intros ev rest st d _ _ Hpage Hd _ _.
    exists (records (namespace st) (ev :: rest)). cbn [fst snd].
    unfold dispatched. cbn [batches].
    rewrite batches_pages by apply fill_batch_only_pages.
    split; [reflexivity | discriminate].
  - intros m ev rest st d r _ _ Hpage Hd _ batch results -> _ IH Hns.
    destruct (IH Hns) as (tail & Hrec & Hdone). exists tail. cbn [namespace] in Hrec.
    cbn [records fst snd]. rewrite Hpage, Hd. split; [|exact Hdone].
    unfold dispatched. cbn [batches]. rewrite batches_app.
    rewrite batches_pages by apply fill_batch_only_pages.
    cbn [app batches concat]. fold (dispatched (fst r)).
    rewrite <- app_assoc, <- Hrec.
    rewrite (fill_batch_records a (namespace st) rest [d]). reflexivity.
  - intros m ev rest st r _ _ Hpage IH Hns.
    change (namespace (tick st)) with (namespace st) in IH.
    cbn [records]. rewrite Hpage. exact (IH Hns).
Qed.

Lemma main_loop_batch_bounds E a m evs st :
  Forall (fun b => (1 <= length b)%nat
                   /\ Z.of_nat (length b) <= Z.max 1 (batch_size a))
         (batches (fst (main_loop E a m evs st))).
Proof.
  apply (main_loop_cases E a
           (fun m evs st r =>
              Forall (fun b => (1 <= length b)%nat
                               /\ Z.of_nat (length b) <= Z.max 1 (batch_size a))
                     (batches (fst r)))); clear m evs st.
  - intros. constructor.
  - intros. constructor.
  - intros. assumption.
  - intros. assumption.
  - intros ev rest st d _ _ _ _ _. cbn [fst batches].
    rewrite batches_pages by apply fill_batch_only_pages. constructor.
  - intros m ev rest st d r _ _ _ _ _ batch results -> _ IH.
    cbn [fst batches]. rewrite batches_app.
    rewrite batches_pages by apply fill_batch_only_pages.
    cbn [app batches]. constructor; [|exact IH].
    destruct (fill_batch_bounds a (namespace st) rest [d]) as (H1 & H2 & _).
    cbn [length] in H1, H2. split; [exact H1 | exact H2].
  - intros. assumption.
Qed.

Lemma main_loop_full_batches E a m evs st :
  (evs = [] -> fst (main_loop E a m evs st) = [])
  /\ Forall (fun b => batch_size a <= Z.of_nat (length b))
            (removelast (batches (fst (main_loop E a m evs st)))).
Proof.
  apply (main_loop_cases E a
           (fun m evs st r =>
              (evs = [] -> fst r = [])
              /\ Forall (fun b => batch_size a <= Z.of_nat (length b))
                        (removelast (batches (fst r))))); clear m evs st.
  - intros. split; [reflexivity | constructor].
  - intros. split; [discriminate | constructor].
  - intros m ev rest st r _ _ _ [_ IH]. split; [discriminate | exact IH].
  - intros m ev rest st r _ _ _ _ [_ IH]. split; [discriminate | exact IH].
  - intros ev rest st d _ _ _ _ _. split; [discriminate|]. cbn [fst batches].
    rewrite batches_pages by apply fill_batch_only_pages. constructor.
  - intros m ev rest st d r _ _ _ _ Hex batch results -> _ [Hnil IH].
    split; [discriminate|].
    cbn [fst batches]. rewrite batches_app.
    rewrite batches_pages by apply fill_batch_only_pages.
    cbn [app batches].
    destruct (fill_batch_bounds a (namespace st) rest [d]) as (_ & _ & Hfull & Hrest).
    destruct (fb_exhausted (fill_batch a (namespace st) [d] rest)) eqn:Hx.
    + rewrite (Hnil (Hrest eq_refl)). constructor.
    + destruct (batches (fst r)) as [|b bs] eqn:Hb; [constructor|].
      change (removelast (?x :: b :: bs)) with (x :: removelast (b :: bs)).
      constructor; [apply Hfull; reflexivity | exact IH].
  - intros m ev rest st r _ _ _ [_ IH]. split; [discriminate | exact IH].
Qed.

Lemma main_loop_well_placed E a m evs st :
  well_placed (snd (main_loop E a m evs st)) (fst (main_loop E a m evs st)).
Proof.
  apply (main_loop_cases E a (fun m evs st r => well_placed (snd r) (fst r)));
    clear m evs st.
  - intros. exact I.
  - intros. split; reflexivity.
  - intros. assumption.
  - intros. assumption.
  - intros ev rest st d _ _ _ _ _. cbn [fst snd well_placed].
    rewrite <- (app_nil_r (fb_pages _)).
    apply well_placed_pages; [apply fill_batch_only_pages | exact I].
  - intros m ev rest st d r _ _ _ _ _ batch results _ _ IH.
    cbn [fst snd well_placed].
    apply well_placed_pages; [apply fill_batch_only_pages | exact IH].
  - intros. assumption.
Qed.

Lemma should_exit_mono E t t' :
  (t <= t')%nat -> should_exit E t = true -> should_exit E t' = true.
Proof.
  unfold should_exit. destruct (signal_at E) as [n|]; [|discriminate].
  intros Hle H. apply Nat.leb_le in H. apply Nat.leb_le. lia.
Qed.

Lemma status_save_state E p s f t :
  Checkpoint.status (Checkpoint.save_state E p s f t)
  = if should_exit E t then Checkpoint.terminated else Checkpoint.in_progress.
Proof. reflexivity. Qed.

Lemma main_loop_one_way E a m evs st :
  (should_exit E (clock st) = true ->
   Forall (fun s => s = Checkpoint.terminated)
          (map Checkpoint.status (saves (fst (main_loop E a m evs st)))))
  /\ one_way (map Checkpoint.status (saves (fst (main_loop E a m evs st)))).
Proof.
  apply (main_loop_cases E a
           (fun m evs st r =>
              (should_exit E (clock st) = true ->
               Forall (fun s => s = Checkpoint.terminated)
                      (map Checkpoint.status (saves (fst r))))
              /\ one_way (map Checkpoint.status (saves (fst r))))); clear m evs st.
  - intros. split; [constructor | exact I].
  - intros m ev rest st Hflag. cbn [fst saves map]. rewrite status_save_state.
    rewrite (should_exit_mono E (clock st) (S (clock st))) by (auto; lia).
    split; [intros _; repeat constructor|]. cbn [one_way]. split; [constructor | exact I].
  - intros m ev rest st r Hflag _ _ [_ IH]. split; [congruence | exact IH].
  - intros m ev rest st r Hflag _ _ _ [_ IH]. cbn [fst saves].
    split; [congruence | exact IH].
  - intros ev rest st d Hflag _ _ _ _. cbn [fst saves].
    rewrite saves_pages by apply fill_batch_only_pages.
    split; [constructor | exact I].
  - intros m ev rest st d r Hflag _ _ _ _ batch results _ _ [IH1 IH2].
    split; [congruence|]. cbn [fst saves]. rewrite saves_app.
    rewrite saves_pages by apply fill_batch_only_pages.
    cbn [app saves map one_way]. split; [|exact IH2].
    rewrite status_save_state. cbn [clock] in IH1.
    destruct (should_exit E (S (clock st))) eqn:Hs; [|discriminate].
    intros _. apply IH1. apply (should_exit_mono E (S (clock st))); [lia | exact Hs].
  - intros m ev rest st r Hflag _ _ [_ IH]. split; [congruence | exact IH].
Qed.

Lemma main_loop_no_signal E a m evs st :
  signal_at E = None ->
  Forall (fun c => Checkpoint.status c = Checkpoint.in_progress)
         (saves (fst (main_loop E a m evs st)))
  /\ snd (main_loop E a m evs st) = (if m then Aborted ParseError else Completed).
Proof.
  intros Hsig.
  apply (main_loop_cases E a
           (fun m evs st r =>
              Forall (fun c => Checkpoint.status c = Checkpoint.in_progress)
                     (saves (fst r))
              /\ snd r = (if m then Aborted ParseError else Completed))); clear m evs st.
  - intros. split; [constructor | reflexivity].
  - intros m ev rest st Hflag. rewrite should_exit_never in Hflag by exact Hsig.
    discriminate.
  - intros. assumption.
  - intros. assumption.
  - intros ev rest st d _ _ _ _ _. cbn [fst snd saves].
    rewrite saves_pages by apply fill_batch_only_pages.
    split; [constructor | reflexivity].
  - intros m ev rest st d r _ _ _ _ _ batch results _ _ [IH1 IH2].
    cbn [fst snd saves]. rewrite saves_app.
    rewrite saves_pages by apply fill_batch_only_pages.
    cbn [app saves]. split; [|exact IH2]. constructor; [|exact IH1].
    rewrite status_save_state, should_exit_never by exact Hsig. reflexivity.
  - intros. assumption.
Qed.

Lemma main_loop_exit E a m evs st :
  (m = false -> exit_code (snd (main_loop E a m evs st)) = 0)
  /\ (m = true -> snd (main_loop E a m evs st) <> Completed).
Proof.
  apply (main_loop_cases E a
           (fun m evs st r =>
              (m = false -> exit_code (snd r) = 0)
              /\ (m = true -> snd r <> Completed))); clear m evs st.
  - intros [|] st; split; try discriminate; reflexivity.
  - intros. split; [reflexivity | discriminate].
  - intros. assumption.
  - intros. assumption.
  - intros. split; discriminate.
  - intros. assumption.
  - intros. assumption.
Qed.


(** ** The starting counters *)

Lemma map_shift_pages dp ds df (l : list action) :
  Forall (fun x => is_page_action x = true) l -> map (shift dp ds df) l = l.
Proof.
  induction 1 as [|[r|r|b rs|c] l Hx Hl IH]; cbn [map shift]; try discriminate;
    [reflexivity| |]; f_equal; exact IH.
Qed.

Lemma main_loop_shift E a m evs st :
  forall dp ds df,
    main_loop E a m evs (offset dp ds df st)
    = (map (shift dp ds df) (fst (main_loop E a m evs st)),
       snd (main_loop E a m evs st)).
Proof.
  apply (main_loop_cases E a
           (fun m evs st r =>
              forall dp ds df,
                main_loop E a m evs (offset dp ds df st)
                = (map (shift dp ds df) (fst r), snd r))); clear m evs st.
  - intros m st dp ds df. rewrite main_loop_equation_1. reflexivity.
  - intros m ev rest st Hflag dp ds df. rewrite main_loop_equation_2.
    cbn [offset clock]. rewrite Hflag. reflexivity.
  - intros m ev rest st r Hflag Hstart Hnone IH dp ds df.
    rewrite main_loop_equation_2. cbn [offset processed success failed namespace clock tmp].
    rewrite Hflag, Hstart, Hnone. cbn [is_none andb].
    cbn [processed success failed tmp]. exact (IH dp ds df).
  - intros m ev rest st r Hflag Hroot Hpage Hd IH dp ds df.
    rewrite main_loop_equation_2. cbn [offset processed success failed namespace clock tmp].
    rewrite Hflag, Hroot, Hpage, Hd. cbn [processed success failed tmp].
    unfold prepend. cbn [fst snd map shift app].
    replace (processed st + dp + 1) with (processed st + 1 + dp) by lia.
    replace (failed st + df + 1) with (failed st + 1 + df) by lia.
    pose proof (IH dp ds df) as H. unfold offset in H.
    cbn [processed success failed namespace clock tmp] in H.
    rewrite H. reflexivity.
  - intros ev rest st d Hflag Hroot Hpage Hd Hex dp ds df.
    rewrite main_loop_equation_2. cbn [offset processed success failed namespace clock tmp].
    rewrite Hflag, Hroot, Hpage, Hd. cbv zeta. rewrite Hex. cbn [andb fst snd].
    cbn [map shift]. rewrite map_shift_pages by apply fill_batch_only_pages.
    reflexivity.
  - intros m ev rest st d r Hflag Hroot Hpage Hd Hex batch results -> -> IH dp ds df.
    rewrite main_loop_equation_2. cbn [offset processed success failed namespace clock tmp].
    rewrite Hflag, Hroot, Hpage, Hd. cbv zeta. rewrite Hex.
    cbn [processed success failed tmp].
    pose proof (IH dp ds df) as H. unfold offset in H.
    cbn [processed success failed namespace clock tmp] in H.
    set (f := fill_batch a (namespace st) [d] rest) in *.
    set (rs := fst (pool_starmap E a (fb_batch f) (tmp st))) in *.
    unfold prepend. cbn [fst snd].
    replace (processed st + dp + Z.of_nat (length (fb_batch f)))
      with (processed st + Z.of_nat (length (fb_batch f)) + dp) by lia.
    replace (success st + ds + sum rs) with (success st + sum rs + ds) by lia.
    replace (failed st + df + (Z.of_nat (length rs) - sum rs))
      with (failed st + (Z.of_nat (length rs) - sum rs) + df) by lia.
    rewrite H. cbn [fst snd]. f_equal.
    rewrite <- app_comm_cons, <- app_assoc. cbn [app map shift].
    rewrite map_app.
    rewrite (map_shift_pages dp ds df (fb_pages f)) by apply fill_batch_only_pages.
    reflexivity.
  - intros m ev rest st r Hflag Hroot Hpage IH dp ds df.
    rewrite main_loop_equation_2. cbn [offset processed success failed namespace clock tmp].
    rewrite Hflag, Hroot, Hpage. exact (IH dp ds df).
Qed.

(** ** The workers *)

Lemma process_single_page_converts E a p fs :
  Invoker.process_single_page E (fst p) (snd p) (output a) (format a) fs
  = (converts E a p, fs).
Proof.
  unfold Invoker.process_single_page, Invoker.process_single_page_body, Invoker.bind,
    converts.
  rewrite InvokerClaims.convert_to_markdown_cases.
  destruct (run_pandoc E (format a) (Some (Cleaner.clean_wiki_markup (snd p))))
    as [rc out err| |]; cbn [Invoker.raise]; try reflexivity.
  destruct (rc =? 0); cbn [Invoker.truthy_opt negb andb Invoker.raise];
    [|reflexivity].
  destruct (truthy out); cbn [negb andb Invoker.raise]; [|reflexivity].
  destruct (Invoker.save_markdown E (fst p) out (output a)); reflexivity.
Qed.

Lemma pool_starmap_converts E a batch fs :
  pool_starmap E a batch fs = (map (converts E a) batch, fs).
Proof.
  induction batch as [|p batch IH]; [reflexivity|].
  cbn [pool_starmap map]. rewrite process_single_page_converts, IH. reflexivity.
Qed.

Lemma main_loop_own_results E a m evs st :
  Forall (own_results E a) (fst (main_loop E a m evs st)).
Proof.
  apply (main_loop_cases E a (fun m evs st r => Forall (own_results E a) (fst r)));
    clear m evs st.
  - intros. constructor.
  - intros. repeat constructor.
  - intros. assumption.
  - intros. cbn [fst]. constructor; [exact I | assumption].
  - intros ev rest st d _ _ _ _ _. cbn [fst]. constructor; [exact I|].
    rewrite <- (app_nil_r (fb_pages _)).
    apply Forall_pages_app; [|apply fill_batch_only_pages|constructor].
    intros [r|r|b rs|c]; try discriminate; intros _; exact I.
  - intros m ev rest st d r _ _ _ _ _ batch results _ -> IH.
    cbn [fst]. constructor; [exact I|].
    apply Forall_pages_app; [|apply fill_batch_only_pages|].
    + intros [r'|r'|b rs|c]; try discriminate; intros _; exact I.
    + constructor; [|constructor; [exact I | exact IH]].
      cbn [own_results]. rewrite pool_starmap_converts. reflexivity.
  - intros. assumption.
Qed.

(** ** Documents without a namespace *)

Lemma is_page_end_unqualified ns ev : unqualified ev -> is_page_end ns ev = false.
Proof.
  unfold unqualified, is_page_end, text_eqb, qualify. intros H.
  destruct (list_eq_dec ascii_dec (tag (snd ev)) (T "{" ++ py_str ns ++ T "}" ++ T "page"))
    as [Heq|Hne]; [|apply andb_false_r].
  rewrite Heq in H. discriminate.
Qed.

Lemma main_loop_unqualified E a m evs st :
  Forall unqualified evs ->
  Forall is_save (fst (main_loop E a m evs st))
  /\ (signal_at E = None -> fst (main_loop E a m evs st) = []).
Proof.
  apply (main_loop_cases E a
           (fun m evs st r =>
              Forall unqualified evs ->
              Forall is_save (fst r) /\ (signal_at E = None -> fst r = [])));
    clear m evs st.
  - intros. split; [constructor | reflexivity].
  - intros m ev rest st Hflag _. split.
    + repeat constructor. eexists. reflexivity.
    + intros Hsig. rewrite should_exit_never in Hflag by exact Hsig. discriminate.
  - intros m ev rest st r _ _ _ IH H. apply IH. inversion H; assumption.
  - intros m ev rest st r _ _ Hpage _ _ H. inversion H as [|? ? Hev ?]; subst.
    rewrite is_page_end_unqualified in Hpage by exact Hev. discriminate.
  - intros ev rest st d _ _ Hpage _ _ H. inversion H as [|? ? Hev ?]; subst.
    rewrite is_page_end_unqualified in Hpage by exact Hev. discriminate.
  - intros m ev rest st d r _ _ Hpage _ _ batch results _ _ _ H.
    inversion H as [|? ? Hev ?]; subst.
    rewrite is_page_end_unqualified in Hpage by exact Hev. discriminate.
  - intros m ev rest st r _ _ _ IH H. apply IH. inversion H; assumption.
Qed.


(** ** After the flag is seen *)

Lemma quiet_pages (l1 l2 : list action) :
  Forall (fun x => is_page_action x = true) l1 ->
  quiet_after_terminated l2 -> quiet_after_terminated (l1 ++ l2).
Proof.
  intros H Hl2. induction H as [|[r|r|b rs|c] l Hx Hl IH];
    cbn [app quiet_after_terminated]; try exact IH; try exact Hl2; discriminate.
Qed.

Lemma main_loop_quiet E a m evs st :
  (should_exit E (clock st) = true ->
   batches (fst (main_loop E a m evs st)) = []
   /\ pages_met (fst (main_loop E a m evs st)) = 0%nat)
  /\ quiet_after_terminated (fst (main_loop E a m evs st)).
Proof.
  apply (main_loop_cases E a
           (fun m evs st r =>
              (should_exit E (clock st) = true ->
               batches (fst r) = [] /\ pages_met (fst r) = 0%nat)
              /\ quiet_after_terminated (fst r))); clear m evs st.
  - intros. split; [split; reflexivity | exact I].
  - intros. split; [split; reflexivity|]. cbn [fst quiet_after_terminated].
    split; [split; reflexivity | exact I].
  - intros m ev rest st r Hflag _ _ [_ IH]. split; [congruence | exact IH].
  - intros m ev rest st r Hflag _ _ _ [_ IH]. split; [congruence | exact IH].
  - intros ev rest st d Hflag _ _ _ _. split; [congruence|].
    cbn [fst quiet_after_terminated]. rewrite <- (app_nil_r (fb_pages _)).
    apply quiet_pages; [apply fill_batch_only_pages | exact I].
  - intros m ev rest st d r Hflag _ _ _ _ batch results _ _ [IH1 IH2].
    split; [congruence|]. cbn [fst quiet_after_terminated].
    apply quiet_pages; [apply fill_batch_only_pages|].
    cbn [quiet_after_terminated]. split; [|exact IH2].
    rewrite status_save_state. cbn [clock] in IH1.
    destruct (should_exit E (S (clock st))) eqn:Hs; [|discriminate].
    intros _. apply IH1. apply (should_exit_mono E (S (clock st))); [lia | exact Hs].
  - intros m ev rest st r Hflag _ _ [_ IH]. split; [congruence | exact IH].
Qed.

End RunFacts.

(* ===================================================================== *)
(** * Properties of whole runs *)
(* ===================================================================== *)

Module RunProperties.
Import PyStr Xml Scheduler Spec LogSpec SchedulerFacts RunFacts.
Open Scope Z_scope.

(** X1: the records dispatched by a run, batch after batch, are always
    an initial part of the records [process_page] makes of the page
    elements of the document, in document order; when the run completes
    they are all of them.  So no record is dispatched twice, out of order
    or left out, whatever the batch size and wherever page elements
    without a record stand. *)
Theorem X1_records_dispatched_once_in_order
        (E : environment) (a : args) (m : bool) (root : event) (rest : list event)
        (state_file : option text) :
  is_start (fst root) = true ->
  let ns := Some (detect_namespace (tag (snd root))) in
  let r := main E a (Some {| events := root :: rest; malformed := m |}) state_file in
  (exists tail, records ns rest = dispatched (fst r) ++ tail)
  /\ (snd r = Completed -> dispatched (fst r) = records ns rest).
Proof.
  intros Hroot ns r. subst r. unfold main. cbn [events malformed].
  destruct (initial_state a (Checkpoint.load_state E (touch state_file)))
    as [p s f|why].
  2:{ split; [exists (records ns rest); reflexivity | discriminate]. }
  rewrite main_loop_equation_2. cbn [clock namespace].
  destruct (should_exit E 0).
  { split; [exists (records ns rest); reflexivity | discriminate]. }
  rewrite Hroot. cbn [is_none andb processed success failed tmp].
  match goal with
  | |- context [main_loop E a m rest ?st] =>
      destruct (main_loop_dispatched E a m rest st eq_refl) as (tail & H1 & H2)
  end.
  cbn [namespace] in H1. fold ns in H1.
  split; [exists tail; exact H1|].
  intros Hc. rewrite H1, (H2 Hc), app_nil_r. reflexivity.
Qed.

(** X1 on a dump of three pages, batch size 2. *)
Lemma X1_records_dispatched_once_in_order_witness :
  dispatched
    (fst (main Fixtures.calm (Fixtures.args_with 2 0)
            (Some {| events := (EvStart, Fixtures.root) :: tl three_pages;
                     malformed := false |}) None))
  = records (Some (detect_namespace (tag Fixtures.root))) (tl three_pages).
Proof.
  apply (proj2 (X1_records_dispatched_once_in_order Fixtures.calm (Fixtures.args_with 2 0)
                  false (EvStart, Fixtures.root) (tl three_pages) None eq_refl)).
  vm_compute. reflexivity.
Defined.

(** X2: every batch handed to the pool holds at least one record and at
    most [--batch-size] of them, and at most one when the batch size is 1
    or less (0 and negative sizes behave like 1). *)
Theorem X2_batch_within_batch_size
        (E : environment) (a : args) (input : option source) (state_file : option text) :
  Forall (fun b => (1 <= length b)%nat
                   /\ Z.of_nat (length b) <= Z.max 1 (batch_size a))
         (batches (fst (main E a input state_file))).
Proof.
  unfold main. destruct input as [src|]; [|constructor].
  destruct (initial_state a (Checkpoint.load_state E (touch state_file)));
    [apply main_loop_batch_bounds | constructor].
Qed.

(** X3: every batch but the last one of a run is full: it holds at
    least [--batch-size] records.  A batch is dispatched short only when
    the events ran out while it was being filled. *)
Theorem X3_batches_full_but_last
        (E : environment) (a : args) (input : option source) (state_file : option text) :
  Forall (fun b => batch_size a <= Z.of_nat (length b))
         (removelast (batches (fst (main E a input state_file)))).
Proof.
  unfold main. destruct input as [src|]; [|constructor].
  destruct (initial_state a (Checkpoint.load_state E (touch state_file)));
    [apply main_loop_full_batches | constructor].
Qed.


(** X5: the statuses of the checkpoints of a run go one way: after a
    checkpoint with status [terminated] every later one is [terminated].
    Without a signal every checkpoint is [in_progress]. *)
Theorem X5_status_goes_one_way
        (E : environment) (a : args) (input : option source) (state_file : option text) :
  one_way (map Checkpoint.status (saves (fst (main E a input state_file))))
  /\ (signal_at E = None ->
      Forall (fun c => Checkpoint.status c = Checkpoint.in_progress)
             (saves (fst (main E a input state_file)))).
Proof.
  unfold main. destruct input as [src|]; [|split; [exact I | constructor]].
  destruct (initial_state a (Checkpoint.load_state E (touch state_file)));
    [|split; [exact I | constructor]].
  split; [apply main_loop_one_way|].
  intros Hsig. apply main_loop_no_signal. exact Hsig.
Qed.



(** X7: the counters a run starts from, whether read from the state
    file or from [--resume-from], only offset its checkpoints.  Two runs
    over the same input that start from different counters meet the same
    page elements, dispatch the same batches with the same results and end
    the same way: no page is skipped on resumption. *)
Theorem X7_starting_counters_only_offset
        (E : environment) (a : args) (input : option source)
        (file1 file2 : option text) (p1 s1 f1 p2 s2 f2 : Z) :
  initial_state a (Checkpoint.load_state E (touch file1)) = Init p1 s1 f1 ->
  initial_state a (Checkpoint.load_state E (touch file2)) = Init p2 s2 f2 ->
  main E a input file2
  = (map (shift (p2 - p1) (s2 - s1) (f2 - f1)) (fst (main E a input file1)),
     snd (main E a input file1)).
Proof.
  intros H1 H2. unfold main. rewrite H1, H2.
  destruct input as [src|]; [|reflexivity].
  rewrite <- main_loop_shift. unfold offset.
  cbn [processed success failed namespace clock tmp].
  replace (p1 + (p2 - p1)) with p2 by lia.
  replace (s1 + (s2 - s1)) with s2 by lia.
  replace (f1 + (f2 - f1)) with f2 by lia.
  reflexivity.
Qed.

(** X7 for a first run without a checkpoint and a second one on the
    checkpoint of a cancelled run, position 40. *)
Lemma X7_starting_counters_only_offset_witness :
  main finds_checkpoint (Fixtures.args_with 2 0)
    (Some (Fixtures.well_formed three_pages)) (Some (T "{...}"))
  = (map (shift (40 - 0) (38 - 0) (2 - 0))
       (fst (main finds_checkpoint (Fixtures.args_with 2 0)
               (Some (Fixtures.well_formed three_pages)) None)),
     snd (main finds_checkpoint (Fixtures.args_with 2 0)
            (Some (Fixtures.well_formed three_pages)) None)).
Proof.
  exact (X7_starting_counters_only_offset finds_checkpoint (Fixtures.args_with 2 0)
           (Some (Fixtures.well_formed three_pages)) None (Some (T "{...}"))
           0 0 0 40 38 2 eq_refl eq_refl).
Defined.


(** X9: in a document whose tags carry no namespace no element is taken
    for a page: the run meets no page element and dispatches nothing; the
    only thing it can write is the checkpoint of a cancellation, and
    without a signal it does nothing at all. *)
Theorem X9_document_without_namespace_has_no_page
        (E : environment) (a : args) (src : source) (state_file : option text) :
  Forall unqualified (events src) ->
  Forall is_save (fst (main E a (Some src) state_file))
  /\ (signal_at E = None -> fst (main E a (Some src) state_file) = []).
Proof.
  intros H. unfold main.
  destruct (initial_state a (Checkpoint.load_state E (touch state_file)));
    [|split; [constructor | reflexivity]].
  apply main_loop_unqualified. exact H.
Qed.

(** X9 on a document with a [page] element and no namespace. *)
Lemma X9_document_without_namespace_has_no_page_witness :
  fst (main Fixtures.calm (Fixtures.args_with 2 0)
         (Some (Fixtures.well_formed bare_events)) None) = [].
Proof.
  apply (proj2 (X9_document_without_namespace_has_no_page Fixtures.calm
                  (Fixtures.args_with 2 0) (Fixtures.well_formed bare_events) None
                  ltac:(repeat constructor))).
  reflexivity.
Defined.


(** X26: a checkpoint with status [terminated] is the last thing but
    one a run does at most: after it no page element is met and no batch
    dispatched.  A batch that is running when the flag is raised is the
    last one. *)
Theorem X26_nothing_dispatched_after_terminated
        (E : environment) (a : args) (input : option source) (state_file : option text) :
  quiet_after_terminated (fst (main E a input state_file)).
Proof.
  unfold main. destruct input as [src|]; [|exact I].
  destruct (initial_state a (Checkpoint.load_state E (touch state_file)));
    [apply main_loop_quiet | exact I].
Qed.

End RunProperties.

(* ===================================================================== *)
(** * Properties of the start of a run and of the records *)
(* ===================================================================== *)

Module StringFacts.
Import PyStr.

Lemma drop_while_stops (p : ascii -> bool) (s : text) :
  match s with [] => True | c :: _ => p c = false end -> drop_while p s = s.
Proof. destruct s as [|c s]; [reflexivity|]. cbn [drop_while]. intros ->. reflexivity. Qed.

Lemma drop_while_head (p : ascii -> bool) (s : text) :
  match drop_while p s with [] => True | c :: _ => p c = false end.
Proof.
  induction s as [|c s IH]; [exact I|]. cbn [drop_while].
  destruct (p c) eqn:Hc; [exact IH | exact Hc].
Qed.

Lemma drop_while_keep_last (p : ascii -> bool) (l : text) (c : ascii) :
  p c = false -> drop_while p (l ++ [c]) = drop_while p l ++ [c].
Proof.
  intros Hc. induction l as [|x l IH]; cbn [app drop_while].
  - rewrite Hc. reflexivity.
  - destruct (p x); [exact IH | reflexivity].
Qed.

Lemma rstrip_by_cons (p : ascii -> bool) (c : ascii) (s : text) :
  p c = false -> rstrip_by p (c :: s) = c :: rstrip_by p s.
Proof.
  intros Hc. unfold rstrip_by. cbn [rev].
  rewrite drop_while_keep_last by exact Hc. rewrite rev_app_distr. reflexivity.
Qed.

Lemma rstrip_by_last (p : ascii -> bool) (s : text) (d : ascii) :
  rstrip_by p s <> [] -> p (last (rstrip_by p s) d) = false.
Proof.
  unfold rstrip_by. pose proof (drop_while_head p (rev s)) as H.
  destruct (drop_while p (rev s)) as [|c l];
    [intros H0; exfalso; apply H0; reflexivity|]. intros _.
  cbn [rev]. rewrite last_last. exact H.
Qed.

Lemma rstrip_by_stops (p : ascii -> bool) (s : text) (d : ascii) :
  s = [] \/ p (last s d) = false -> rstrip_by p s = s.
Proof.
  intros [->|H]; [reflexivity|].
  destruct s as [|c s] using rev_ind; [reflexivity|]. clear IHs.
  rewrite last_last in H. unfold rstrip_by. rewrite rev_app_distr. cbn [rev app].
  cbn [drop_while]. rewrite H. cbn [rev]. rewrite rev_involutive. reflexivity.
Qed.

Lemma rstrip_by_none (p : ascii -> bool) (s : text) :
  Forall (fun c => p c = false) s -> rstrip_by p s = s.
Proof.
  intros H. destruct s as [|c s] using rev_ind; [reflexivity|]. clear IHs.
  apply (rstrip_by_stops p _ c). right. rewrite last_last.
  apply Forall_app in H. destruct H as [_ H]. inversion H; assumption.
Qed.

Lemma strip_trimmed (t : text) :
  match strip t with
  | [] => True
  | c :: _ => is_space c = false /\ is_space (last (strip t) c) = false
  end.
Proof.
  unfold strip, lstrip_by.
  pose proof (drop_while_head is_space t) as H.
  destruct (drop_while is_space t) as [|c s]; [exact I|].
  rewrite rstrip_by_cons by exact H.
  split; [exact H|].
  rewrite <- (rstrip_by_cons is_space c s H).
  apply rstrip_by_last. rewrite rstrip_by_cons by exact H. discriminate.
Qed.

Lemma strip_fixed (t : text) :
  match t with
  | [] => True
  | c :: _ => is_space c = false /\ is_space (last t c) = false
  end ->
  strip t = t.
Proof.
  destruct t as [|c s]; [reflexivity|]. intros [Hc Hl].
  unfold strip, lstrip_by. rewrite drop_while_stops by exact Hc.
  apply (rstrip_by_stops is_space _ c). right. exact Hl.
Qed.

End StringFacts.

Module StartProperties.
Import PyStr Xml Scheduler Spec LogSpec StringFacts.
Open Scope Z_scope.

(** X10: the namespace read off the root tag is the one the tag was
    qualified with, for every namespace without braces: on the tag
    [{ns}name] line 235 yields [ns], so that the page elements are the
    [end] events tagged [{ns}page]. *)
Theorem X10_namespace_read_back (ns : text) (name : string) (ev : event) :
  none_of (T "{}") ns ->
  detect_namespace (qualify (Some ns) name) = ns
  /\ is_page_end (Some (detect_namespace (qualify (Some ns) name))) ev
     = is_end (fst ev) && text_eqb (tag (snd ev)) (T "{" ++ ns ++ T "}page").
Proof.
  intros Hns.
  assert (Hopen : Forall (fun c => Ascii.eqb "{" c = false) ns).
  { eapply Forall_impl; [|exact Hns]. intros c Hc. cbn in Hc.
    destruct (Ascii.eqb_spec "{" c) as [<-|_]; [|reflexivity].
    exfalso. apply Hc. left. reflexivity. }
  assert (Hclose : ~ In "}"%char (T "{" ++ ns)).
  { cbn [T list_ascii_of_string app]. intros [H|H]; [discriminate|].
    revert H. apply (CleanerFacts.none_of_not_in _ _ _ Hns). cbn. tauto. }
  assert (H : detect_namespace (qualify (Some ns) name) = ns).
  { unfold detect_namespace, qualify, split_head. cbn [py_str].
    replace (T "{" ++ ns ++ T "}" ++ T name)
      with ((T "{" ++ ns) ++ "}"%char :: T name)
      by (rewrite <- app_assoc; reflexivity).
    rewrite (CleanerFacts.split_once_at "}" (T "{" ++ ns) (T name) Hclose).
    cbn [fst]. unfold strip_char, lstrip_by. cbn [T list_ascii_of_string app drop_while].
    change (Ascii.eqb "{" "{") with true. cbn iota.
    rewrite drop_while_stops by (destruct Hopen; [exact I | assumption]).
    apply rstrip_by_none. exact Hopen. }
  split; [exact H|]. rewrite H. reflexivity.
Qed.

(** X10 on the namespace of the export format. *)
Lemma X10_namespace_read_back_witness :
  detect_namespace (qualify (Some Fixtures.ns) "mediawiki") = Fixtures.ns.
Proof.
  apply (proj1 (X10_namespace_read_back Fixtures.ns "mediawiki"
                  (EvEnd, Fixtures.root)
                  ltac:(repeat constructor; cbn; intuition discriminate))).
Defined.

(** X11: a state file that holds JSON with a false truth value
    ([null], [false], [0], the empty string, list or object) counts as no
    checkpoint: the run starts at [--resume-from] with no success and no
    failure. *)
Theorem X11_falsy_state_is_no_checkpoint
        (E : environment) (a : args) (src : source) (content : text) (v : json) :
  json_loads E content = Some v ->
  Checkpoint.truthy v = false ->
  main E a (Some src) (Some content)
  = main_loop E a (malformed src) (events src)
      {| processed := resume_from a; success := 0; failed := 0;
         namespace := None; clock := 0; tmp := [] |}.
Proof.
  intros Hload Hv. unfold main, initial_state, touch, Checkpoint.load_state.
  rewrite Hload, Hv. reflexivity.
Qed.

(** X11 on a state file that holds the empty object. *)
Lemma X11_falsy_state_is_no_checkpoint_witness :
  main (always_loads (JDict [])) (Fixtures.args_with 2 7)
    (Some (Fixtures.well_formed three_pages)) (Some (T "{}"))
  = main_loop (always_loads (JDict [])) (Fixtures.args_with 2 7) false three_pages
      {| processed := 7; success := 0; failed := 0;
         namespace := None; clock := 0; tmp := [] |}.
Proof.
  exact (X11_falsy_state_is_no_checkpoint (always_loads (JDict [])) (Fixtures.args_with 2 7)
           (Fixtures.well_formed three_pages) (T "{}") (JDict []) eq_refl eq_refl).
Defined.



(** X13: the title and the text of every record have no white space
    at either end, and trimming them again changes nothing; either may be
    empty. *)
Theorem X13_record_fields_are_trimmed
        (el : element) (ns : option text) (title t : text) :
  process_page el ns = Some (title, t) ->
  trimmed title /\ trimmed t /\ strip title = title /\ strip t = t.
Proof.
  rewrite ReaderFacts.process_page_fields.
  destruct (title_text ns el) as [x|]; [|discriminate].
  destruct (revision_text ns el) as [y|]; [|discriminate].
  intros H. injection H as <- <-.
  pose proof (strip_trimmed x) as Hx. pose proof (strip_trimmed y) as Hy.
  repeat split; try assumption; apply strip_fixed; assumption.
Qed.

(** X13 on a page whose title and text are given with white space around. *)
Lemma X13_record_fields_are_trimmed_witness :
  trimmed (T "Niels Bohr") /\ trimmed (T "A physicist.")
  /\ strip (T "Niels Bohr") = T "Niels Bohr" /\ strip (T "A physicist.") = T "A physicist.".
Proof.
  exact (X13_record_fields_are_trimmed
           (Fixtures.page (Some (T "  Niels Bohr ")) (Some (" " :: newline :: T "A physicist." ++ [newline])%char))
           (Some Fixtures.ns) (T "Niels Bohr") (T "A physicist.") eq_refl).
Defined.

End StartProperties.

(* ===================================================================== *)
(** * Properties of the artifact writer *)
(* ===================================================================== *)

Module WriterProperties.
Import PyStr Invoker Spec LogSpec StringFacts.

Lemma path_join_cases (a b : text) :
  path_join a b =
  if starts_with "/" b then b
  else if negb (truthy a) || Ascii.eqb (last a " "%char) "/" then a ++ b
       else a ++ T "/" ++ b.
Proof.
  destruct b as [|c b]; [reflexivity|].
  destruct c as [[] [] [] [] [] [] [] []]; reflexivity.
Qed.

Lemma drop_while_nil_iff (p : ascii -> bool) (l : text) :
  drop_while p l = [] <-> forallb p l = true.
Proof.
  induction l as [|c l IH]; cbn [drop_while forallb]; [tauto|].
  destruct (p c); cbn [andb]; [exact IH|]. split; discriminate.
Qed.

Lemma drop_while_app_keep (p : ascii -> bool) (l t : text) :
  drop_while p l <> [] -> drop_while p (l ++ t) = drop_while p l ++ t.
Proof.
  induction l as [|c l IH]; cbn [app drop_while]; [congruence|].
  destruct (p c); [exact IH | reflexivity].
Qed.

Lemma forallb_rev (p : ascii -> bool) (l : text) : forallb p (rev l) = forallb p l.
Proof.
  induction l as [|c l IH]; [reflexivity|]. cbn [rev forallb].
  rewrite forallb_app, IH. cbn [forallb]. rewrite andb_true_r. apply andb_comm.
Qed.

Lemma rstrip_by_keeps_head (p : ascii -> bool) (c : ascii) (s : text) :
  forallb p s = false -> rstrip_by p (c :: s) = c :: rstrip_by p s.
Proof.
  intros H. unfold rstrip_by. cbn [rev]. rewrite drop_while_app_keep.
  - rewrite rev_app_distr. reflexivity.
  - intros Hnil. apply drop_while_nil_iff in Hnil. rewrite forallb_rev in Hnil. congruence.
Qed.

Lemma rfind_slash_cut_head (c : ascii) (s : text) :
  rfind_slash_cut (c :: s) = []
  \/ exists h, rfind_slash_cut (c :: s) = c :: h.
Proof.
  cbn [rfind_slash_cut]. destruct (mem "/" s); [right; eexists; reflexivity|].
  destruct (Ascii.eqb c "/"); [right; eexists; reflexivity | left; reflexivity].
Qed.

(** The directory part of a path starts as the path does. *)
Lemma dirname_head (c : ascii) (s : text) :
  dirname (c :: s) = [] \/ exists h, dirname (c :: s) = c :: h.
Proof.
  unfold dirname.
  destruct (rfind_slash_cut_head c s) as [->|[h ->]]; [left; reflexivity|].
  destruct (truthy (c :: h) && negb (all_slashes (c :: h))) eqn:Hcond;
    [|right; eexists; reflexivity].
  cbn [truthy andb all_slashes forallb] in Hcond.
  destruct (Ascii.eqb_spec "/" c) as [<-|Hc].
  - cbn [andb] in Hcond. apply negb_true_iff in Hcond.
    rewrite rstrip_by_keeps_head by exact Hcond. right. eexists. reflexivity.
  - rewrite rstrip_by_cons; [right; eexists; reflexivity|].
    destruct (Ascii.eqb_spec "/" c); [contradiction | reflexivity].
Qed.

Lemma dirname_absolute (s : text) :
  starts_with "/" (dirname ("/"%char :: s)) = true.
Proof.
  unfold dirname.
  assert (H : exists h, rfind_slash_cut ("/"%char :: s) = "/"%char :: h).
  { cbn [rfind_slash_cut]. destruct (mem "/" s); eexists; reflexivity. }
  destruct H as [h ->].
  destruct (truthy ("/"%char :: h) && negb (all_slashes ("/"%char :: h))) eqn:Hcond;
    [|reflexivity].
  cbn [truthy andb all_slashes forallb] in Hcond.
  change (Ascii.eqb "/" "/") with true in Hcond. cbn [andb] in Hcond.
  apply negb_true_iff in Hcond. rewrite rstrip_by_keeps_head by exact Hcond.
  reflexivity.
Qed.

(** X14: a title that starts with a slash is written outside the
    output directory: the directory made and the file written are the
    absolute paths read off the title, whatever [--output] is. *)
Theorem X14_absolute_title_leaves_output_directory
        (E : environment) (title content output_dir : text) :
  let url := replace " " "_" ("/"%char :: title) in
  save_markdown E ("/"%char :: title) content output_dir
  = if makedirs_ok E (dirname url) then
      write_ok E (url ++ T ".md")
        (T "---" ++ [newline] ++ T "title: " ++ ("/"%char :: title) ++ [newline]
         ++ T "permalink: /" ++ url ++ T "/" ++ [newline] ++ T "---"
         ++ [newline; newline] ++ content)
    else false.
Proof.
  intros url. unfold save_markdown. fold url.
  assert (Hdir : starts_with "/" (dirname url) = true)
    by exact (dirname_absolute (replace " " "_" title)).
  assert (Hfile : starts_with "/" (url ++ T ".md") = true) by reflexivity.
  rewrite !path_join_cases, Hdir, Hfile. reflexivity.
Qed.

(** X15: for any other title, and an output directory that is not empty
    and does not end with a slash, the file is written below the output
    directory, at [output/url.md] with [url] the title with every space
    turned into an underscore, after the directory [output/dirname(url)]
    was made. *)
Theorem X15_relative_title_stays_below_output_directory
        (E : environment) (title content output_dir : text) :
  starts_with "/" title = false ->
  output_dir <> [] ->
  Ascii.eqb (last output_dir " "%char) "/" = false ->
  let url := replace " " "_" title in
  save_markdown E title content output_dir
  = if makedirs_ok E (output_dir ++ T "/" ++ dirname url) then
      write_ok E (output_dir ++ T "/" ++ url ++ T ".md")
        (T "---" ++ [newline] ++ T "title: " ++ title ++ [newline]
         ++ T "permalink: /" ++ url ++ T "/" ++ [newline] ++ T "---"
         ++ [newline; newline] ++ content)
    else false.
Proof.
  intros Htitle Hout Hlast url. unfold save_markdown. fold url.
  assert (Hurl : starts_with "/" url = false).
  { subst url. destruct title as [|c t]; [reflexivity|]. cbn [replace map starts_with] in *.
    destruct (Ascii.eqb_spec c " ") as [->|_]; [reflexivity | exact Htitle]. }
  assert (Hdir : starts_with "/" (dirname url) = false).
  { destruct url as [|c u]; [reflexivity|].
    destruct (dirname_head c u) as [->|[h ->]]; [reflexivity | exact Hurl]. }
  assert (Hfile : starts_with "/" (url ++ T ".md") = false).
  { destruct url as [|c u]; [reflexivity | exact Hurl]. }
  rewrite !path_join_cases, Hdir, Hfile, Hlast.
  destruct output_dir as [|c o]; [congruence|]. reflexivity.
Qed.

(** X15 on the title of a subpage and the default output directory. *)
Lemma X15_relative_title_stays_below_output_directory_witness :
  save_markdown Fixtures.calm (T "Niels Bohr/Early life") (T "text") (T "data")
  = if makedirs_ok Fixtures.calm (T "data" ++ T "/" ++ dirname (replace " " "_" (T "Niels Bohr/Early life")))
    then
      write_ok Fixtures.calm (T "data" ++ T "/" ++ replace " " "_" (T "Niels Bohr/Early life") ++ T ".md")
        (T "---" ++ [newline] ++ T "title: " ++ T "Niels Bohr/Early life" ++ [newline]
         ++ T "permalink: /" ++ replace " " "_" (T "Niels Bohr/Early life") ++ T "/" ++ [newline]
         ++ T "---" ++ [newline; newline] ++ T "text")
    else false.
Proof.
  exact (X15_relative_title_stays_below_output_directory Fixtures.calm
           (T "Niels Bohr/Early life") (T "text") (T "data")
           eq_refl ltac:(discriminate) eq_refl).
Defined.

End WriterProperties.

(* ===================================================================== *)
(** * Properties of the rules of the cleaner *)
(* ===================================================================== *)

Module RuleFacts.
Import PyStr Re Cleaner Spec RuleSpec ReFacts CleanerFacts PieceFacts.

(** ** Scanning a text with one place of interest *)

Lemma sub_one_match (a : ascii) (p : pattern) (r : replacement) (pre m post g : text) :
  hd_error p = Some (Chr a) ->
  Forall (fun c => c <> a) pre ->
  m <> [] ->
  match_here p (m ++ post) = Some (length m, g) ->
  sub p r post = post ->
  sub p r (pre ++ m ++ post) = pre ++ expand r g ++ post.
Proof.
  intros Hp Hpre Hm Hmatch Hpost.
  destruct p as [|i p']; [discriminate|]. injection Hp as ->.
  unfold sub in *. rewrite sub_from_copy_run by exact Hpre.
  rewrite (sub_from_match_app _ _ _ _ g Hm Hmatch), Hpost. reflexivity.
Qed.

Lemma sub_one_miss (a : ascii) (p : pattern) (r : replacement) (pre : text) (c : ascii)
      (rest : text) :
  hd_error p = Some (Chr a) ->
  Forall (fun c => c <> a) pre ->
  match_here p (c :: rest) = None ->
  sub p r rest = rest ->
  sub p r (pre ++ c :: rest) = pre ++ c :: rest.
Proof.
  intros Hp Hpre Hmiss Hrest.
  destruct p as [|i p']; [discriminate|]. injection Hp as ->.
  unfold sub in *. rewrite sub_from_copy_run by exact Hpre.
  rewrite sub_from_copy by exact Hmiss. rewrite Hrest. reflexivity.
Qed.

Lemma no_pair_without_first (a b : ascii) (s : text) :
  ~ In a s -> has_pair a b s = false.
Proof.
  intros H. rewrite <- (app_nil_r s). apply no_pair_app_first; [exact H | reflexivity].
Qed.

Lemma has_pair_prefix (a b : ascii) (l u : text) :
  has_pair a b (l ++ u) = false -> has_pair a b l = false.
Proof.
  induction l as [|c l IH]; [reflexivity|]. cbn [app has_pair].
  intros H. apply orb_false_iff in H. destruct H as [H1 H2].
  rewrite (IH H2), orb_false_r.
  destruct (Ascii.eqb c a); [|reflexivity]. cbn [andb] in *.
  destruct l as [|d l]; [reflexivity | exact H1].
Qed.

(** A text that has no [b] in its first part [l] and continues with
    [b] can only start with [l] inside that first part. *)
Lemma app_prefix_before (b : ascii) (l : text) :
  forall s t u, ~ In b l -> s ++ b :: t = l ++ u -> exists s', s = l ++ s'.
Proof.
  induction l as [|x l IH]; intros s t u Hb H; [exists s; reflexivity|].
  destruct s as [|y s]; cbn [app] in H.
  - injection H as -> _. exfalso. apply Hb. left. reflexivity.
  - injection H as -> H. destruct (IH s t u) as [s' ->]; [|exact H|].
    + intros Hin. apply Hb. right. exact Hin.
    + exists s'. reflexivity.
Qed.

Lemma lazy_none (p : ascii -> bool) (k : text -> nat -> option span) (c : ascii)
      (t : text) (l : text) :
  (forall l1 l2 pos, l = l1 ++ l2 -> k (l2 ++ c :: t) pos = None) ->
  p c = false ->
  forall pos, lazy p k (l ++ c :: t) pos = None.
Proof.
  intros Hk Hc. induction l as [|y l IH]; intros pos.
  - pose proof (Hk [] [] pos eq_refl) as H0. cbn [app] in H0.
    cbn [app lazy]. rewrite H0, Hc. reflexivity.
  - pose proof (Hk [] (y :: l) pos eq_refl) as H0. cbn [app] in H0.
    cbn [app lazy]. rewrite H0.
    destruct (p y); [|reflexivity]. apply IH.
    intros l1 l2 pos' ->. apply (Hk (y :: l1) l2 pos'). reflexivity.
Qed.

(** ** Membership in the texts used below *)

Lemma not_in_neq (a : ascii) (t : text) : ~ In a t -> Forall (fun c => c <> a) t.
Proof. intros H. apply Forall_forall. intros c Hc ->. exact (H Hc). Qed.

(** ** The rules that leave a text alone *)

Lemma template_rules_need_pair (x : text) :
  has_pair "{" "{" x = false ->
  sub p_short_description r_short_description x = x
  /\ sub p_use r_use x = x
  /\ sub p_template r_template x = x.
Proof.
  intros H. split; [|split].
  - exact (sub_id_needs_pair [] "{" "{" (List.tl (List.tl p_short_description)) _ x H).
  - exact (sub_id_needs_pair [] "{" "{" (List.tl (List.tl p_use)) _ x H).
  - exact (sub_id_needs_pair [] "{" "{" (List.tl (List.tl p_template)) _ x H).
Qed.

(** The cleaner on a text that the first rule leaves alone and the row
    rule turns into a text without quotes, brackets and templates. *)
Lemma clean_via_row (x x' : text) :
  sub p_row r_row x = x' ->
  ~ In dquote x ->
  ~ In dquote x' -> ~ In "<"%char x' -> ~ In "["%char x' ->
  has_pair "{" "{" x' = false ->
  clean_wiki_markup x = x'.
Proof.
  intros Hrow Hq Hq' Ha Hb Hpair.
  destruct (template_rules_need_pair x' Hpair) as (H5 & H6 & H9).
  unfold clean_wiki_markup, patterns. cbn [fold_left fst snd].
  rewrite (sub_id_needs_char dquote p_table r_table x) by (in_pattern || exact Hq).
  rewrite Hrow.
  rewrite (sub_id_needs_char dquote p_valign r_valign x') by (in_pattern || exact Hq').
  rewrite (sub_id_needs_char dquote p_sheets r_sheets x') by (in_pattern || exact Hq').
  rewrite H5, H6.
  rewrite (sub_id_needs_char "<" p_ref_dq r_ref x') by (in_pattern || exact Ha).
  rewrite (sub_id_needs_char "<" p_ref_sq r_ref x') by (in_pattern || exact Ha).
  rewrite H9.
  apply (sub_id_needs_char "[" p_wikilink r_wikilink x'); [in_pattern | exact Hb].
Qed.

(** ** The row rule *)

Lemma match_here_row_end (ws : text) :
  Forall (fun c => is_space c = true) ws ->
  match_here p_row (T "|-" ++ ws) = Some (length (T "|-" ++ ws), []).
Proof.
  intros Hws. unfold match_here.
  change p_row with (map Chr (T "|-") ++ [Star space; Eos]).
  rewrite match_items_lit. cbn [match_items length Nat.add T list_ascii_of_string].
  rewrite <- (app_nil_r ws) at 1.
  rewrite (greedy_run space _ ws Hws [] 2 (length ws + 2, 0, 0)).
  - rewrite length_app. cbn [length T list_ascii_of_string]. f_equal. f_equal. lia.
  - exact I.
  - cbn [at_eos match_items]. f_equal. f_equal. f_equal. lia.
Qed.

Lemma sub_row_trailing (y ws : text) :
  Forall (fun c => is_space c = true) ws ->
  sub p_row r_row (y ++ T "|-" ++ ws) = y ++ T "|-".
Proof.
  intros Hws. unfold sub. induction y as [|c y IH].
  - cbn [app]. rewrite <- (app_nil_r (T "|-" ++ ws)).
    rewrite (sub_from_match_app p_row r_row (T "|-" ++ ws) [] []).
    + reflexivity.
    + discriminate.
    + rewrite app_nil_r. apply match_here_row_end. exact Hws.
  - cbn [app]. rewrite sub_from_copy; [rewrite IH; reflexivity|].
    destruct (match_here p_row (c :: y ++ T "|-" ++ ws)) as [m|] eqn:Hm; [|reflexivity].
    exfalso. apply match_here_row_inv in Hm. destruct Hm as (ws' & Heq & Hws').
    cbn [T list_ascii_of_string app] in Heq. injection Heq as -> Heq.
    destruct y as [|d y]; cbn [app] in Heq; [discriminate|].
    injection Heq as -> Heq. subst ws'.
    apply Forall_app in Hws'. destruct Hws' as [_ Hws'].
    inversion Hws' as [|? ? Hpipe _]. discriminate Hpipe.
Qed.

Lemma last_default (l : text) (d1 d2 : ascii) : l <> [] -> last l d1 = last l d2.
Proof.
  induction l as [|c l IH]; [congruence|]. intros _.
  destruct l as [|d l]; [reflexivity|]. cbn [last] in *. apply IH. discriminate.
Qed.

Lemma sub_row_unchanged (x : text) :
  match x with [] => True | c :: _ => is_space (last x c) = false end ->
  sub p_row r_row x = x.
Proof.
  unfold sub. induction x as [|c x IH]; [reflexivity|]. intros Hlast.
  destruct (match_here p_row (c :: x)) as [m|] eqn:Hm.
  - apply match_here_row_inv in Hm. destruct Hm as (ws & Heq & Hws).
    destruct ws as [|w ws] using rev_ind.
    + rewrite Heq. reflexivity.
    + exfalso. rewrite Heq, app_assoc, last_last in Hlast.
      apply Forall_app in Hws. destruct Hws as [_ Hws].
      inversion Hws; congruence.
  - rewrite sub_from_copy by exact Hm. f_equal. apply IH.
    destruct x as [|d x]; [exact I|].
    rewrite (last_default (d :: x) d c) by discriminate. exact Hlast.
Qed.


(** ** The rules in groups *)

Lemma guarded_closing (s post : text) :
  Forall (fun c => c <> "|"%char) post ->
  guarded "}" (s ++ T "}}" ++ post) = true.
Proof.
  intros Hpost. apply guarded_before; [left; reflexivity|].
  cbn [T list_ascii_of_string app guarded].
  change (guarded "}" ("}"%char :: "}"%char :: post))
    with ((true && (true && guarded "}" post))%bool).
  cbn [andb]. rewrite <- (app_nil_r post).
  apply guarded_no_pipe; [exact Hpost | reflexivity].
Qed.

(** The two rules for references and the rule for links on a text
    without an opening angle or square bracket. *)
Lemma reference_and_link_rules_id (x : text) :
  ~ In "<"%char x -> ~ In "["%char x ->
  sub p_ref_dq r_ref x = x /\ sub p_ref_sq r_ref x = x
  /\ sub p_wikilink r_wikilink x = x.
Proof.
  intros Ha Hb. split; [|split].
  - apply (sub_id_needs_char "<"); [in_pattern | exact Ha].
  - apply (sub_id_needs_char "<"); [in_pattern | exact Ha].
  - apply (sub_id_needs_char "["); [in_pattern | exact Hb].
Qed.

(** The three rules with a double quote in their pattern. *)
Lemma quoted_rules_id (x : text) :
  ~ In dquote x ->
  sub p_table r_table x = x /\ sub p_valign r_valign x = x
  /\ sub p_sheets r_sheets x = x.
Proof.
  intros Hq. split; [|split];
    apply (sub_id_needs_char dquote); solve [in_pattern | exact Hq].
Qed.

(** ** Templates *)

Lemma match_here_after_braces (pfx : string) (r : pattern) (body post : text) :
  ~ In "}"%char (T pfx) ->
  (forall t pos gs ge, match_items r ("}"%char :: t) pos gs ge = None) ->
  ~ begins pfx body ->
  match_here (map Chr (T "{{" ++ T pfx) ++ r) (T "{{" ++ body ++ T "}}" ++ post) = None.
Proof.
  intros Hpfx Hr Hbody. unfold match_here.
  destruct (match_items _ _ 0 0 0) as [sp|] eqn:H; [exfalso | reflexivity].
  apply match_items_lit_inv in H. destruct H as (t & Heq & H).
  cbn [T list_ascii_of_string app] in Heq. injection Heq as Heq.
  change ("}"%char :: "}"%char :: post) with (T "}}" ++ post) in Heq.
  change (body ++ T "}}" ++ post) with (body ++ "}"%char :: T "}" ++ post) in Heq.
  destruct (app_prefix_before "}" (T pfx) body (T "}" ++ post) t Hpfx Heq) as [s' ->].
  rewrite <- app_assoc in Heq. apply app_inv_head in Heq. subst t.
  destruct s' as [|c s'].
  - cbn [app T list_ascii_of_string] in H. rewrite Hr in H. discriminate.
  - apply Hbody. exists (c :: s'). split; [discriminate | reflexivity].
Qed.

Lemma inside_any_but (b : text) :
  none_of (T "{}<[" ++ [dquote]) b -> Forall (fun c => any_but "}" c = true) b.
Proof.
  intros H. eapply Forall_impl; [|exact (none_of_neq _ _ "}" H ltac:(cbn; tauto))].
  intros c Hc. unfold any_but. apply negb_true_iff. apply Ascii.eqb_neq. exact Hc.
Qed.

Lemma match_here_use (u post : text) :
  inside_braces u ->
  match_here p_use (T "{{Use " ++ u ++ T "}}" ++ post)
  = Some (length (T "{{Use " ++ u ++ T "}}"), []).
Proof.
  intros [Hne Hu]. destruct u as [|c u]; [congruence|].
  pose proof (inside_any_but _ Hu) as Hclass.
  inversion Hclass as [|? ? Hc Hu']; subst.
  unfold match_here.
  change p_use with (map Chr (T "{{Use ") ++ [Plus (any_but "}"); Chr "}"; Chr "}"]).
  rewrite match_items_lit.
  cbn [match_items app length Nat.add T list_ascii_of_string].
  rewrite Hc.
  rewrite (greedy_run (any_but "}") _ u Hu' ("}"%char :: "}"%char :: post) 7
             (length u + 9, 0, 0)).
  - f_equal. f_equal. rewrite length_app. cbn [length]. lia.
  - reflexivity.
  - cbn [match_items]. change (Ascii.eqb "}" "}") with true. cbn iota.
    f_equal. f_equal. f_equal. lia.
Qed.

Lemma match_here_template (b post : text) :
  inside_braces b ->
  match_here p_template (T "{{" ++ b ++ T "}}" ++ post)
  = Some (length (T "{{" ++ b ++ T "}}"), b).
Proof.
  intros [Hne Hb]. destruct b as [|c b]; [congruence|].
  pose proof (inside_any_but _ Hb) as Hclass.
  inversion Hclass as [|? ? Hc Hb']; subst.
  unfold match_here.
  change p_template
    with (map Chr (T "{{") ++ [Open; Plus (any_but "}"); Close; Chr "}"; Chr "}"]).
  rewrite match_items_lit.
  cbn [match_items app length Nat.add T list_ascii_of_string].
  rewrite Hc.
  rewrite (greedy_run (any_but "}") _ b Hb' ("}"%char :: "}"%char :: post) 3
             (length b + 5, 2, 3 + length b)).
  - f_equal. f_equal.
    + rewrite length_app. cbn [length]. lia.
    + replace (3 + length b - 2) with (length (c :: b)) by (cbn [length]; lia).
      cbn [skipn]. apply (firstn_exact (c :: b) ("}"%char :: "}"%char :: post)).
  - reflexivity.
  - cbn [match_items]. change (Ascii.eqb "}" "}") with true. cbn iota.
    f_equal. f_equal. f_equal. lia.
Qed.

(** A template rule that does not match at the braces leaves a text
    with one template as it is. *)
Lemma sub_misses_template (p : pattern) (r : replacement) (pre b post : text) :
  hd_error p = Some (Chr "{"%char) ->
  hd_error (List.tl p) = Some (Chr "{"%char) ->
  ~ In "{"%char pre -> ~ In "{"%char b -> ~ In "{"%char post ->
  match_here p (T "{{" ++ b ++ T "}}" ++ post) = None ->
  sub p r (pre ++ T "{{" ++ b ++ T "}}" ++ post) = pre ++ T "{{" ++ b ++ T "}}" ++ post.
Proof.
  intros Hp1 Hp2 Hpre Hb Hpost Hmiss.
  apply (sub_one_miss "{" p r pre "{" (T "{" ++ b ++ T "}}" ++ post) Hp1
           (not_in_neq _ _ Hpre) Hmiss).
  destruct p as [|i1 [|i2 p']]; try discriminate.
  cbn [hd_error List.tl] in Hp1, Hp2. injection Hp1 as ->. injection Hp2 as ->.
  apply (sub_id_needs_pair [] "{" "{" p' r).
  cbn [T list_ascii_of_string app has_pair].
  change (Ascii.eqb "{" "{") with true. cbn [andb].
  replace (starts_with "{" (b ++ "}"%char :: "}"%char :: post)) with false.
  - cbn [orb]. apply no_pair_without_first.
    apply not_in_app; [exact Hb|]. intros [H|[H|H]]; try discriminate. exact (Hpost H).
  - symmetry. destruct b as [|c b]; [reflexivity|]. cbn [app starts_with].
    apply Ascii.eqb_neq. intros ->. apply Hb. left. reflexivity.
Qed.


(** ** The three rules for the constructs of a spreadsheet export *)

Lemma first_occurrence (q : ascii) (s1 : text) :
  forall s2 t1 t2,
    ~ In q s1 -> ~ In q s2 -> s1 ++ q :: t1 = s2 ++ q :: t2 -> s1 = s2.
Proof.
  induction s1 as [|c s1 IH]; intros [|d s2] t1 t2 H1 H2 H; cbn [app] in H.
  - reflexivity.
  - injection H as -> _. exfalso. apply H2. left. reflexivity.
  - injection H as -> _. exfalso. apply H1. left. reflexivity.
  - injection H as -> H. f_equal. apply (IH s2 t1 t2); [| |exact H].
    + intros Hin. apply H1. right. exact Hin.
    + intros Hin. apply H2. right. exact Hin.
Qed.

(** A pattern that starts with the literal [l] and then [q] cannot match
    before the first [q] of the text has [l] in front of it. *)
Lemma sub_from_copy_before (l : text) (q : ascii) (p' : pattern) (r : replacement)
      (pre rest : text) :
  ~ In q pre -> ~ In q l ->
  sub_from (map Chr l ++ Chr q :: p') r 0 (pre ++ l ++ q :: rest)
  = pre ++ sub_from (map Chr l ++ Chr q :: p') r 0 (l ++ q :: rest).
Proof.
  intros Hpre Hl. induction pre as [|c pre IH]; [reflexivity|].
  cbn [app]. rewrite sub_from_copy.
  - f_equal. apply IH. intros Hin. apply Hpre. right. exact Hin.
  - unfold match_here.
    destruct (match_items _ (c :: pre ++ l ++ q :: rest) 0 0 0) as [sp|] eqn:H;
      [exfalso | reflexivity].
    apply match_items_lit_inv in H. destruct H as (t & Heq & H).
    cbn [match_items] in H. destruct t as [|d t]; [discriminate|].
    destruct (Ascii.eqb_spec q d) as [<-|_]; [|discriminate].
    change (c :: pre ++ l ++ q :: rest) with ((c :: pre) ++ l ++ q :: rest) in Heq.
    rewrite app_assoc in Heq.
    apply first_occurrence in Heq; [| |exact Hl].
    + apply (f_equal (@length ascii)) in Heq. rewrite length_app in Heq.
      cbn [length] in Heq. lia.
    + apply not_in_app; [exact Hpre | exact Hl].
Qed.

Lemma plain_any_but_dquote (v : text) :
  Pieces.plain v -> Forall (fun c => any_but dquote c = true) v.
Proof. apply plain_any_but. cbn. tauto. Qed.

Lemma match_here_table_start (v post : text) :
  attribute_value v ->
  match_here p_table (broken_table_start v ++ post)
  = Some (length (broken_table_start v), T "text-align:" ++ v).
Proof.
  intros [Hne Hv]. destruct v as [|c v]; [congruence|].
  pose proof (plain_any_but_dquote _ Hv) as Hclass.
  inversion Hclass as [|? ? Hc Hv']; subst.
  unfold match_here, broken_table_start. rewrite <- !app_assoc.
  change p_table
    with (map Chr (T "{| class=" ++ [dquote] ++ T "wikitable sortable mw-collapsible"
                   ++ [dquote] ++ T " ; ")
          ++ Open :: map Chr (T "text-align:")
          ++ [Plus (any_but dquote); Close; Chr dquote]).
  change (T "{| class=" ++ [dquote] ++ T "wikitable sortable mw-collapsible" ++ [dquote]
          ++ T " ; text-align:" ++ (c :: v) ++ [dquote] ++ post)
    with ((T "{| class=" ++ [dquote] ++ T "wikitable sortable mw-collapsible"
           ++ [dquote] ++ T " ; ")
          ++ T "text-align:" ++ (c :: v) ++ dquote :: post).
  rewrite match_items_lit. cbn [match_items].
  rewrite match_items_lit. cbn [match_items app]. rewrite Hc.
  cbn [length Nat.add T list_ascii_of_string app].
  rewrite (greedy_run (any_but dquote) _ v Hv' (dquote :: post) 59
             (length v + 60, 47, 59 + length v)).
  - f_equal. f_equal.
    + rewrite !length_app. cbn [length]. lia.
    + replace (59 + length v - 47) with (length (T "text-align:" ++ c :: v))
        by (rewrite length_app; cbn [length T list_ascii_of_string]; lia).
      cbn [skipn].
      apply (firstn_exact (T "text-align:" ++ c :: v) (dquote :: post)).
  - reflexivity.
  - cbn [match_items]. change (Ascii.eqb dquote dquote) with true. cbn iota.
    f_equal. f_equal. f_equal. lia.
Qed.

Lemma match_here_cell_style (post : text) :
  match_here p_valign (broken_cell_style ++ post)
  = Some (length broken_cell_style, []).
Proof.
  unfold match_here.
  change p_valign with (map Chr broken_cell_style ++ []).
  rewrite match_items_lit. reflexivity.
Qed.

Lemma match_here_sheets_value (v post : text) :
  attribute_value v ->
  match_here p_sheets (broken_sheets_value v ++ post)
  = Some (length (broken_sheets_value v), v).
Proof.
  intros [Hne Hv]. destruct v as [|c v]; [congruence|].
  pose proof (plain_any_but_dquote _ Hv) as Hclass.
  inversion Hclass as [|? ? Hc Hv']; subst.
  unfold match_here, broken_sheets_value. rewrite <- !app_assoc.
  change p_sheets
    with (map Chr (T "data-sheets-value=" ++ [dquote] ++ T "{" ++ [dquote] ++ T "1"
                   ++ [dquote] ++ T ":2," ++ [dquote] ++ T "2" ++ [dquote] ++ T ":"
                   ++ [dquote])
          ++ [Open; Plus (any_but dquote); Close; Chr dquote; Chr "}"; Chr dquote]).
  change (T "data-sheets-value=" ++ [dquote] ++ T "{" ++ [dquote] ++ T "1" ++ [dquote]
          ++ T ":2," ++ [dquote] ++ T "2" ++ [dquote] ++ T ":" ++ [dquote] ++ (c :: v)
          ++ [dquote] ++ T "}" ++ [dquote] ++ post)
    with ((T "data-sheets-value=" ++ [dquote] ++ T "{" ++ [dquote] ++ T "1"
           ++ [dquote] ++ T ":2," ++ [dquote] ++ T "2" ++ [dquote] ++ T ":"
           ++ [dquote])
          ++ (c :: v) ++ dquote :: "}"%char :: dquote :: post).
  rewrite match_items_lit. cbn [match_items app]. rewrite Hc.
  cbn [length Nat.add T list_ascii_of_string app].
  rewrite (greedy_run (any_but dquote) _ v Hv' (dquote :: "}"%char :: dquote :: post) 32
             (length v + 35, 31, 32 + length v)).
  - f_equal. f_equal.
    + rewrite !length_app. cbn [length]. lia.
    + replace (32 + length v - 31) with (length (c :: v)) by (cbn [length]; lia).
      cbn [skipn].
      apply (firstn_exact (c :: v) (dquote :: "}"%char :: dquote :: post)).
  - reflexivity.
  - cbn [match_items]. change (Ascii.eqb dquote dquote) with true.
    change (Ascii.eqb "}" "}") with true. cbn iota.
    f_equal. f_equal. f_equal. lia.
Qed.

End RuleFacts.

Module RuleProperties.
Import PyStr Re Cleaner Spec RuleSpec ReFacts CleanerFacts PieceFacts RuleFacts.

Ltac absent :=
  unfold around_link, inside_braces, link_line, table_text, attribute_value,
    Pieces.plain in *;
  repeat first
    [ assumption
    | apply not_in_app
    | (eapply none_of_not_in; [eassumption | cbn; tauto])
    | (cbn; intuition discriminate) ].

(** X16: a text without brace, angle bracket, square bracket and pipe
    comes out of the cleaner as it went in. *)
Theorem X16_prose_is_unchanged (t : text) :
  none_of (T "{<[|") t -> clean_wiki_markup t = t.
Proof.
  intros H.
  assert (Hbrace : ~ In "{"%char t) by (apply (none_of_not_in _ _ _ H); cbn; tauto).
  assert (Hangle : ~ In "<"%char t) by (apply (none_of_not_in _ _ _ H); cbn; tauto).
  assert (Hsquare : ~ In "["%char t) by (apply (none_of_not_in _ _ _ H); cbn; tauto).
  assert (Hpipe : ~ In "|"%char t) by (apply (none_of_not_in _ _ _ H); cbn; tauto).
  unfold clean_wiki_markup, patterns. cbn [fold_left fst snd].
  rewrite (sub_id_needs_char "{" p_table r_table t) by (in_pattern || exact Hbrace).
  rewrite (sub_id_needs_char "|" p_row r_row t) by (in_pattern || exact Hpipe).
  rewrite (sub_id_needs_char "|" p_valign r_valign t) by (in_pattern || exact Hpipe).
  rewrite (sub_id_needs_char "{" p_sheets r_sheets t) by (in_pattern || exact Hbrace).
  rewrite (sub_id_needs_char "{" p_short_description r_short_description t)
    by (in_pattern || exact Hbrace).
  rewrite (sub_id_needs_char "{" p_use r_use t) by (in_pattern || exact Hbrace).
  rewrite (sub_id_needs_char "<" p_ref_dq r_ref t) by (in_pattern || exact Hangle).
  rewrite (sub_id_needs_char "<" p_ref_sq r_ref t) by (in_pattern || exact Hangle).
  rewrite (sub_id_needs_char "{" p_template r_template t) by (in_pattern || exact Hbrace).
  apply (sub_id_needs_char "[" p_wikilink r_wikilink t); [in_pattern | exact Hsquare].
Qed.

(** X16 on a sentence with quotes and a closing bracket. *)
Lemma X16_prose_is_unchanged_witness :
  clean_wiki_markup (T "It's 'so' } ok]") = T "It's 'so' } ok]".
Proof.
  apply (X16_prose_is_unchanged (T "It's 'so' } ok]")).
  repeat constructor; cbn; intuition discriminate.
Defined.

(** X17: the row rule works at the end of the text only.  On a text
    with braces and pipes but without template, bracket and double quote,
    that ends with a row separator [|-] and white space, the cleaner
    removes that white space and changes nothing else. *)
Theorem X17_white_space_after_last_row_separator_removed (y ws : text) :
  table_text (y ++ T "|-" ++ ws) ->
  Forall (fun c => is_space c = true) ws ->
  clean_wiki_markup (y ++ T "|-" ++ ws) = y ++ T "|-".
Proof.
  intros [Hnone Hpair] Hws.
  assert (Hnone' : none_of (T "<[" ++ [dquote]) (y ++ T "|-")).
  { unfold none_of in *. rewrite app_assoc in Hnone.
    apply Forall_app in Hnone. apply Hnone. }
  apply clean_via_row.
  - apply sub_row_trailing. exact Hws.
  - apply (none_of_not_in _ _ _ Hnone). cbn. tauto.
  - apply (none_of_not_in _ _ _ Hnone'). cbn. tauto.
  - apply (none_of_not_in _ _ _ Hnone'). cbn. tauto.
  - apply (none_of_not_in _ _ _ Hnone'). cbn. tauto.
  - rewrite app_assoc in Hpair. exact (has_pair_prefix _ _ _ _ Hpair).
Qed.

(** X17 on a table whose last row separator is followed by blanks and
    a line feed. *)
Lemma X17_white_space_after_last_row_separator_removed_witness :
  clean_wiki_markup ((T "{|" ++ [newline] ++ T "| a" ++ [newline]) ++ T "|-"
                     ++ (T "  " ++ [newline]))
  = (T "{|" ++ [newline] ++ T "| a" ++ [newline]) ++ T "|-".
Proof.
  apply (X17_white_space_after_last_row_separator_removed
           (T "{|" ++ [newline] ++ T "| a" ++ [newline]) (T "  " ++ [newline])).
  - split; [repeat constructor; cbn; intuition discriminate | reflexivity].
  - repeat constructor.
Defined.

(** X18: on such a text that does not end with white space the cleaner
    changes nothing: a row separator followed by white space and then
    more text, as between the rows of a table, keeps its white space. *)
Theorem X18_row_separator_inside_text_unchanged (y : text) (c : ascii) :
  table_text (y ++ [c]) ->
  is_space c = false ->
  clean_wiki_markup (y ++ [c]) = y ++ [c].
Proof.
  intros [Hnone Hpair] Hc.
  apply clean_via_row; try (apply (none_of_not_in _ _ _ Hnone); cbn; tauto);
    [|exact Hpair].
  apply sub_row_unchanged.
  destruct (y ++ [c]) as [|d x] eqn:Hx; [exact I|].
  rewrite <- Hx, last_last. exact Hc.
Qed.

(** X18 on a table with two rows. *)
Lemma X18_row_separator_inside_text_unchanged_witness :
  clean_wiki_markup ((T "{|" ++ [newline] ++ T "|-  " ++ [newline] ++ T "| a"
                      ++ [newline] ++ T "|") ++ ["}"%char])
  = (T "{|" ++ [newline] ++ T "|-  " ++ [newline] ++ T "| a" ++ [newline] ++ T "|")
    ++ ["}"%char].
Proof.
  apply (X18_row_separator_inside_text_unchanged
           (T "{|" ++ [newline] ++ T "|-  " ++ [newline] ++ T "| a" ++ [newline] ++ T "|")
           "}").
  - split; [repeat constructor; cbn; intuition discriminate | reflexivity].
  - reflexivity.
Defined.






(** X21: a link whose text is broken by a line feed is left as it is:
    the dot of the link rule does not match a line feed, so the rule sees
    no link. *)
Theorem X21_link_across_lines_unchanged (pre a rest : text) :
  around_link pre -> link_line a -> around_link rest ->
  clean_wiki_markup (pre ++ T "[[" ++ a ++ newline :: rest)
  = pre ++ T "[[" ++ a ++ newline :: rest.
Proof.
  intros Hpre Ha Hrest.
  set (x := pre ++ T "[[" ++ a ++ newline :: rest).
  assert (Hnl : forall c, c <> newline -> ~ In c rest -> ~ In c (newline :: rest)).
  { intros c Hc Hr [H|H]; [congruence | exact (Hr H)]. }
  assert (Hbrace : ~ In "{"%char x) by (unfold x; absent; apply Hnl; absent).
  assert (Hangle : ~ In "<"%char x) by (unfold x; absent; apply Hnl; absent).
  assert (Hpipe : ~ In "|"%char x) by (unfold x; absent; apply Hnl; absent).
  assert (Hlink : sub p_wikilink r_wikilink x = x).
  { unfold x.
    apply (sub_one_miss "[" p_wikilink r_wikilink pre "[" (T "[" ++ a ++ newline :: rest));
      [reflexivity | apply (none_of_neq _ _ _ Hpre); cbn; tauto | |].
    - unfold match_here.
      change p_wikilink
        with (map Chr (T "[[") ++ [Open; PlusLazy dot; Close; Chr "]"; Chr "]"]).
      change ("["%char :: T "[" ++ a ++ newline :: rest)
        with (T "[[" ++ a ++ newline :: rest).
      rewrite match_items_lit. cbn [match_items length Nat.add T list_ascii_of_string].
      destruct a as [|c a]; [reflexivity|].
      unfold link_line in Ha. inversion Ha as [|? ? Hc Ha']; subst.
      cbn [app]. replace (dot c) with true.
      2:{ symmetry. unfold dot, any_but. apply negb_true_iff. apply Ascii.eqb_neq.
          intros ->. apply Hc. cbn. tauto. }
      rewrite lazy_none; [reflexivity | | reflexivity].
      intros l1 l2 pos ->. apply Forall_app in Ha'. destruct Ha' as [_ Hl2].
      cbn [match_items]. destruct l2 as [|y l2]; [reflexivity|].
      inversion Hl2 as [|? ? Hy _]; subst. cbn [app].
      destruct (Ascii.eqb_spec "]" y) as [<-|_]; [|reflexivity].
      exfalso. apply Hy. cbn. tauto.
    - apply (sub_one_miss "[" p_wikilink r_wikilink [] "[" (a ++ newline :: rest));
        [reflexivity | constructor | |].
      + destruct a as [|c a].
        * apply (match_here_lit_mismatch (T "[") "[" _ newline). discriminate.
        * apply (match_here_lit_mismatch (T "[") "[" _ c).
          unfold link_line in Ha. inversion Ha as [|? ? Hc _]; subst.
          intros ->. apply Hc. cbn. tauto.
      + apply (sub_id_needs_char "["); [in_pattern|]. absent. apply Hnl; absent. }
  unfold clean_wiki_markup, patterns. cbn [fold_left fst snd]. fold x.
  rewrite (sub_id_needs_char "{" p_table r_table x) by (in_pattern || exact Hbrace).
  rewrite (sub_id_needs_char "|" p_row r_row x) by (in_pattern || exact Hpipe).
  rewrite (sub_id_needs_char "|" p_valign r_valign x) by (in_pattern || exact Hpipe).
  rewrite (sub_id_needs_char "{" p_sheets r_sheets x) by (in_pattern || exact Hbrace).
  rewrite (sub_id_needs_char "{" p_short_description r_short_description x)
    by (in_pattern || exact Hbrace).
  rewrite (sub_id_needs_char "{" p_use r_use x) by (in_pattern || exact Hbrace).
  rewrite (sub_id_needs_char "<" p_ref_dq r_ref x) by (in_pattern || exact Hangle).
  rewrite (sub_id_needs_char "<" p_ref_sq r_ref x) by (in_pattern || exact Hangle).
  rewrite (sub_id_needs_char "{" p_template r_template x) by (in_pattern || exact Hbrace).
  exact Hlink.
Qed.

(** X21 on a link with a line feed between two words. *)
Lemma X21_link_across_lines_unchanged_witness :
  clean_wiki_markup (T "see " ++ T "[[" ++ T "Niels" ++ newline :: T "Bohr]] x")
  = T "see " ++ T "[[" ++ T "Niels" ++ newline :: T "Bohr]] x".
Proof.
  apply (X21_link_across_lines_unchanged (T "see ") (T "Niels") (T "Bohr]] x"));
    repeat constructor; cbn; intuition discriminate.
Defined.


(** X22: the first rule repairs the opening of a table whose alignment
    was left outside the attributes: what follows the class, a semicolon
    and the alignment with a closing quote only, becomes a [style]
    attribute with the alignment as its quoted value.  No later rule
    touches the result. *)
Theorem X22_table_start_repaired (pre v post : text) :
  Pieces.plain pre -> attribute_value v -> Pieces.plain post ->
  clean_wiki_markup (pre ++ broken_table_start v ++ post)
  = pre ++ fixed_table_start v ++ post.
Proof.
  intros Hpre Hv Hpost.
  pose proof (match_here_table_start v post Hv) as Hmatch.
  destruct Hv as [Hne Hv].
  set (y := pre ++ fixed_table_start v ++ post).
  assert (H1 : sub p_table r_table (pre ++ broken_table_start v ++ post) = y).
  { rewrite (sub_one_match "{" p_table r_table pre (broken_table_start v) post
               (T "text-align:" ++ v)).
    - unfold y, fixed_table_start. cbn [expand r_table flat_map].
      rewrite <- !app_assoc. reflexivity.
    - reflexivity.
    - apply (none_of_neq _ _ _ Hpre). cbn. tauto.
    - discriminate.
    - exact Hmatch.
    - apply (sub_id_needs_char "{"); [in_pattern | absent]. }
  assert (Hangle : ~ In "<"%char y) by (unfold y, fixed_table_start; absent).
  assert (Hsquare : ~ In "["%char y) by (unfold y, fixed_table_start; absent).
  assert (Hshape : y = pre ++ T "{| class=" ++ [dquote]
                       ++ T "wikitable sortable mw-collapsible" ++ [dquote]
                       ++ T " style=" ++ [dquote] ++ T "text-align:"
                       ++ v ++ dquote :: post).
  { unfold y, fixed_table_start. rewrite <- !app_assoc. reflexivity. }
  assert (Hv_pipe : ~ In "|"%char (v ++ dquote :: post)).
  { apply not_in_app; [absent|]. intros [H|H]; [discriminate H|]. revert H. absent. }
  assert (Hv_brace : ~ In "{"%char (v ++ dquote :: post)).
  { apply not_in_app; [absent|]. intros [H|H]; [discriminate H|]. revert H. absent. }
  assert (H2 : sub p_row r_row y = y).
  { apply (sub_id_needs_pair [] "|" "-" [Star space; Eos]).
    rewrite Hshape. apply no_pair_app_first; [absent|].
    crunch. apply no_pair_without_first. exact Hv_pipe. }
  assert (H3 : sub p_valign r_valign y = y).
  { rewrite Hshape.
    change (pre ++ T "{| class=" ++ [dquote] ++ T "wikitable sortable mw-collapsible"
            ++ [dquote] ++ T " style=" ++ [dquote] ++ T "text-align:"
            ++ v ++ dquote :: post)
      with (pre ++ T "{" ++ "|"%char :: T " class=" ++ [dquote]
            ++ T "wikitable sortable mw-collapsible" ++ [dquote] ++ T " style="
            ++ [dquote] ++ T "text-align:" ++ v ++ dquote :: post).
    rewrite (app_assoc pre).
    apply (sub_one_miss "|" p_valign r_valign (pre ++ T "{") "|");
      [reflexivity | | reflexivity |].
    - apply not_in_neq. absent.
    - apply (sub_id_needs_char "|"); [in_pattern|].
      intros Hin. cbn [T list_ascii_of_string app In] in Hin.
      repeat (destruct Hin as [Hin|Hin]; [discriminate Hin|]).
      exact (Hv_pipe Hin). }
  assert (H4 : sub p_sheets r_sheets y = y).
  { apply (sub_id_needs_pair (T "data-sheets-value=") dquote "{"
             (List.skipn 20 p_sheets)).
    rewrite Hshape. apply no_pair_app_first; [absent|].
    crunch. apply no_pair_app_second; [absent | reflexivity |].
    crunch. replace (starts_with "{" post) with false.
    - cbn [orb]. apply no_pair_without_first. absent.
    - symmetry. destruct post as [|c post]; [reflexivity|]. cbn [starts_with].
      apply Ascii.eqb_neq. intros ->. revert Hpost. unfold Pieces.plain, none_of.
      intros H. inversion H as [|? ? Hc _]. apply Hc. cbn. tauto. }
  assert (Hpair : has_pair "{" "{" y = false).
  { rewrite Hshape. apply no_pair_app_first; [absent|].
    crunch. apply no_pair_without_first. exact Hv_brace. }
  destruct (template_rules_need_pair y Hpair) as (H5 & H6 & H9).
  destruct (reference_and_link_rules_id y Hangle Hsquare) as (H7 & H8 & H10).
  unfold clean_wiki_markup, patterns. cbn [fold_left fst snd].
  rewrite H1, H2, H3, H4, H5, H6, H7, H8, H9. exact H10.
Qed.

(** X22 on a centred table. *)
Lemma X22_table_start_repaired_witness :
  clean_wiki_markup (T "p " ++ broken_table_start (T "center") ++ T " q")
  = T "p " ++ fixed_table_start (T "center") ++ T " q".
Proof.
  apply (X22_table_start_repaired (T "p ") (T "center") (T " q")).
  - repeat constructor; cbn; intuition discriminate.
  - split; [discriminate | repeat constructor; cbn; intuition discriminate].
  - repeat constructor; cbn; intuition discriminate.
Defined.


(** X23: the third rule closes the quote of a cell style that was left
    open before the pipe.  No other rule touches the text, before or
    after. *)
Theorem X23_cell_style_repaired (pre post : text) :
  Pieces.plain pre -> Pieces.plain post -> starts_with "-" post = false ->
  clean_wiki_markup (pre ++ broken_cell_style ++ post)
  = pre ++ fixed_cell_style ++ post.
Proof.
  intros Hpre Hpost Hdash.
  set (x := pre ++ broken_cell_style ++ post).
  set (y := pre ++ fixed_cell_style ++ post).
  assert (Hpost_pipe : ~ In "|"%char post) by absent.
  assert (Hbrace : ~ In "{"%char x) by (unfold x, broken_cell_style; absent).
  assert (Hbrace' : ~ In "{"%char y) by (unfold y, fixed_cell_style; absent).
  assert (Hangle : ~ In "<"%char y) by (unfold y, fixed_cell_style; absent).
  assert (Hsquare : ~ In "["%char y) by (unfold y, fixed_cell_style; absent).
  assert (H2 : sub p_row r_row x = x).
  { apply (sub_id_needs_pair [] "|" "-" [Star space; Eos]).
    unfold x, broken_cell_style. rewrite <- !app_assoc.
    apply no_pair_app_first; [absent|].
    crunch. rewrite Hdash. cbn [orb]. apply no_pair_without_first. exact Hpost_pipe. }
  assert (H3 : sub p_valign r_valign x = y).
  { unfold x, y.
    rewrite (sub_one_match "|" p_valign r_valign pre broken_cell_style post []).
    - cbn [expand r_valign flat_map]. rewrite app_nil_r. reflexivity.
    - reflexivity.
    - apply (none_of_neq _ _ _ Hpre). cbn. tauto.
    - discriminate.
    - apply match_here_cell_style.
    - apply (sub_id_needs_char "|"); [in_pattern | exact Hpost_pipe]. }
  destruct (reference_and_link_rules_id y Hangle Hsquare) as (H7 & H8 & H10).
  unfold clean_wiki_markup, patterns. cbn [fold_left fst snd]. fold x.
  rewrite (sub_id_needs_char "{" p_table r_table x) by (in_pattern || exact Hbrace).
  rewrite H2, H3.
  rewrite (sub_id_needs_char "{" p_sheets r_sheets y) by (in_pattern || exact Hbrace').
  rewrite (sub_id_needs_char "{" p_short_description r_short_description y)
    by (in_pattern || exact Hbrace').
  rewrite (sub_id_needs_char "{" p_use r_use y) by (in_pattern || exact Hbrace').
  rewrite H7, H8.
  rewrite (sub_id_needs_char "{" p_template r_template y) by (in_pattern || exact Hbrace').
  exact H10.
Qed.

(** X23 on a cell of a table. *)
Lemma X23_cell_style_repaired_witness :
  clean_wiki_markup (T "p " ++ broken_cell_style ++ T " q")
  = T "p " ++ fixed_cell_style ++ T " q".
Proof.
  apply (X23_cell_style_repaired (T "p ") (T " q")).
  - repeat constructor; cbn; intuition discriminate.
  - repeat constructor; cbn; intuition discriminate.
  - reflexivity.
Defined.

(** X24: the fourth rule unwraps the value of a [data-sheets-value]
    attribute from the object a spreadsheet export puts around it.  The
    text before it may hold any letters: the rule cannot match earlier. *)
Theorem X24_sheets_value_unwrapped (pre v post : text) :
  Pieces.plain pre -> attribute_value v -> Pieces.plain post ->
  clean_wiki_markup (pre ++ broken_sheets_value v ++ post)
  = pre ++ fixed_sheets_value v ++ post.
Proof.
  intros Hpre Hv Hpost.
  pose proof (match_here_sheets_value v post Hv) as Hmatch.
  destruct Hv as [Hne Hv].
  set (x := pre ++ broken_sheets_value v ++ post).
  set (y := pre ++ fixed_sheets_value v ++ post).
  assert (Hpipe : ~ In "|"%char x) by (unfold x, broken_sheets_value; absent).
  assert (Hbrace' : ~ In "{"%char y) by (unfold y, fixed_sheets_value; absent).
  assert (Hangle : ~ In "<"%char y) by (unfold y, fixed_sheets_value; absent).
  assert (Hsquare : ~ In "["%char y) by (unfold y, fixed_sheets_value; absent).
  assert (H1 : sub p_table r_table x = x).
  { apply (sub_id_needs_char "|"); [in_pattern | exact Hpipe]. }
  assert (H4 : sub p_sheets r_sheets x = y).
  { unfold x, y, sub.
    change p_sheets
      with (map Chr (T "data-sheets-value=") ++ Chr dquote :: List.skipn 19 p_sheets).
    replace (pre ++ broken_sheets_value v ++ post)
      with (pre ++ T "data-sheets-value=" ++ dquote
                   :: (T "{" ++ [dquote] ++ T "1" ++ [dquote] ++ T ":2," ++ [dquote]
                       ++ T "2" ++ [dquote] ++ T ":" ++ [dquote] ++ v ++ [dquote]
                       ++ T "}" ++ [dquote]) ++ post)
      by (unfold broken_sheets_value; rewrite <- !app_assoc; reflexivity).
    rewrite sub_from_copy_before by absent. f_equal.
    replace (T "data-sheets-value=" ++ dquote
               :: (T "{" ++ [dquote] ++ T "1" ++ [dquote] ++ T ":2," ++ [dquote]
                   ++ T "2" ++ [dquote] ++ T ":" ++ [dquote] ++ v ++ [dquote]
                   ++ T "}" ++ [dquote]) ++ post)
      with (broken_sheets_value v ++ post)
      by (unfold broken_sheets_value; rewrite <- !app_assoc; reflexivity).
    change (map Chr (T "data-sheets-value=") ++ Chr dquote :: List.skipn 19 p_sheets)
      with p_sheets.
    rewrite (sub_from_match_app p_sheets r_sheets (broken_sheets_value v) post v).
    - cbn [expand r_sheets flat_map]. unfold fixed_sheets_value.
      rewrite <- !app_assoc. cbn [app T list_ascii_of_string]. repeat f_equal.
      change (sub p_sheets r_sheets post = post).
      apply (sub_id_needs_char dquote); [in_pattern | absent].
    - discriminate.
    - exact Hmatch. }
  destruct (reference_and_link_rules_id y Hangle Hsquare) as (H7 & H8 & H10).
  unfold clean_wiki_markup, patterns. cbn [fold_left fst snd]. fold x.
  rewrite H1.
  rewrite (sub_id_needs_char "|" p_row r_row x) by (in_pattern || exact Hpipe).
  rewrite (sub_id_needs_char "|" p_valign r_valign x) by (in_pattern || exact Hpipe).
  rewrite H4.
  rewrite (sub_id_needs_char "{" p_short_description r_short_description y)
    by (in_pattern || exact Hbrace').
  rewrite (sub_id_needs_char "{" p_use r_use y) by (in_pattern || exact Hbrace').
  rewrite H7, H8.
  rewrite (sub_id_needs_char "{" p_template r_template y) by (in_pattern || exact Hbrace').
  exact H10.
Qed.

(** X24 on a cell whose text before the attribute ends like the
    attribute begins. *)
Lemma X24_sheets_value_unwrapped_witness :
  clean_wiki_markup (T "td data" ++ broken_sheets_value (T "Hello") ++ T " q")
  = T "td data" ++ fixed_sheets_value (T "Hello") ++ T " q".
Proof.
  apply (X24_sheets_value_unwrapped (T "td data") (T "Hello") (T " q")).
  - repeat constructor; cbn; intuition discriminate.
  - split; [discriminate | repeat constructor; cbn; intuition discriminate].
  - repeat constructor; cbn; intuition discriminate.
Defined.

End RuleProperties.

(* ===================================================================== *)
(** * Properties of the signal handler *)
(* ===================================================================== *)

Module SignalProperties.
Import Signals.

(** X25: [signal_handler] takes one parameter, and the interpreter
    calls a handler with two arguments.  So every delivery of SIGINT or
    SIGTERM ends in a [TypeError] raised before the body of the handler
    runs, and whatever signals arrive, the global [should_exit] keeps its
    initial value [False]; only a call with the signal number alone would
    set it. *)
Theorem X25_handler_never_sets_flag (signals : list (Z * value)) :
  flag_after signals = false
  /\ Forall (fun s => forall flag,
                 deliver (fst s) (snd s) flag = (Raise TypeError, flag)) signals
  /\ (forall signum flag, signal_handler [Int signum] flag = (Ret tt, true)).
Proof.
  split; [|split].
  - unfold flag_after. induction signals as [|s signals IH]; [reflexivity|].
    cbn [fold_left]. exact IH.
  - apply Forall_forall. intros s _ flag. reflexivity.
  - intros signum flag. reflexivity.
Qed.

End SignalProperties.
